(** * Line-parsing engine of the story exporter: a shallow embedding

    The development follows the Python sources:
    - [parsers/base.py], [parsers/registry.py]: the rule interface and the
      priority-ordered registry ([Registry]);
    - [parsers/*_parser.py]: the nine directive rules ([Rules]);
    - [parse_text_to_docx.py]: the render helpers ([Render]), the image
      finalize step ([Images]), with the entries that python-docx may refuse
      ([Writer]), and [DocumentAssembler] ([Assembler]).

    Python [str] values are lists of Unicode code points; the regular
    expressions of the sources are values of a small pattern type, run by a
    backtracking matcher that tries alternatives in the order of Python's
    [re] module. *)

From Stdlib Require Import ZArith NArith Ascii String List Bool Lia Sorted.
From stdpp Require Import base tactics option functions list gmap strings.

Local Open Scope N_scope.

(** ** Python strings *)

Module Py.

Abbreviation str := (list N).

(** An ASCII literal of the sources as a list of code points. *)
Definition lit (s : string) : str :=
  List.map N_of_ascii (list_ascii_of_string s).

(** Script lines of the examples are written with a backtick standing for
    the double quote (code point 34). *)
Definition script (s : string) : str :=
  List.map (fun c => if c =? 96 then 34 else c) (lit s).

Definition in_range (lo hi c : N) : bool := (lo <=? c) && (c <=? hi).

Definition mem (c : N) (cs : str) : bool := existsb (N.eqb c) cs.

(** [str.isspace] on one code point: the Unicode white space characters. *)
Definition isspace (c : N) : bool :=
  in_range 9 13 c || in_range 28 32 c || (c =? 133) || (c =? 160)
  || (c =? 5760) || in_range 8192 8202 c || (c =? 8232) || (c =? 8233)
  || (c =? 8239) || (c =? 8287) || (c =? 12288).

Fixpoint lstrip_by (f : N -> bool) (s : str) : str :=
  match s with
  | [] => []
  | c :: s' => if f c then lstrip_by f s' else s
  end.

Definition rstrip_by (f : N -> bool) (s : str) : str :=
  rev (lstrip_by f (rev s)).

Definition strip_by (f : N -> bool) (s : str) : str :=
  rstrip_by f (lstrip_by f s).

(** [s.strip()], [s.strip(chars)], [s.rstrip(chars)]. *)
Definition strip (s : str) : str := strip_by isspace s.
Definition strip_chars (chars s : str) : str := strip_by (fun c => mem c chars) s.
Definition rstrip_chars (chars s : str) : str := rstrip_by (fun c => mem c chars) s.

Fixpoint startswith (s p : str) : bool :=
  match p, s with
  | [], _ => true
  | _ :: _, [] => false
  | a :: p', b :: s' => (a =? b) && startswith s' p'
  end.

Definition endswith (s p : str) : bool := startswith (rev s) (rev p).

(** [sub in s]. *)
Fixpoint contains (sub s : str) : bool :=
  startswith s sub ||
  match s with
  | [] => false
  | _ :: s' => contains sub s'
  end.

(** [s.split(sep)] for a one-character separator. *)
Fixpoint split (sep : N) (s : str) : list str :=
  match s with
  | [] => [[]]
  | c :: s' =>
      if c =? sep then [] :: split sep s'
      else match split sep s' with
           | [] => [[c]]
           | w :: ws => (c :: w) :: ws
           end
  end.

(** [sep.join(parts)]. *)
Fixpoint join (sep : str) (parts : list str) : str :=
  match parts with
  | [] => []
  | [p] => p
  | p :: ps => p ++ sep ++ join sep ps
  end.

(** [str.lower] on one code point.  Only the code points whose lower case
    begins with an ASCII letter matter to the prefix tests of the sources:
    the ASCII capitals, U+0130 (which becomes [i] followed by U+0307) and the
    Kelvin sign U+212A; every other code point is kept. *)
Definition lower_char (c : N) : str :=
  if in_range 65 90 c then [c + 32]
  else if c =? 304 then [105; 775]
  else if c =? 8490 then [107]
  else [c].

Definition lower (s : str) : str := concat (List.map lower_char s).

Definition is_linebreak (c : N) : bool :=
  in_range 10 13 c || in_range 28 30 c || (c =? 133) || (c =? 8232) || (c =? 8233).

(** [text.splitlines()]: [cur] is the current line, reversed. *)
Fixpoint splitlines_from (cur : str) (s : str) : list str :=
  match s with
  | [] => match cur with [] => [] | _ => [rev cur] end
  | c :: s' =>
      if c =? 13 then
        match s' with
        | d :: s'' => if d =? 10 then rev cur :: splitlines_from [] s''
                      else rev cur :: splitlines_from [] s'
        | [] => rev cur :: splitlines_from [] s'
        end
      else if is_linebreak c then rev cur :: splitlines_from [] s'
      else splitlines_from (c :: cur) s'
  end.

Definition splitlines (s : str) : list str := splitlines_from [] s.

Fixpoint uint_chars (d : Decimal.uint) : str :=
  match d with
  | Decimal.Nil => []
  | Decimal.D0 d => 48 :: uint_chars d
  | Decimal.D1 d => 49 :: uint_chars d
  | Decimal.D2 d => 50 :: uint_chars d
  | Decimal.D3 d => 51 :: uint_chars d
  | Decimal.D4 d => 52 :: uint_chars d
  | Decimal.D5 d => 53 :: uint_chars d
  | Decimal.D6 d => 54 :: uint_chars d
  | Decimal.D7 d => 55 :: uint_chars d
  | Decimal.D8 d => 56 :: uint_chars d
  | Decimal.D9 d => 57 :: uint_chars d
  end.

(** [str(n)] for a natural number. *)
Definition str_of_nat (n : nat) : str := uint_chars (Nat.to_uint n).

End Py.

(** ** Regular expressions of the sources *)

Module Re.
Import Py.

(** Every pattern of the sources is a sequence of one-character items, some
    of them quantified, with capture groups that do not nest. *)
Inductive item : Type :=
| One (cls : N -> bool)          (* one character of the class *)
| Star (cls : N -> bool)         (* cls*, greedy *)
| LazyStar (cls : N -> bool)     (* cls*?, lazy *)
| Opt (cls : N -> bool)          (* cls?, greedy *)
| Open                           (* ( *)
| Close                          (* ) *)
| Bol                            (* ^ *)
| Eol.                           (* $ : at the end, or before a final newline *)

Abbreviation pattern := (list item).

(** Character classes. *)
Definition chr (c : N) : N -> bool := fun d => d =? c.
Definition none_of (cs : str) : N -> bool := fun d => negb (mem d cs).
Definition dot : N -> bool := fun d => negb (d =? 10).
Definition space : N -> bool := isspace.

(** A letter under [re.IGNORECASE]: the subject character is lowered before
    the comparison; [i], [s] and [k] have further equivalents. *)
Definition ci (c : N) : N -> bool := fun d =>
  (d =? c) || (d + 32 =? c) && in_range 65 90 d
  || (c =? 105) && ((d =? 304) || (d =? 305))
  || (c =? 115) && (d =? 383)
  || (c =? 107) && (d =? 8490).

(** A literal run of the pattern, case sensitive or not. *)
Definition word (s : string) : pattern := List.map (fun c => One (chr c)) (lit s).
Definition iword (s : string) : pattern :=
  List.map (fun c => One (if in_range 97 122 c || in_range 65 90 c
                          then ci (hd c (lower_char c)) else chr c)) (lit s).

(** cls+ *)
Definition plus (cls : N -> bool) : pattern := [One cls; Star cls].

(** Matcher state: finished groups, and the open group (reversed). *)
Record mstate := MState { done_groups : list str; open_group : option str }.

Definition push (c : N) (st : mstate) : mstate :=
  MState (done_groups st) (option_map (cons c) (open_group st)).

Definition is_eol (s : str) : bool :=
  match s with
  | [] => true
  | [c] => c =? 10
  | _ => false
  end.

(** [run p at_start s st]: match [p] at the head of [s]; the result is the
    list of groups of the first successful alternative. *)
Fixpoint run (p : pattern) : bool -> str -> mstate -> option (list str) :=
  match p with
  | [] => fun _ _ st => Some (done_groups st)
  | One cls :: p' => fun _ s st =>
      match s with
      | c :: s' => if cls c then run p' false s' (push c st) else None
      | [] => None
      end
  | Star cls :: p' =>
      fix star (b : bool) (s : str) (st : mstate) {struct s} :=
        match s with
        | c :: s' =>
            if cls c then
              match star false s' (push c st) with
              | Some r => Some r
              | None => run p' b s st
              end
            else run p' b s st
        | [] => run p' b s st
        end
  | LazyStar cls :: p' =>
      fix lazy (b : bool) (s : str) (st : mstate) {struct s} :=
        match run p' b s st with
        | Some r => Some r
        | None =>
            match s with
            | c :: s' => if cls c then lazy false s' (push c st) else None
            | [] => None
            end
        end
  | Opt cls :: p' => fun b s st =>
      match s with
      | c :: s' =>
          if cls c then
            match run p' false s' (push c st) with
            | Some r => Some r
            | None => run p' b s st
            end
          else run p' b s st
      | [] => run p' b s st
      end
  | Open :: p' => fun b s st => run p' b s (MState (done_groups st) (Some []))
  | Close :: p' => fun b s st =>
      run p' b s (MState (done_groups st ++ [rev (default [] (open_group st))]) None)
  | Bol :: p' => fun b s st => if b then run p' b s st else None
  | Eol :: p' => fun b s st => if is_eol s then run p' b s st else None
  end.

(** [re.match(p, s)]: at the start only. *)
Definition rmatch (p : pattern) (s : str) : option (list str) :=
  run p true s (MState [] None).

(** [re.search(p, s)]: the leftmost start at which [p] matches. *)
Fixpoint search_from (p : pattern) (b : bool) (s : str) : option (list str) :=
  match run p b s (MState [] None) with
  | Some r => Some r
  | None =>
      match s with
      | [] => None
      | _ :: s' => search_from p false s'
      end
  end.

Definition search (p : pattern) (s : str) : option (list str) := search_from p true s.

(** Truth value of a match object. *)
Definition found (m : option (list str)) : bool :=
  match m with Some _ => true | None => false end.

(** [m.group(k)], from 1. *)
Definition group (k : nat) (gs : list str) : str := nth (k - 1) gs [].

(** A run of characters of [cls], then the end of the subject or its final
    newline. *)
Definition run_then_eol (cls : N -> bool) (s : str) : Prop :=
  ∃ body, Forall (fun c => cls c = true) body ∧ (s = body ∨ s = body ++ [10]).

End Re.

(** ** The document under construction and the shared context *)

Module Render.
Import Py.

Abbreviation bytes := (list Byte.byte).

(** Which helper of [parse_text_to_docx.py] created a paragraph; fonts and
    spacing are the renderer's business. *)
Inductive para_kind : Type :=
| MainTitle | Title | SceneTitle | SceneTimestamp | Dialogue | Narration
| ImageReference | PredicateHeader | SoundEffect | Blank | PageBreak
| ImagesHeading | Picture | Caption | LoadError.

Inductive run : Type :=
| Text (text : str)
| Image (image_stream : bytes).

Record paragraph := Para { kind : para_kind; runs : list run }.

Abbreviation document := (list paragraph).

Definition add_main_title (doc : document) (text : str) : document :=
  doc ++ [Para MainTitle [Text text]].

Definition add_scene_title (doc : document) (text : str) : document :=
  doc ++ [Para SceneTitle [Text text]].

Definition add_scene_timestamp (doc : document) (text : str) : document :=
  doc ++ [Para SceneTimestamp [Text text]].

(** Two runs: the name with its colon, then the utterance. *)
Definition add_dialogue (doc : document) (character text : str) : document :=
  doc ++ [Para Dialogue [Text (character ++ lit ":"); Text text]].

Definition add_narration (doc : document) (text : str) : document :=
  doc ++ [Para Narration [Text text]].

(** "[图片: 图片<n>]" *)
Definition image_reference_text (n : nat) : str :=
  lit "[" ++ [22270; 29255] ++ lit ": " ++ [22270; 29255] ++ str_of_nat n ++ lit "]".

(** Returns the run as well: its handle is the position of its paragraph. *)
Definition add_image_reference (doc : document) (image_index : nat) : document * nat :=
  (doc ++ [Para ImageReference [Text (image_reference_text image_index)]], length doc).

(** [run.text = text] on the run behind a handle. *)
Definition set_run_text (doc : document) (handle : nat) (text : str) : document :=
  alter (fun p => Para (kind p) [Text text]) handle doc.

Definition add_decision (doc : document) (options : list str) : document := doc.

(** "选项<r>" *)
Definition option_placeholder (r : str) : str := [36873; 39033] ++ r.

(** "[→ " ... "]" and "[→ 汇合]" *)
Definition arrow_label (body : str) : str := lit "[" ++ [8594] ++ lit " " ++ body ++ lit "]".
Definition merge_label : str := arrow_label [27719; 21512].

Definition option_text (options_map : gmap str str) (r : str) : str :=
  default (option_placeholder r) (options_map !! r).

Definition predicate_title (references : str) (options_map : gmap str str) : str :=
  let refs := split 59 references in
  if (length refs =? 1)%nat then
    arrow_label (option_text options_map (hd [] refs))
  else if (length refs =? size options_map)%nat then
    merge_label
  else
    arrow_label (join (lit " & ") (List.map (option_text options_map) refs)).

Definition add_predicate_header (doc : document) (references : str)
    (options_map : gmap str str) : document :=
  doc ++ [Para PredicateHeader [Text (predicate_title references options_map)]].

Definition _add_sound_effect_paragraph (doc : document) (text : str) : document * bool :=
  (doc ++ [Para SoundEffect [Text (lit "<" ++ text ++ lit ">")]], true).

(** [[\u4e00-\u9fff]] and [^\$?[A-Za-z0-9_\-/\$]+$]. *)
Definition cjk : N -> bool := in_range 19968 40959.

Definition id_char (c : N) : bool :=
  in_range 65 90 c || in_range 97 122 c || in_range 48 57 c
  || mem c (lit "_-/$").

Definition cjk_pattern : Re.pattern := [Re.One cjk].

Definition resource_id_pattern : Re.pattern :=
  [Re.Bol; Re.Opt (Re.chr 36)] ++ Re.plus id_char ++ [Re.Eol].

(** The texts that [re.match] finds the second pattern in: made of its
    characters only, or, since [$] also matches before a newline that ends
    the text, made of them up to such a newline. *)
Definition id_shape (text : str) : Prop :=
  (text ≠ [] ∧ Forall (fun c => id_char c = true) text)
  ∨ ∃ t, text = t ++ [10] ∧ t ≠ [] ∧ Forall (fun c => id_char c = true) t.

Definition add_sound_effect (doc : document) (text : str) : document * bool :=
  if Re.found (Re.search cjk_pattern text) then _add_sound_effect_paragraph doc text
  else if Re.found (Re.rmatch resource_id_pattern text) then (doc, false)
  else _add_sound_effect_paragraph doc text.

End Render.

(** ** [parsers/base.py]: the context and the rule interface *)

Module Base.
Import Py Render.

(** The state a [StatefulParser] keeps in [context.state] under the key
    [<class name>_state]. *)
Record image_state := ImageState {
  image_counter : nat;
  image_reference_runs : list (nat * nat);   (* local index, run; in insertion order *)
  images_to_append : list (nat * str)        (* local index, url *)
}.

(** A key of the Python dict that is absent is [None] here. *)
Record decision_state := DecisionState {
  current_decision_options : option (gmap str str);
  current_predicate : option str
}.

(** [ParserContext] together with the [DocumentAssembler] it points to:
    the rules reach the document, their own state and the assembler's fields
    through the one context object. *)
Record context := Context {
  doc : document;
  ImageParser_state : option image_state;
  DecisionParser_state : option decision_state;
  image_map : gmap str str;
  asm_image_counter : nat;
  asm_image_reference_runs : list (nat * nat);
  asm_images_to_append : list (nat * str);
  skipped_lines : list str;
  first_section : bool;
  has_main_title : bool;
  spacer_lines : Z;
  add_page_numbers : bool
}.

Definition with_doc (d : document) (c : context) : context :=
  Context d (ImageParser_state c) (DecisionParser_state c) (image_map c)
    (asm_image_counter c) (asm_image_reference_runs c) (asm_images_to_append c)
    (skipped_lines c) (first_section c) (has_main_title c) (spacer_lines c)
    (add_page_numbers c).

Definition with_image_state (s : option image_state) (c : context) : context :=
  Context (doc c) s (DecisionParser_state c) (image_map c)
    (asm_image_counter c) (asm_image_reference_runs c) (asm_images_to_append c)
    (skipped_lines c) (first_section c) (has_main_title c) (spacer_lines c)
    (add_page_numbers c).

Definition with_decision_state (s : option decision_state) (c : context) : context :=
  Context (doc c) (ImageParser_state c) s (image_map c)
    (asm_image_counter c) (asm_image_reference_runs c) (asm_images_to_append c)
    (skipped_lines c) (first_section c) (has_main_title c) (spacer_lines c)
    (add_page_numbers c).

Definition with_image_map (m : gmap str str) (c : context) : context :=
  Context (doc c) (ImageParser_state c) (DecisionParser_state c) m
    (asm_image_counter c) (asm_image_reference_runs c) (asm_images_to_append c)
    (skipped_lines c) (first_section c) (has_main_title c) (spacer_lines c)
    (add_page_numbers c).

Definition with_asm_images (n : nat) (runs : list (nat * nat))
    (pending : list (nat * str)) (c : context) : context :=
  Context (doc c) (ImageParser_state c) (DecisionParser_state c) (image_map c)
    n runs pending
    (skipped_lines c) (first_section c) (has_main_title c) (spacer_lines c)
    (add_page_numbers c).

Definition with_skipped_lines (l : list str) (c : context) : context :=
  Context (doc c) (ImageParser_state c) (DecisionParser_state c) (image_map c)
    (asm_image_counter c) (asm_image_reference_runs c) (asm_images_to_append c)
    l (first_section c) (has_main_title c) (spacer_lines c)
    (add_page_numbers c).

Definition with_first_section (b : bool) (c : context) : context :=
  Context (doc c) (ImageParser_state c) (DecisionParser_state c) (image_map c)
    (asm_image_counter c) (asm_image_reference_runs c) (asm_images_to_append c)
    (skipped_lines c) b (has_main_title c) (spacer_lines c)
    (add_page_numbers c).

Definition with_has_main_title (b : bool) (c : context) : context :=
  Context (doc c) (ImageParser_state c) (DecisionParser_state c) (image_map c)
    (asm_image_counter c) (asm_image_reference_runs c) (asm_images_to_append c)
    (skipped_lines c) (first_section c) b (spacer_lines c)
    (add_page_numbers c).

(** [d[k] = v] on a dict kept in insertion order. *)
Fixpoint dict_set {V : Type} (k : nat) (v : V) (d : list (nat * V)) : list (nat * V) :=
  match d with
  | [] => [(k, v)]
  | (k', v') :: d' => if (k' =? k)%nat then (k, v) :: d' else (k', v') :: dict_set k v d'
  end.

Inductive parser_class : Type :=
| ControlParser | ImageParser | DecisionParser | PredicateParser | SceneParser
| SubtitleParser | DialogueParser | SoundParser | NarrationParser.

Global Instance parser_class_eq_dec : EqDecision parser_class.
Proof. solve_decision. Defined.

(** [LineParser]: the attributes and the four methods, over any context
    type.  [parse] is [None] when the Python method raises. *)
Record rule (C : Type) := Rule {
  class : parser_class;
  enabled : bool;
  priority : Z;
  can_parse : str -> C -> bool;
  parse : str -> C -> option (bool * C);
  initialize : C -> C;
  finalize : C -> C
}.

Arguments Rule {C}.
Arguments class {C}.
Arguments enabled {C}.
Arguments priority {C}.
Arguments can_parse {C}.
Arguments parse {C}.
Arguments initialize {C}.
Arguments finalize {C}.

Definition set_enabled {C} (b : bool) (p : rule C) : rule C :=
  Rule (class p) b (priority p) (can_parse p) (parse p) (initialize p) (finalize p).

End Base.

(** ** [parsers/registry.py] *)

Module Registry.
Import Py Base.

Section WithContext.
Context {C : Type}.

(** [list.sort(key=priority)] is stable; a stable insertion sort computes
    the same list. *)
Fixpoint insert_by_priority (p : rule C) (l : list (rule C)) : list (rule C) :=
  match l with
  | [] => [p]
  | q :: l' =>
      if (priority p <=? priority q)%Z then p :: l
      else q :: insert_by_priority p l'
  end.

Definition sort_by_priority (l : list (rule C)) : list (rule C) :=
  foldr insert_by_priority [] l.

Definition register (parsers : list (rule C)) (parser : rule C) : list (rule C) :=
  sort_by_priority (parsers ++ [parser]).

Definition unregister (parsers : list (rule C)) (cls : parser_class) : list (rule C) :=
  List.filter (fun p => negb (bool_decide (class p = cls))) parsers.

Definition get_parser (parsers : list (rule C)) (cls : parser_class) : option (rule C) :=
  List.find (fun p => bool_decide (class p = cls)) parsers.

(** [get_parser] returns the first instance of the class; the flag of that
    object is set. *)
Fixpoint set_first_enabled (b : bool) (cls : parser_class) (parsers : list (rule C))
    : list (rule C) :=
  match parsers with
  | [] => []
  | p :: ps =>
      if bool_decide (class p = cls) then set_enabled b p :: ps
      else p :: set_first_enabled b cls ps
  end.

Definition enable_parser (parsers : list (rule C)) (cls : parser_class) : list (rule C) :=
  set_first_enabled true cls parsers.

Definition disable_parser (parsers : list (rule C)) (cls : parser_class) : list (rule C) :=
  set_first_enabled false cls parsers.

Fixpoint initialize_all (parsers : list (rule C)) (ctx : C) : C :=
  match parsers with
  | [] => ctx
  | p :: ps =>
      if enabled p then initialize_all ps (initialize p ctx)
      else initialize_all ps ctx
  end.

Fixpoint finalize_all (parsers : list (rule C)) (ctx : C) : C :=
  match parsers with
  | [] => ctx
  | p :: ps =>
      if enabled p then finalize_all ps (finalize p ctx)
      else finalize_all ps ctx
  end.

(** The method calls that [parse_line] makes, in order. *)
Inductive call : Type :=
| CanParse (p : rule C)
| Parse (p : rule C).

Definition callee (c : call) : rule C :=
  match c with CanParse p | Parse p => p end.

(** The loop of [parse_line] over the parsers, with the calls it makes. *)
Fixpoint dispatch (parsers : list (rule C)) (line : str) (ctx : C)
    : list call * option (bool * C) :=
  match parsers with
  | [] => ([], Some (false, ctx))
  | p :: ps =>
      if negb (enabled p) then dispatch ps line ctx
      else if can_parse p line ctx then ([CanParse p; Parse p], parse p line ctx)
      else let '(calls, r) := dispatch ps line ctx in (CanParse p :: calls, r)
  end.

Definition parse_line_calls (parsers : list (rule C)) (line : str) (ctx : C)
    : list call * option (bool * C) :=
  let line := strip line in
  match line with
  | [] => ([], Some (false, ctx))
  | _ :: _ => dispatch parsers line ctx
  end.

Definition parse_line (parsers : list (rule C)) (line : str) (ctx : C)
    : option (bool * C) :=
  snd (parse_line_calls parsers line ctx).

(** The order of the registry: ascending priority, and the rules of one
    priority taken out in order. *)
Definition by_priority (p q : rule C) : Prop := (priority p <= priority q)%Z.

Definition same_priority (k : Z) (p : rule C) : Prop := priority p = k.

Global Instance same_priority_dec k p : Decision (same_priority k p).
Proof. unfold same_priority. apply _. Defined.

End WithContext.

End Registry.

(** ** [DocumentAssembler.append_images]: the image finalize step *)

Module Images.
Import Py Render Base.

(** What [requests.get] followed by [raise_for_status] gives: the content,
    or an exception with its text. *)
Inductive response : Type :=
| Fetched (content : bytes)
| Failed (error : str).

Inductive entry : Type :=
| ImageEntry (final_index : nat) (image_stream : bytes) (image_url : str)
| ErrorEntry (final_index : nat) (image_url : str) (error : str).

Definition final_index (e : entry) : nat :=
  match e with ImageEntry k _ _ | ErrorEntry k _ _ => k end.

(** The four locals of the fetch loop. *)
Record progress := Progress {
  hash_to_final_index : gmap str nat;
  index_map : gmap nat nat;
  output_entries : list entry;
  final_counter : nat
}.

Definition start : progress := Progress ∅ ∅ [] 0.

(** "图片<n>", "━━━ 图片 ━━━" and "[图片<n> 加载失败: <url>]" *)
Definition caption_text (n : nat) : str := [22270; 29255] ++ str_of_nat n.
Definition heading_text : str :=
  [9473; 9473; 9473] ++ lit " " ++ [22270; 29255] ++ lit " " ++ [9473; 9473; 9473].
Definition error_text (n : nat) (url error : str) : str :=
  lit "[" ++ [22270; 29255] ++ str_of_nat n ++ lit " " ++ [21152; 36733; 22833; 36133]
  ++ lit ": " ++ url ++ lit "]"
  ++ match error with [] => [] | _ :: _ => lit " (" ++ error ++ lit ")" end.

Section Fetch.
Variable fetch : str -> response.
Variable sha256 : bytes -> str.

(** One turn of the loop over [images_to_append]. *)
Definition fetch_one (st : progress) (item : nat * str) : progress :=
  let '(image_index, image_url) := item in
  match fetch image_url with
  | Fetched content =>
      let image_hash := sha256 content in
      match hash_to_final_index st !! image_hash with
      | Some k =>
          Progress (hash_to_final_index st) (<[image_index := k]> (index_map st))
            (output_entries st) (final_counter st)
      | None =>
          let final_counter := S (final_counter st) in
          Progress (<[image_hash := final_counter]> (hash_to_final_index st))
            (<[image_index := final_counter]> (index_map st))
            (output_entries st ++ [ImageEntry final_counter content image_url])
            final_counter
      end
  | Failed e =>
      let final_counter := S (final_counter st) in
      Progress (hash_to_final_index st)
        (<[image_index := final_counter]> (index_map st))
        (output_entries st ++ [ErrorEntry final_counter image_url e])
        final_counter
  end.

Definition fetch_all (pending : list (nat * str)) : progress :=
  fold_left fetch_one pending start.

(** The references in the text get their final number. *)
Definition renumber (index_map : gmap nat nat) (runs : list (nat * nat))
    (d : document) : document :=
  fold_left (fun d '(original_index, run) =>
               match index_map !! original_index with
               | Some (S k) => set_run_text d run (image_reference_text (S k))
               | _ => d
               end) runs d.

Definition add_entry (d : document) (e : entry) : document :=
  match e with
  | ImageEntry k stream _ =>
      d ++ [Para Picture [Image stream]; Para Caption [Text (caption_text k)]]
  | ErrorEntry k url error =>
      d ++ [Para LoadError [Text (error_text k url error)]]
  end.

Definition append_images (c : context) : context :=
  match asm_images_to_append c with
  | [] => c
  | _ :: _ =>
      let st := fetch_all (asm_images_to_append c) in
      match output_entries st with
      | [] => c
      | _ :: _ =>
          let d := renumber (index_map st) (asm_image_reference_runs c) (doc c) in
          let d := d ++ [Para PageBreak []] in
          let d := d ++ [Para ImagesHeading [Text heading_text]] in
          with_doc (fold_left add_entry (output_entries st) d) c
      end
  end.

(** What the loop never undoes. *)
Record extends (st st' : progress) : Prop := Extends {
  ext_entries : output_entries st `prefix_of` output_entries st';
  ext_hashes : ∀ h k, hash_to_final_index st !! h = Some k →
                      hash_to_final_index st' !! h = Some k
}.

(** The invariant of the loop, after the entries [pre]. *)
Record loop_inv (pre : list (nat * str)) (st : progress) : Prop := LoopInv {
  inv_counter : final_counter st = length (output_entries st);
  inv_numbered : ∀ i e, output_entries st !! i = Some e → final_index e = S i;
  inv_hashes : ∀ h k, hash_to_final_index st !! h = Some k ↔
      ∃ c u, output_entries st !! (k - 1)%nat = Some (ImageEntry k c u) ∧ sha256 c = h;
  inv_images : ∀ i k c u, output_entries st !! i = Some (ImageEntry k c u) →
      hash_to_final_index st !! sha256 c = Some k
      ∧ ∃ l, (l, u) ∈ pre ∧ fetch u = Fetched c;
  inv_fetched : ∀ l u c, (l, u) ∈ pre → fetch u = Fetched c →
      is_Some (hash_to_final_index st !! sha256 c)
}.

End Fetch.
End Images.

(** ** [parsers/*_parser.py]: the nine rules *)

Module Rules.
Import Py Render Base Images.

Definition eq_sign : N := 61.
Definition dquote : N := 34.

(** In the comments on patterns, Q stands for the double quote.
    [\s*=\s*Q([^Q]+)Q] *)
Definition quoted_value : Re.pattern :=
  [Re.Star Re.space; Re.One (Re.chr eq_sign); Re.Star Re.space; Re.One (Re.chr dquote); Re.Open]
  ++ Re.plus (Re.none_of [dquote]) ++ [Re.Close; Re.One (Re.chr dquote)].

Definition handled (ctx : context) : option (bool * context) := Some (true, ctx).
Definition unhandled (ctx : context) : option (bool * context) := Some (false, ctx).

(** *** ControlParser *)

Definition control_can_parse (line : str) (ctx : context) : bool :=
  let line_lower := lower line in
  bool_decide (line = lit "#")
  || startswith line_lower (lit "[dialog]")
  || startswith line_lower (lit "[charslot]")
  || startswith line_lower (lit "[background]").

Definition control_parse (line : str) (ctx : context) : option (bool * context) :=
  unhandled ctx.

Definition new_ControlParser (enabled : bool) (priority : Z) : rule context :=
  Rule ControlParser enabled priority control_can_parse control_parse id id.

(** *** DecisionParser *)

(** [Decision\(options\s*=\s*Q([^Q]+)Q.*?values\s*=\s*Q([^Q]+)Q], IGNORECASE *)
Definition decision_pattern : Re.pattern :=
  Re.iword "Decision(options" ++ quoted_value ++ [Re.LazyStar Re.dot]
  ++ Re.iword "values" ++ quoted_value.

Definition decision_initialize (ctx : context) : context :=
  with_decision_state (Some (DecisionState (Some ∅) None)) ctx.

Definition decision_can_parse (line : str) (ctx : context) : bool :=
  Re.found (Re.search decision_pattern line).

(** [{v.strip(): o.strip() for v, o in zip(values, options)}]: a later pair
    replaces an earlier one with the same key. *)
Definition options_by_value (values options : list str) : gmap str str :=
  fold_left (fun m '(v, o) => <[strip v := strip o]> m) (combine values options) ∅.

Definition decision_parse (line : str) (ctx : context) : option (bool * context) :=
  match Re.search decision_pattern line with
  | None => unhandled ctx
  | Some m =>
      let options := split 59 (Re.group 1 m) in
      let values := split 59 (Re.group 2 m) in
      match DecisionParser_state ctx with
      | None => None
      | Some _ =>
          let state := DecisionState (Some (options_by_value values options)) None in
          let ctx := with_decision_state (Some state) ctx in
          handled (with_doc (add_decision (doc ctx) options) ctx)
      end
  end.

Definition new_DecisionParser (enabled : bool) (priority : Z) : rule context :=
  Rule DecisionParser enabled priority decision_can_parse decision_parse
    decision_initialize id.

(** *** PredicateParser *)

(** [Predicate\(references\s*=\s*Q([^Q]+)Q], IGNORECASE *)
Definition predicate_pattern : Re.pattern :=
  Re.iword "Predicate(references" ++ quoted_value.

Definition predicate_can_parse (line : str) (ctx : context) : bool :=
  Re.found (Re.search predicate_pattern line).

Definition predicate_parse (line : str) (ctx : context) : option (bool * context) :=
  match Re.search predicate_pattern line with
  | None => unhandled ctx
  | Some m =>
      let references := strip (Re.group 1 m) in
      let decision_state := default (DecisionState None None) (DecisionParser_state ctx) in
      let current_options := default ∅ (current_decision_options decision_state) in
      let ctx :=
        if bool_decide (current_options = ∅) then ctx
        else with_doc (add_predicate_header (doc ctx) references current_options) ctx in
      let decision_state :=
        DecisionState (current_decision_options decision_state) (Some references) in
      handled (with_decision_state (Some decision_state) ctx)
  end.

Definition new_PredicateParser (enabled : bool) (priority : Z) : rule context :=
  Rule PredicateParser enabled priority predicate_can_parse predicate_parse id id.

(** *** SceneParser *)

(** [<p=1>([^<\n]+)<p=2>([^<\n]+)] *)
Definition scene_pattern : Re.pattern :=
  Re.word "<p=1>" ++ [Re.Open] ++ Re.plus (Re.none_of [60; 10]) ++ [Re.Close]
  ++ Re.word "<p=2>" ++ [Re.Open] ++ Re.plus (Re.none_of [60; 10]) ++ [Re.Close].

Definition scene_can_parse (line : str) (ctx : context) : bool :=
  Re.found (Re.search scene_pattern line).

Definition scene_parse (line : str) (ctx : context) : option (bool * context) :=
  match Re.search scene_pattern line with
  | None => unhandled ctx
  | Some m =>
      let title := strip (Re.group 1 m) in
      let time := strip (Re.group 2 m) in
      handled (with_doc (add_scene_timestamp (add_scene_title (doc ctx) title) time) ctx)
  end.

Definition new_SceneParser (enabled : bool) (priority : Z) : rule context :=
  Rule SceneParser enabled priority scene_can_parse scene_parse id id.

(** *** SubtitleParser *)

(** [Subtitle\(text\s*=\s*Q([^Q]+)Q] *)
Definition subtitle_pattern : Re.pattern := Re.word "Subtitle(text" ++ quoted_value.

Definition subtitle_can_parse (line : str) (ctx : context) : bool :=
  Re.found (Re.search subtitle_pattern line).

Definition subtitle_parse (line : str) (ctx : context) : option (bool * context) :=
  match Re.search subtitle_pattern line with
  | None => unhandled ctx
  | Some m => handled (with_doc (add_narration (doc ctx) (Re.group 1 m)) ctx)
  end.

Definition new_SubtitleParser (enabled : bool) (priority : Z) : rule context :=
  Rule SubtitleParser enabled priority subtitle_can_parse subtitle_parse id id.

(** *** DialogueParser *)

(** [\[name=Q([^Q]+)Q\]( .* )] and [name\s*=\s*Q([^Q]+)Q\]\s*( .* )]
    (the last group is written without the spaces) *)
Definition dialogue_pattern1 : Re.pattern :=
  Re.word "[name=" ++ [Re.One (Re.chr dquote); Re.Open] ++ Re.plus (Re.none_of [dquote])
  ++ [Re.Close; Re.One (Re.chr dquote); Re.One (Re.chr 93);
      Re.Open; Re.Star Re.dot; Re.Close].

Definition dialogue_pattern2 : Re.pattern :=
  Re.word "name" ++ quoted_value
  ++ [Re.One (Re.chr 93); Re.Star Re.space; Re.Open; Re.Star Re.dot; Re.Close].

Definition dialogue_can_parse (line : str) (ctx : context) : bool :=
  Re.found (Re.rmatch dialogue_pattern1 line)
  || Re.found (Re.search dialogue_pattern2 line).

Definition dialogue_parse (line : str) (ctx : context) : option (bool * context) :=
  match Re.rmatch dialogue_pattern1 line with
  | Some m =>
      handled (with_doc (add_dialogue (doc ctx) (strip (Re.group 1 m)) (strip (Re.group 2 m))) ctx)
  | None =>
      match Re.search dialogue_pattern2 line with
      | Some m =>
          handled (with_doc (add_dialogue (doc ctx) (strip (Re.group 1 m)) (strip (Re.group 2 m))) ctx)
      | None => unhandled ctx
      end
  end.

Definition new_DialogueParser (enabled : bool) (priority : Z) : rule context :=
  Rule DialogueParser enabled priority dialogue_can_parse dialogue_parse id id.

(** *** NarrationParser *)

(** [^[QQ].+[QQ]$] *)
Definition narration_pattern : Re.pattern :=
  [Re.Bol; Re.One (Re.chr dquote)] ++ Re.plus Re.dot ++ [Re.One (Re.chr dquote); Re.Eol].

Definition narration_can_parse (line : str) (ctx : context) : bool :=
  Re.found (Re.rmatch narration_pattern line).

Definition narration_parse (line : str) (ctx : context) : option (bool * context) :=
  if Re.found (Re.rmatch narration_pattern line)
  then handled (with_doc (add_narration (doc ctx) line) ctx)
  else unhandled ctx.

Definition new_NarrationParser (enabled : bool) (priority : Z) : rule context :=
  Rule NarrationParser enabled priority narration_can_parse narration_parse id id.

(** *** SoundParser *)

Record sound_parser := SoundParserObject {
  sound_enabled : bool;
  sound_priority : Z;
  skip_resource_ids : bool;
  skip_directives : gset str
}.

Definition SoundParser_init (enabled : bool) (priority : Z) (skip_resource_ids : bool)
    : sound_parser :=
  SoundParserObject enabled priority skip_resource_ids
    (list_to_set (List.map lit
       ["stopsound"; "stopmusic"; "soundvolume"; "blocker"; "delay";
        "background"; "image"; "imagetween"; "curtain"; "camerashake";
        "cameraeffect"; "focusout"; "bgeffect"; "charslot"; "dialog";
        "subtitle"; "animtextclean"; "animtext"; "playsound"; "playmusic"]%string)).

Definition sound_commands : list str :=
  List.map lit ["PlaySound"; "PlayMusic"; "StopSound"; "stopmusic"; "StopMusic";
                "playsound"; "playmusic"]%string.

Definition sound_can_parse (self : sound_parser) (line : str) (ctx : context) : bool :=
  if startswith line (lit "[") && existsb (fun cmd => contains cmd line) sound_commands
  then true
  else if startswith line (lit "<") && endswith line (lit ">") then true
  else false.

(** [key\s*=\s*Q?([^Q,\)\]]+)Q?] and [\[?\s*([A-Za-z_][A-Za-z0-9_]* )] *)
Definition key_pattern : Re.pattern :=
  Re.word "key" ++ [Re.Star Re.space; Re.One (Re.chr eq_sign); Re.Star Re.space;
                    Re.Opt (Re.chr dquote); Re.Open]
  ++ Re.plus (Re.none_of (dquote :: lit ",)]")) ++ [Re.Close; Re.Opt (Re.chr dquote)].

Definition name_start (c : N) : bool :=
  in_range 65 90 c || in_range 97 122 c || (c =? 95).
Definition name_char (c : N) : bool := name_start c || in_range 48 57 c.

Definition command_pattern : Re.pattern :=
  [Re.Opt (Re.chr 91); Re.Star Re.space; Re.Open; Re.One name_start;
   Re.Star name_char; Re.Close].

Definition emit_sound (ctx : context) (text : str) : context :=
  with_doc (fst (add_sound_effect (doc ctx) text)) ctx.

Definition sound_parse (self : sound_parser) (line : str) (ctx : context)
    : option (bool * context) :=
  if startswith line (lit "<") && endswith line (lit ">") then
    let text := strip_chars (lit "<>") line in
    handled (emit_sound ctx text)
  else if startswith line (lit "[") then
    match Re.search key_pattern line with
    | Some m => handled (emit_sound ctx (Re.group 1 m))
    | None =>
        let skip :=
          match Re.rmatch command_pattern line with
          | Some cmd_m => bool_decide (lower (Re.group 1 cmd_m) ∈ skip_directives self)
          | None => false
          end in
        if skip then handled ctx
        else handled (emit_sound ctx (strip_chars (lit "[]") line))
    end
  else unhandled ctx.

Definition sound_rule (self : sound_parser) : rule context :=
  Rule SoundParser (sound_enabled self) (sound_priority self)
    (sound_can_parse self) (sound_parse self) id id.

Definition new_SoundParser (enabled : bool) (priority : Z) (skip_resource_ids : bool)
    : rule context :=
  sound_rule (SoundParser_init enabled priority skip_resource_ids).

(** *** ImageParser *)

(** [Image\(image\s*=\s*Q([^Q]+)Q], IGNORECASE *)
Definition image_pattern : Re.pattern := Re.iword "Image(image" ++ quoted_value.

Definition image_initialize (ctx : context) : context :=
  with_image_state (Some (ImageState 0 [] [])) ctx.

Definition image_can_parse (line : str) (ctx : context) : bool :=
  Re.found (Re.search image_pattern line).

Definition image_parse (line : str) (ctx : context) : option (bool * context) :=
  match Re.search image_pattern line with
  | None => unhandled ctx
  | Some m =>
      let image_id := strip (Re.group 1 m) in
      match image_map ctx !! image_id with
      | None => handled ctx
      | Some image_url =>
          match ImageParser_state ctx with
          | None => None
          | Some state =>
              let counter := S (image_counter state) in
              let '(d, run) := add_image_reference (doc ctx) counter in
              let state :=
                ImageState counter
                  (dict_set counter run (image_reference_runs state))
                  (images_to_append state ++ [(counter, image_url)]) in
              handled (with_image_state (Some state) (with_doc d ctx))
          end
      end
  end.

Section Fetch.
Variable fetch : str -> response.
Variable sha256 : bytes -> str.

Definition image_finalize (ctx : context) : context :=
  match ImageParser_state ctx with
  | None => ctx
  | Some state =>
      match images_to_append state with
      | [] => ctx
      | _ :: _ =>
          let ctx := with_asm_images (image_counter state) (image_reference_runs state)
                       (images_to_append state) ctx in
          append_images fetch sha256 ctx
      end
  end.

Definition new_ImageParser (enabled : bool) (priority : Z) : rule context :=
  Rule ImageParser enabled priority image_can_parse image_parse
    image_initialize image_finalize.

End Fetch.
End Rules.

(** ** [DocumentAssembler] *)

Module Assembler.
Import Py Render Base Images Rules.

(** The part of [ParserConfig] the assembler reads. *)
Record parser_config := ParserSettings { cfg_enabled : bool; cfg_priority : Z }.

Record config := Config {
  document_spacer_lines : Z;
  document_add_page_numbers : bool;
  parsers_config : parser_class -> parser_config;
  sound_skip_resource_ids : bool
}.

Definition DEFAULT_CONFIG : config :=
  Config 2 true
    (fun cls =>
       match cls with
       | ControlParser => ParserSettings true 5
       | ImageParser => ParserSettings true 10
       | DecisionParser => ParserSettings true 20
       | PredicateParser => ParserSettings true 21
       | SceneParser => ParserSettings true 30
       | SubtitleParser => ParserSettings true 35
       | DialogueParser => ParserSettings true 40
       | SoundParser => ParserSettings true 45
       | NarrationParser => ParserSettings true 60
       end)
    true.

Record assembler := AssemblerObject {
  registry : list (rule context);
  ctx : context
}.

Section Fetch.
Variable fetch : str -> response.
Variable sha256 : bytes -> str.

(** The order of the [parser_classes] dict of [_setup_parsers]. *)
Definition parser_classes : list parser_class :=
  [ControlParser; ImageParser; DecisionParser; PredicateParser; SceneParser;
   SubtitleParser; DialogueParser; SoundParser; NarrationParser].

Definition make_parser (cfg : config) (cls : parser_class) : rule context :=
  let enabled := cfg_enabled (parsers_config cfg cls) in
  let priority := cfg_priority (parsers_config cfg cls) in
  match cls with
  | ControlParser => new_ControlParser enabled priority
  | ImageParser => new_ImageParser fetch sha256 enabled priority
  | DecisionParser => new_DecisionParser enabled priority
  | PredicateParser => new_PredicateParser enabled priority
  | SceneParser => new_SceneParser enabled priority
  | SubtitleParser => new_SubtitleParser enabled priority
  | DialogueParser => new_DialogueParser enabled priority
  | SoundParser => new_SoundParser enabled priority (sound_skip_resource_ids cfg)
  | NarrationParser => new_NarrationParser enabled priority
  end.

Definition _setup_parsers (cfg : config) : list (rule context) :=
  fold_left (fun reg cls => Registry.register reg (make_parser cfg cls)) parser_classes [].

(** [DocumentAssembler.__init__] *)
Definition new_assembler (cfg : config) : assembler :=
  AssemblerObject (_setup_parsers cfg)
    (Context [] None None ∅ 0 [] [] [] true false
       (document_spacer_lines cfg) (document_add_page_numbers cfg)).

Definition enable_parser (asm : assembler) (cls : parser_class) : assembler :=
  AssemblerObject (Registry.enable_parser (registry asm) cls) (ctx asm).

Definition disable_parser (asm : assembler) (cls : parser_class) : assembler :=
  AssemblerObject (Registry.disable_parser (registry asm) cls) (ctx asm).

Definition add_blank_lines (n : Z) (c : context) : context :=
  with_doc (doc c ++ repeat (Para Blank []) (Z.to_nat (Z.max 0 n))) c.

Definition add_main_title (text : option str) (c : context) : context :=
  match text with
  | Some ((_ :: _) as text) =>
      if has_main_title c then c
      else with_has_main_title true (with_doc (Render.add_main_title (doc c) text) c)
  | _ => c
  end.

Definition add_title (title : str) (character : option str) (c : context) : context :=
  match title with
  | [] => c
  | _ :: _ =>
      let display_text :=
        match character with
        | Some ((_ :: _) as character) => character ++ title
        | _ => title
        end in
      with_doc (doc c ++ [Para Title [Text display_text]]) c
  end.

(** One turn of the loop over the lines. *)
Definition parse_raw (reg : list (rule context)) (c : context) (raw : str)
    : option context :=
  match Registry.parse_line reg raw c with
  | None => None
  | Some (handled, c) =>
      if negb handled
      then Some (with_skipped_lines (skipped_lines c ++ [rstrip_chars [10] raw]) c)
      else Some c
  end.

Fixpoint parse_each (reg : list (rule context)) (c : context) (lines : list str)
    : option context :=
  match lines with
  | [] => Some c
  | raw :: lines =>
      match parse_raw reg c raw with
      | None => None
      | Some c => parse_each reg c lines
      end
  end.

(** [parse_lines]; the result is [None] when a rule raises. *)
Definition parse_lines (asm : assembler) (lines : list str) (title character : option str)
    (spacer_lines : option Z) (image_map : option (gmap str str))
    : option (list str * assembler) :=
  let c := ctx asm in
  let c :=
    match image_map with
    | Some m => if bool_decide (m = ∅) then c else with_image_map m c
    | None => c
    end in
  let c := Registry.initialize_all (registry asm) c in
  let c :=
    match title with
    | Some ((_ :: _) as title) =>
        let n := default (Base.spacer_lines c) spacer_lines in
        let c := if negb (first_section c)
                 then (if (0 <? n)%Z then add_blank_lines n c else c)
                 else c in
        let c := add_title title character c in
        with_first_section false c
    | _ => c
    end in
  match parse_each (registry asm) c lines with
  | None => None
  | Some c =>
      let c := Registry.finalize_all (registry asm) c in
      Some (skipped_lines c, AssemblerObject (registry asm) c)
  end.

Definition parse_text (asm : assembler) (text : str) (title character : option str)
    (spacer_lines : option Z) (main_title : option str) (image_map : option (gmap str str))
    : option (list str * assembler) :=
  let asm := AssemblerObject (registry asm) (add_main_title main_title (ctx asm)) in
  parse_lines asm (splitlines text) title character spacer_lines image_map.

(** [save]: the images once more, then the page numbers and the file, which
    are the renderer's. *)
Definition save (asm : assembler) : list str * assembler :=
  let c := append_images fetch sha256 (ctx asm) in
  (skipped_lines c, AssemblerObject (registry asm) c).

(** The rules an assembler can hold: instances of the nine classes. *)
Inductive standard : rule context -> Prop :=
| standard_control e p : standard (new_ControlParser e p)
| standard_image e p : standard (new_ImageParser fetch sha256 e p)
| standard_decision e p : standard (new_DecisionParser e p)
| standard_predicate e p : standard (new_PredicateParser e p)
| standard_scene e p : standard (new_SceneParser e p)
| standard_subtitle e p : standard (new_SubtitleParser e p)
| standard_dialogue e p : standard (new_DialogueParser e p)
| standard_sound self : standard (sound_rule self)
| standard_narration e p : standard (new_NarrationParser e p).

End Fetch.

(** The state a stateful rule reads must be there when it is asked to parse. *)
Definition needs (p : rule context) (c : context) : Prop :=
  match class p with
  | ImageParser => is_Some (ImageParser_state c)
  | DecisionParser => is_Some (DecisionParser_state c)
  | _ => True
  end.

Definition ready (reg : list (rule context)) (c : context) : Prop :=
  Forall (fun p => enabled p = true → needs p c) reg.

(** What no rule undoes: the states that exist, and the skipped lines. *)
Record keeps (c c' : context) : Prop := Keeps {
  keeps_image : is_Some (ImageParser_state c) → is_Some (ImageParser_state c');
  keeps_decision : is_Some (DecisionParser_state c) → is_Some (DecisionParser_state c');
  keeps_skipped : skipped_lines c' = skipped_lines c
}.

(** Lines of the examples. *)
Definition decision_line : str := script "[Decision(options=`A;B`, values=`1;2`)]".
Definition predicate_line : str := script "[Predicate(references=`1`)]".
Definition image_line : str := script "[Image(image=`a`)]".

(** A network for the examples: two urls with the same content, every other
    url out of reach; and a stand-in for the hash, the content itself. *)
Definition example_fetch (url : str) : response :=
  if bool_decide (url = lit "u1") || bool_decide (url = lit "u2")
  then Fetched [Byte.x89; Byte.x50]
  else Failed (lit "404").

Definition example_sha256 (content : bytes) : str :=
  List.map (fun b => N.of_nat (Byte.to_nat b)) content.

Definition example_assembler : assembler :=
  new_assembler example_fetch example_sha256 DEFAULT_CONFIG.

(** The pending entries of the image rule are numbered from 1 in order. *)
Definition numbered (st : image_state) : Prop :=
  (images_to_append st).*1 = seq 1 (image_counter st).

(** A context to run the examples in: the one of a new assembler. *)
Definition fresh_context : context := Context [] None None ∅ 0 [] [] [] true false 2 true.

End Assembler.

(** ** The image section as python-docx writes it *)

Module Writer.
Import Py Render Base Images Rules.



Section Writing.
Variable fetch : str -> response.
Variable sha256 : bytes -> str.

(** What python-docx takes: [accepts text] when [add_run(text)] returns,
    [recognizes content] when [add_picture] reads the content as a picture.
    Either call raises otherwise. *)
Variable accepts : str -> bool.
Variable recognizes : bytes -> bool.

Definition written (e : entry) : bool :=
  match e with
  | ImageEntry _ image_stream _ => recognizes image_stream
  | ErrorEntry k url error => accepts (error_text k url error)
  end.

(** The loop over [output_entries], which is not inside a [try]: [None] when
    [add_picture] or [add_run] raises. *)
Fixpoint add_entries (entries : list entry) (d : document) : option document :=
  match entries with
  | [] => Some d
  | e :: entries =>
      if written e then add_entries entries (add_entry d e) else None
  end.

(** [append_images]; the texts of the references, of the heading and of the
    captions are fixed and written by every python-docx. *)
Definition append_images (c : context) : option context :=
  match asm_images_to_append c with
  | [] => Some c
  | _ :: _ =>
      let st := fetch_all fetch sha256 (asm_images_to_append c) in
      match output_entries st with
      | [] => Some c
      | _ :: _ =>
          let d := renumber (index_map st) (asm_image_reference_runs c) (doc c) in
          let d := d ++ [Para PageBreak []] in
          let d := d ++ [Para ImagesHeading [Text heading_text]] in
          match add_entries (output_entries st) d with
          | None => None
          | Some d => Some (with_doc d c)
          end
      end
  end.

(** [ImageParser.finalize] *)
Definition image_finalize (ctx : context) : option context :=
  match ImageParser_state ctx with
  | None => Some ctx
  | Some state =>
      match images_to_append state with
      | [] => Some ctx
      | _ :: _ =>
          let ctx := with_asm_images (image_counter state) (image_reference_runs state)
                       (images_to_append state) ctx in
          append_images ctx
      end
  end.

End Writing.


End Writer.

(** ** Notions of the specification, in its own words *)

Module Spec.
Import Py Render.

(** A reference list spans the full option set of a decision. *)
Definition spans (refs : list str) (options_map : gmap str str) : Prop :=
  ∀ v, v ∈ refs ↔ is_Some (options_map !! v).

(** A bare resource identifier: optionally [$]-prefixed, otherwise only
    letters, digits, [_], [-], [/] and [$]. *)
Definition bare_resource_id (text : str) : Prop :=
  text ≠ [] ∧ Forall (fun c => id_char c = true) text.

(** A character outside ASCII. *)
Definition non_ascii (c : N) : Prop := 127 < c.

(** A text rendered as a stage cue: one more paragraph, the text in angle
    brackets. *)
Definition rendered (doc : document) (text : str) : document * bool :=
  (doc ++ [Para SoundEffect [Text (lit "<" ++ text ++ lit ">")]], true).

End Spec.

(** ** Invariants of the document and of the image placeholders *)

Module Invariants.
Import Py Render Base Images Rules Assembler.

(** The paragraph behind a placeholder handle, with the number it shows. *)
Definition shows (d : document) (h n : nat) : Prop :=
  d !! h = Some (Para ImageReference [Text (image_reference_text n)]).

(** A handle is valid when it points at an image reference paragraph. *)
Definition placeholder_at (d : document) (h : nat) : Prop :=
  ∃ t, d !! h = Some (Para ImageReference [Text t]).

(** The image state of a call before [finalize]: entries and handles are
    numbered from 1, and every placeholder shows its local index. *)
Record placeholders (d : document) (st : image_state) : Prop := Placeholders {
  ph_pending : (images_to_append st).*1 = seq 1 (image_counter st);
  ph_keys : (image_reference_runs st).*1 = seq 1 (image_counter st);
  ph_handles : NoDup (image_reference_runs st).*2;
  ph_shows : ∀ k h, (k, h) ∈ image_reference_runs st → shows d h k
}.

(** The paragraphs that [append_images] adds after the text. *)
Definition image_section (st : progress) : document :=
  fold_left add_entry (output_entries st)
    [Para PageBreak []; Para ImagesHeading [Text heading_text]].

Section Fetch.
Variable fetch : str -> response.
Variable sha256 : bytes -> str.

(** The final index of a local index, as [index_map] has it. *)
Definition final_of (st : image_state) (k : nat) : option nat :=
  index_map (fetch_all fetch sha256 (images_to_append st)) !! k.

(** The image state of a call after [finalize]: every placeholder shows its
    final index, the assembler holds the queue and the handles of the rule,
    and the document ends with the image section. *)
Record finalized (c : context) (st : image_state) : Prop := Finalized {
  fin_state : ImageParser_state c = Some st;
  fin_pending : (images_to_append st).*1 = seq 1 (image_counter st);
  fin_keys : (image_reference_runs st).*1 = seq 1 (image_counter st);
  fin_handles : NoDup (image_reference_runs st).*2;
  fin_shows : ∀ k h, (k, h) ∈ image_reference_runs st →
              ∃ f, final_of st k = Some (S f) ∧ shows (doc c) h (S f);
  fin_asm : images_to_append st ≠ [] →
            asm_images_to_append c = images_to_append st
            ∧ asm_image_reference_runs c = image_reference_runs st
            ∧ ∃ body, doc c = body ++ image_section
                                 (fetch_all fetch sha256 (images_to_append st))
}.

(** Every local index has a final index, within the output entries. *)
Record index_inv (pre : list (nat * str)) (st : progress) : Prop := IndexInv {
  ix_counter : final_counter st = length (output_entries st);
  ix_range : ∀ l k, index_map st !! l = Some k →
             (1 <= k <= length (output_entries st))%nat;
  ix_hashes : ∀ h k, hash_to_final_index st !! h = Some k →
              (1 <= k <= length (output_entries st))%nat;
  ix_total : ∀ l, l ∈ pre.*1 → is_Some (index_map st !! l);
  ix_only : ∀ l, is_Some (index_map st !! l) → l ∈ pre.*1;
  ix_entries : (length (output_entries st) <= length pre)%nat;
  ix_numbered : ∀ i e, output_entries st !! i = Some e → final_index e = S i
}.

End Fetch.

(** The fields of the context that no rule writes. *)
Record same_settings (c c' : context) : Prop := SameSettings {
  same_image_map : image_map c' = image_map c;
  same_first_section : first_section c' = first_section c;
  same_has_main_title : has_main_title c' = has_main_title c;
  same_spacer_lines : spacer_lines c' = spacer_lines c;
  same_add_page_numbers : add_page_numbers c' = add_page_numbers c
}.

(** The copies of the image state that the assembler holds. *)
Record same_queue (c c' : context) : Prop := SameQueue {
  same_asm_counter : asm_image_counter c' = asm_image_counter c;
  same_asm_runs : asm_image_reference_runs c' = asm_image_reference_runs c;
  same_asm_pending : asm_images_to_append c' = asm_images_to_append c
}.

(** The paragraphs that the rules of the text write. *)
Definition text_kinds : list para_kind :=
  [SceneTitle; SceneTimestamp; Dialogue; Narration; PredicateHeader; SoundEffect].

Definition text_para (p : paragraph) : Prop := kind p ∈ text_kinds.

(** What [parse] of a rule other than the image rule does to a context:
    paragraphs of the text at the end, and the state of the decision rule. *)
Record text_step (c c' : context) : Prop := TextStep {
  ts_doc : ∃ more, doc c' = doc c ++ more ∧ Forall text_para more;
  ts_image : ImageParser_state c' = ImageParser_state c;
  ts_settings : same_settings c c';
  ts_queue : same_queue c c';
  ts_skipped : skipped_lines c' = skipped_lines c
}.

(** What [parse] of the image rule does on a known image: one placeholder
    at the end, under the next local index. *)
Definition image_step (c c' : context) : Prop :=
  ∃ st image_id url,
    ImageParser_state c = Some st
    ∧ image_map c !! image_id = Some url
    ∧ c' = with_image_state
             (Some (ImageState (S (image_counter st))
                      (dict_set (S (image_counter st)) (length (doc c))
                         (image_reference_runs st))
                      (images_to_append st ++ [(S (image_counter st), url)])))
             (with_doc (doc c ++ [Para ImageReference
                                    [Text (image_reference_text (S (image_counter st)))]])
                c).

(** The image state of a call under way. *)
Definition placed (c : context) : Prop :=
  ∃ st, ImageParser_state c = Some st ∧ placeholders (doc c) st.

(** An enabled image rule is registered. *)
Definition image_enabled (reg : list (rule context)) : Prop :=
  Exists (fun p => enabled p = true ∧ class p = ImageParser) reg.

(** The handles of the image state point at or after position [base]. *)
Definition handles_from (base : nat) (c : context) : Prop :=
  ∀ st, ImageParser_state c = Some st →
        Forall (fun kh => (base <= kh.2)%nat) (image_reference_runs st).

(** The first enabled rule that accepts a line. *)
Definition first_taker (reg : list (rule context)) (c : context) (line : str)
    : option (rule context) :=
  List.find (fun p => enabled p && can_parse p line c) reg.

(** The lines that [parse_lines] records: blank ones, those that no enabled
    rule accepts, and those whose first taker is the control rule. *)
Definition skipped_by (reg : list (rule context)) (c : context) (raw : str) : bool :=
  match strip raw with
  | [] => true
  | (_ :: _) as line =>
      match first_taker reg c line with
      | None => true
      | Some p => bool_decide (class p = ControlParser)
      end
  end.

(** A context without images: no image is known, none is queued. *)
Record imageless (c : context) : Prop := Imageless {
  il_map : image_map c = ∅;
  il_queue : asm_images_to_append c = [];
  il_state : ∀ st, ImageParser_state c = Some st → images_to_append st = []
}.

(** The document is [d] and then paragraphs of the text, and the context
    is without images. *)
Definition text_after (d : document) (c : context) : Prop :=
  imageless c ∧ ∃ body, doc c = d ++ body ∧ Forall text_para body.

(** The paragraphs that [parse_lines] writes before the lines: the spacer,
    unless the section is the first one, and the title. *)
Definition section_header (c : context) (title character : option str)
    (spacer : option Z) : document :=
  match title with
  | Some ((_ :: _) as title) =>
      (if first_section c then []
       else repeat (Para Blank []) (Z.to_nat (default (Base.spacer_lines c) spacer)))
      ++ [Para Title [Text (match character with
                            | Some ((_ :: _) as character) => character ++ title
                            | _ => title
                            end)]]
  | _ => []
  end.

(** What holds all along one call of [parse_lines], from the context [c0]
    it started the lines with: the document of [c0] stays, the handles of
    the call point after it, the settings stay. *)
Record call_inv (reg : list (rule context)) (c0 c : context) : Prop := CallInv {
  ci_prefix : doc c0 `prefix_of` doc c;
  ci_handles : image_enabled reg → handles_from (length (doc c0)) c;
  ci_settings : same_settings c0 c
}.

Global Instance para_kind_eq_dec : EqDecision para_kind.
Proof. solve_decision. Defined.

(** The main titles of a document. *)
Definition main_titles (d : document) : list paragraph :=
  List.filter (fun p => bool_decide (kind p = MainTitle)) d.

(** The flag [_has_main_title] tells whether the document has a main
    title, and it has one at most. *)
Definition titled (c : context) : Prop :=
  length (main_titles (doc c)) = if has_main_title c then 1%nat else 0%nat.

Section Queue.
Variable fetch : str -> response.
Variable sha256 : bytes -> str.

(** The queue that the assembler holds is the one of the last call with
    images, and the placeholders of that call show their final numbers. *)
Definition queue_final (c : context) : Prop :=
  asm_images_to_append c ≠ [] →
  ∀ k h, (k, h) ∈ asm_image_reference_runs c →
         ∃ f, index_map (fetch_all fetch sha256 (asm_images_to_append c)) !! k = Some (S f)
              ∧ shows (doc c) h (S f).

(** What [save] adds to the document. *)
Definition queue_section (c : context) : document :=
  match asm_images_to_append c with
  | [] => []
  | _ :: _ => image_section (fetch_all fetch sha256 (asm_images_to_append c))
  end.

(** What the loops of a call keep of the queue and of the main title. *)
Record kept (n : nat) (b : bool) (c : context) : Prop := Kept {
  kept_queue : queue_final c;
  kept_titles : length (main_titles (doc c)) = n;
  kept_flag : has_main_title c = b
}.

End Queue.

End Invariants.

(** ** Sessions: the calls on one [DocumentAssembler] *)

Module Session.
Import Py Render Base Images Rules Assembler.

(** The methods of [DocumentAssembler], with their arguments. *)
Inductive operation : Type :=
| ParseLines (lines : list str) (title character : option str)
    (spacer_lines : option Z) (image_map : option (gmap str str))
| ParseText (text : str) (title character : option str)
    (spacer_lines : option Z) (main_title : option str) (image_map : option (gmap str str))
| AddMainTitle (text : option str)
| AddTitle (title : str) (character : option str)
| AddBlankLines (n : Z)
| AddPageBreak
| AppendImages
| Save
| EnableParser (cls : parser_class)
| DisableParser (cls : parser_class).

Definition add_page_break (c : context) : context :=
  with_doc (doc c ++ [Para PageBreak []]) c.

(** What the order of the registry depends on. *)
Definition key (p : rule context) : parser_class * Z := (class p, priority p).

Definition on_context (f : context -> context) (asm : assembler) : assembler :=
  AssemblerObject (registry asm) (f (ctx asm)).

Section Fetch.
Variable fetch : str -> response.
Variable sha256 : bytes -> str.

(** One call; [None] when it raises. *)
Definition perform (asm : assembler) (op : operation) : option assembler :=
  match op with
  | ParseLines lines title character spacer_lines image_map =>
      snd <$> parse_lines asm lines title character spacer_lines image_map
  | ParseText text title character spacer_lines main_title image_map =>
      snd <$> parse_text asm text title character spacer_lines main_title image_map
  | AddMainTitle text => Some (on_context (add_main_title text) asm)
  | AddTitle title character => Some (on_context (add_title title character) asm)
  | AddBlankLines n => Some (on_context (add_blank_lines n) asm)
  | AddPageBreak => Some (on_context add_page_break asm)
  | AppendImages => Some (on_context (append_images fetch sha256) asm)
  | Save => Some (snd (save fetch sha256 asm))
  | EnableParser cls => Some (enable_parser asm cls)
  | DisableParser cls => Some (disable_parser asm cls)
  end.

Fixpoint perform_all (asm : assembler) (ops : list operation) : option assembler :=
  match ops with
  | [] => Some asm
  | op :: ops =>
      match perform asm op with
      | None => None
      | Some asm => perform_all asm ops
      end
  end.

(** The module-level [parse_lines] and [parse_text] of
    [parse_text_to_docx.py]: a new assembler with the default configuration,
    one call, and [save]; the result is the skipped lines of the call, with
    the document that is saved. *)
Definition parse_lines_to_file (lines : list str) : option (list str * document) :=
  let asm := new_assembler fetch sha256 DEFAULT_CONFIG in
  match parse_lines asm lines None None None None with
  | None => None
  | Some (skipped, asm) => Some (skipped, doc (ctx (snd (save fetch sha256 asm))))
  end.

Definition parse_text_to_file (text : str) : option (list str * document) :=
  parse_lines_to_file (splitlines text).

(** A session: an assembler made from a configuration, and calls on it. *)
Definition session (cfg : config) (ops : list operation) : option assembler :=
  perform_all (new_assembler fetch sha256 cfg) ops.

(** What holds of an assembler all along a session. *)
Record session_inv (asm : assembler) : Prop := SessionInv {
  si_standard : Forall (standard fetch sha256) (registry asm);
  si_queue : Invariants.queue_final fetch sha256 (ctx asm);
  si_titled : Invariants.titled (ctx asm)
}.

End Fetch.
End Session.

(** ** [memory_fetcher.py]: the documents of the memory exporter *)

Module Fetchers.
Import Py Render Base Images Rules Assembler.

(** [common.Story] *)
Record Story := { story_name : str; story_intro : str; origin_content : str }.

(** [enumerate(stories, start=1)] *)
Definition enumerate {A} (l : list A) : list (nat * A) := combine (seq 1 (length l)) l.

(** [getattr(s, 'name', None) or f"{name} #{idx}"] *)
Definition entry_title (name : str) (idx : nat) (s : Story) : str :=
  match story_name s with
  | [] => name ++ lit " #" ++ str_of_nat idx
  | _ :: _ => story_name s
  end.

(** [f"{name}：{title}"], with the full-width colon. *)
Definition full_title (name : str) (idx : nat) (s : Story) : str :=
  name ++ [65306] ++ entry_title name idx s.

(** [origin and origin.strip()] *)
Definition has_content (s : Story) : bool :=
  negb (bool_decide (origin_content s = []))
  && negb (bool_decide (strip (origin_content s) = [])).

(** The layout of an exported document: each section is its title and its
    text, with two blank paragraphs before every section but the first. *)
Fixpoint layout (first : bool) (sections : list (str * document)) : document :=
  match sections with
  | [] => []
  | (title, body) :: rest =>
      (if first then [] else [Para Blank []; Para Blank []])
      ++ [Para Title [Text title]] ++ body ++ layout false rest
  end.

Section Client.
Variable fetch : str -> response.
Variable sha256 : bytes -> str.
(** [PRTSClient.get_story_content_by_name] *)
Variable get_story_content_by_name : str -> list Story.

(** One turn of the loop over the stories: the assembler and the count of
    the stories included; [None] when [parse_text] raises. *)
Definition add_story (title : nat -> Story -> str)
    (st : option (assembler * nat)) (entry : nat * Story) : option (assembler * nat) :=
  match st with
  | None => None
  | Some (asm, included) =>
      let '(idx, s) := entry in
      if has_content s then
        match parse_text asm (origin_content s) (Some (title idx s)) None None None None with
        | None => None
        | Some (_, asm) => Some (asm, S included)
        end
      else Some (asm, included)
  end.

(** The result: the count, and the document that is saved, if one is. *)
Definition save_per_character (name : str) : option (nat * option document) :=
  match get_story_content_by_name name with
  | [] => Some (0%nat, None)
  | (_ :: _) as stories =>
      let asm := new_assembler fetch sha256 DEFAULT_CONFIG in
      match fold_left (add_story (entry_title name)) (enumerate stories) (Some (asm, 0%nat)) with
      | None => None
      | Some (asm, included) =>
          if (0 <? included)%nat
          then Some (included, Some (doc (ctx (snd (save fetch sha256 asm)))))
          else Some (included, None)
      end
  end.

Definition save_combined (names : list str) : option (nat * option document) :=
  let asm := new_assembler fetch sha256 DEFAULT_CONFIG in
  let step (st : option (assembler * nat)) (name : str) :=
    match get_story_content_by_name name with
    | [] => st
    | (_ :: _) as stories => fold_left (add_story (full_title name)) (enumerate stories) st
    end in
  match fold_left step names (Some (asm, 0%nat)) with
  | None => None
  | Some (asm, total_included) =>
      if (total_included =? 0)%nat then Some (0%nat, None)
      else Some (total_included, Some (doc (ctx (snd (save fetch sha256 asm)))))
  end.

(** The titles of the stories that have content, in order. *)
Definition included_titles (title : nat -> Story -> str) (stories : list Story) : list str :=
  (fun entry => title entry.1 entry.2)
    <$> List.filter (fun entry => has_content entry.2) (enumerate stories).

Definition combined_titles (names : list str) : list str :=
  concat ((fun name => included_titles (full_title name) (get_story_content_by_name name))
            <$> names).

(** What holds of the assembler between two stories: it has written the
    sections so far, and nothing else. *)
Record exporting (asm : assembler) (sections : list (str * document)) : Prop := Exporting {
  ex_standard : Forall (standard fetch sha256) (registry asm);
  ex_imageless : Invariants.imageless (ctx asm);
  ex_spacer : Base.spacer_lines (ctx asm) = 2%Z;
  ex_first : first_section (ctx asm) = bool_decide (sections = []);
  ex_main : has_main_title (ctx asm) = false;
  ex_doc : doc (ctx asm) = layout true sections;
  ex_text : Forall (fun section => Forall Invariants.text_para section.2) sections
}.

End Client.
End Fetchers.

(** ** The registry as a list of objects *)

Module Objects.
Import Py Base.

(** A class that [unregister], [get_parser], [enable_parser] and
    [disable_parser] can be given: one of the nine rule classes or one of
    their two bases. *)
Inductive class_ref : Type :=
| LineParser
| StatefulParser
| Class (cls : parser_class).

(** The rule classes that derive from [StatefulParser]. *)
Definition stateful (cls : parser_class) : bool :=
  match cls with
  | ImageParser | DecisionParser | PredicateParser => true
  | _ => false
  end.

Section WithContext.
Context {C : Type}.

Definition isinstance (p : rule C) (ref : class_ref) : bool :=
  match ref with
  | LineParser => true
  | StatefulParser => stateful (class p)
  | Class cls => bool_decide (class p = cls)
  end.

(** [self.parsers] holds references: the same object can stand at several
    places of the list, and its attributes are in the object. *)
Record registry := Registry {
  parsers : list nat;
  object : nat -> rule C
}.

(** The rules in registry order, as [parse_line] meets them. *)
Definition rules (r : registry) : list (rule C) := object r <$> parsers r.

Fixpoint insert_by_priority (object : nat -> rule C) (p : nat) (l : list nat)
    : list nat :=
  match l with
  | [] => [p]
  | q :: l' =>
      if (priority (object p) <=? priority (object q))%Z then p :: l
      else q :: insert_by_priority object p l'
  end.

Definition register (r : registry) (parser : nat) : registry :=
  Registry (foldr (insert_by_priority (object r)) [] (parsers r ++ [parser])) (object r).

Definition unregister (r : registry) (ref : class_ref) : registry :=
  Registry (List.filter (fun p => negb (isinstance (object r p) ref)) (parsers r))
    (object r).

Definition get_parser (r : registry) (ref : class_ref) : option nat :=
  List.find (fun p => isinstance (object r p) ref) (parsers r).

Definition set_flag (b : bool) (r : registry) (ref : class_ref) : registry :=
  match get_parser r ref with
  | Some parser => Registry (parsers r) (<[parser := set_enabled b (object r parser)]> (object r))
  | None => r
  end.

Definition enable_parser (r : registry) (ref : class_ref) : registry :=
  set_flag true r ref.

Definition disable_parser (r : registry) (ref : class_ref) : registry :=
  set_flag false r ref.

End WithContext.

Arguments registry : clear implicits.

End Objects.

(** ** [common.py]: the names given on the command line and in a file *)

Module Common.
Import Py.

(** One turn of the loop of [_normalize_names], on the set [seen] and the
    list [normalized]. *)
Definition normalize_step (st : gset str * list str) (raw : str) : gset str * list str :=
  let cleaned := strip raw in
  if bool_decide (cleaned = []) || bool_decide (cleaned ∈ st.1) then st
  else ({[cleaned]} ∪ st.1, st.2 ++ [cleaned]).

(** [names or []]: no names at all is [None]. *)
Definition _normalize_names (names : option (list str)) : list str :=
  snd (fold_left normalize_step (default [] names) (∅, [])).

(** What [open] and [file.readlines()] give for a path: the lines, an
    [OSError], or another exception; bytes that are not UTF-8 raise
    [UnicodeDecodeError], which is no [OSError]. *)
Inductive reading (E : Type) : Type :=
| Lines (lines : list str)
| OSError
| Raises (exc : E).

Arguments Lines {E}.
Arguments OSError {E}.
Arguments Raises {E}.

(** What a call raises: the [RuntimeError] that [read_names_from_file] makes
    of an [OSError], the [ValueError] of [load_names], or the exception of
    the reading that no handler catches. *)
Inductive error (E : Type) : Type :=
| RuntimeError
| ValueError
| Uncaught (exc : E).

Arguments RuntimeError {E}.
Arguments ValueError {E}.
Arguments Uncaught {E}.

Section Files.
Context {E : Type}.
Variable readlines : str -> reading E.

Definition read_names_from_file (path : str) : error E + list str :=
  match readlines path with
  | Lines lines => inr (_normalize_names (Some lines))
  | OSError => inl RuntimeError
  | Raises exc => inl (Uncaught exc)
  end.

Definition load_names (cli_names : option (list str)) (names_file : option str)
    : error E + list str :=
  let from_file :=
    match names_file with
    | Some ((_ :: _) as path) => read_names_from_file path
    | _ => inr []
    end in
  match from_file with
  | inl e => inl e
  | inr collected =>
      match collected ++ _normalize_names cli_names with
      | [] => inl ValueError
      | (_ :: _) as collected => inr collected
      end
  end.

End Files.

(** A name as the loops keep it: stripped and not empty. *)
Definition clean (name : str) : Prop := name ≠ [] ∧ strip name = name.

(** The stripped names that are not empty, each at its first occurrence. *)
Definition first_occurrences (names : list str) : list str :=
  rev (remove_dups (rev (List.filter (fun x => negb (bool_decide (x = []))) (strip <$> names)))).

End Common.

(** ** Shapes of lines *)

Module Shapes.
Import Py Re.

(** The matcher state after a run of characters. *)
Definition pushes (body : str) (st : mstate) : mstate :=
  fold_left (fun st c => push c st) body st.

(** No character of [cs] occurs in [s]. *)
Definition without (cs : str) (s : str) : Prop := Forall (fun c => mem c cs = false) s.

(** A narration line: a text between two double quotes, on one line,
    possibly with a final newline. *)
Definition quoted_line (line : str) : Prop :=
  ∃ body, body ≠ [] ∧ without [10] body
          ∧ (line = [34] ++ body ++ [34] ∨ line = [34] ++ body ++ [34; 10]).

End Shapes.

(** ** [config/loader.py]: [ParserConfig] *)

Module Config.
Import Py.

(** The values of a configuration: what JSON and YAML give. *)
#[warnings="-register-all"] Inductive value : Type :=
| VNone
| VBool (b : bool)
| VInt (z : Z)
| VFloat (mantissa exponent : Z)
| VStr (s : str)
| VList (items : list value)
| VDict (entries : list (str * value)).

(** A dict, in insertion order. *)
Abbreviation dict := (list (str * value)).

(** [d.get(k)] and [d[k] = v]. *)
Fixpoint dict_get (k : str) (d : dict) : option value :=
  match d with
  | [] => None
  | (k', v) :: d' => if bool_decide (k' = k) then Some v else dict_get k d'
  end.

Fixpoint dict_put (k : str) (v : value) (d : dict) : dict :=
  match d with
  | [] => [(k, v)]
  | (k', v') :: d' =>
      if bool_decide (k' = k) then (k, v) :: d' else (k', v') :: dict_put k v d'
  end.

(** What [_merge_configs] stores under a key: the merge of the two values
    when both are dicts, and the overriding value otherwise. *)
Definition merged_entry (merge : dict -> value -> dict) (old : option value)
    (new : value) : value :=
  match old, new with
  | Some (VDict b), VDict _ => VDict (merge b new)
  | _, _ => new
  end.

(** [_merge_configs], on the overriding dict as a value, so that the
    recursion is structural. *)
Fixpoint merge_value (base : dict) (override : value) {struct override} : dict :=
  match override with
  | VDict o =>
      (fix loop (result : dict) (o : dict) {struct o} : dict :=
         match o with
         | [] => result
         | (key, new) :: rest =>
             let merged :=
               match dict_get key result, new with
               | Some (VDict b), VDict _ => VDict (merge_value b new)
               | _, _ => new
               end in
             loop (dict_put key merged result) rest
         end) base o
  | _ => base
  end.

Definition _merge_configs (base override : dict) : dict :=
  merge_value base (VDict override).

(** The loop of [get] over the keys of the path. *)
Fixpoint get_keys (keys : list str) (current default : value) : value :=
  match keys with
  | [] => current
  | key :: keys =>
      match current with
      | VDict d =>
          match dict_get key d with
          | None | Some VNone => default
          | Some v => get_keys keys v default
          end
      | _ => default
      end
  end.

Definition get (config : dict) (path : str) (default : value) : value :=
  get_keys (split 46 path) (VDict config) default.

End Config.

(** * Properties *)

(** ** The registry *)

Module RegistryFacts.
Import Py Base Registry.

Section WithContext.
Context {C : Type}.
Implicit Types (p q : rule C) (l parsers rules : list (rule C)).

Lemma insert_same_priority k p l :
  filter (same_priority k) (insert_by_priority p l)
  = filter (same_priority k) (p :: l).
Proof.
  induction l as [|q l IH]; simpl; [done|].
  destruct (Z.leb_spec (priority p) (priority q)) as [Hle|Hlt]; [done|].
  rewrite filter_cons, IH, !filter_cons.
  unfold same_priority.
  destruct (decide (priority q = k)), (decide (priority p = k)); try done; lia.
Qed.

Lemma sort_same_priority k l :
  filter (same_priority k) (sort_by_priority l) = filter (same_priority k) l.
Proof.
  induction l as [|p l IH]; simpl; [done|].
  rewrite insert_same_priority, !filter_cons, IH. done.
Qed.

Lemma insert_elem p q l : q ∈ insert_by_priority p l ↔ q = p ∨ q ∈ l.
Proof.
  induction l as [|r l IH]; simpl.
  - rewrite list_elem_of_singleton, elem_of_nil. tauto.
  - destruct (priority p <=? priority r)%Z.
    + by rewrite elem_of_cons.
    + rewrite !elem_of_cons, IH. tauto.
Qed.

Lemma insert_sorted p l :
  StronglySorted by_priority l → StronglySorted by_priority (insert_by_priority p l).
Proof.
  induction 1 as [|q l Hs IH Hq]; simpl.
  - apply SSorted_cons; [apply SSorted_nil|apply Forall_nil_2].
  - destruct (Z.leb_spec (priority p) (priority q)) as [Hle|Hlt].
    + apply SSorted_cons; [by apply SSorted_cons|].
      apply Forall_cons; split; [done|].
      eapply Forall_impl; [exact Hq|]. unfold by_priority. intros; lia.
    + apply SSorted_cons; [done|].
      apply Forall_forall. intros r Hr.
      apply insert_elem in Hr as [->|Hr]; [unfold by_priority; lia|].
      rewrite Forall_forall in Hq. by apply Hq.
Qed.

Lemma sort_sorted l : StronglySorted by_priority (sort_by_priority l).
Proof. induction l; simpl; [apply SSorted_nil|by apply insert_sorted]. Qed.

(** The registry after registering [rules] one by one. *)
Lemma registered_snoc rules p :
  fold_left register (rules ++ [p]) [] = register (fold_left register rules []) p.
Proof. by rewrite fold_left_app. Qed.

Lemma registered_sorted rules :
  StronglySorted by_priority (fold_left register rules []).
Proof.
  destruct rules as [|p rules _] using rev_ind; [apply SSorted_nil|].
  rewrite registered_snoc. apply sort_sorted.
Qed.

Lemma registered_stable k rules :
  filter (same_priority k) (fold_left register rules [])
  = filter (same_priority k) rules.
Proof.
  induction rules as [|p rules IH] using rev_ind; [done|].
  rewrite registered_snoc. unfold register at 1.
  by rewrite sort_same_priority, !filter_app, IH.
Qed.

(** The loop, when a rule accepts the line and when none does. *)
Lemma dispatch_first pre p post line ctx :
  enabled p = true → can_parse p line ctx = true →
  (∀ q, q ∈ pre → enabled q = true → can_parse q line ctx = false) →
  dispatch (pre ++ p :: post) line ctx
  = (List.map CanParse (List.filter enabled pre) ++ [CanParse p; Parse p], parse p line ctx).
Proof.
  intros He Hc. induction pre as [|q pre IH]; intros Hpre; simpl.
  - by rewrite He, Hc.
  - destruct (enabled q) eqn:Hq; simpl.
    + rewrite (Hpre q), IH; [done| |apply list_elem_of_here|done].
      intros r Hr. apply Hpre. by apply list_elem_of_further.
    + apply IH. intros r Hr. apply Hpre. by apply list_elem_of_further.
Qed.

Lemma dispatch_none parsers line ctx :
  (∀ q, q ∈ parsers → enabled q = true → can_parse q line ctx = false) →
  dispatch parsers line ctx
  = (List.map CanParse (List.filter enabled parsers), Some (false, ctx)).
Proof.
  induction parsers as [|q l IH]; intros Hall; simpl; [done|].
  destruct (enabled q) eqn:Hq; simpl.
  - rewrite (Hall q), IH; [done| |apply list_elem_of_here|done].
    intros r Hr. apply Hall. by apply list_elem_of_further.
  - apply IH. intros r Hr. apply Hall. by apply list_elem_of_further.
Qed.

Lemma parse_line_blank parsers line ctx :
  strip line = [] → parse_line_calls parsers line ctx = ([], Some (false, ctx)).
Proof. unfold parse_line_calls. by intros ->. Qed.

Lemma parse_line_dispatch parsers line ctx :
  strip line ≠ [] →
  parse_line_calls parsers line ctx = dispatch parsers (strip line) ctx.
Proof. unfold parse_line_calls. by destruct (strip line). Qed.

(** C3. [parse_line] strips the line and reports a line that is then empty
    as unhandled without a call to any rule.  Otherwise the enabled rules are
    asked in the order of the registry, which is ascending priority with
    registration order among equal priorities ([register] appends and sorts
    stably); only enabled rules are called; the first rule that accepts the
    line gets [parse], and the result of that [parse] is the result of
    [parse_line], with no call after it. *)
Theorem parse_line_priority_dispatch (rules : list (rule C)) (line : str) (ctx : C) :
  let parsers := fold_left register rules [] in
  StronglySorted by_priority parsers
  ∧ (∀ k, filter (same_priority k) parsers = filter (same_priority k) rules)
  ∧ (strip line = [] →
       parse_line_calls parsers line ctx = ([], Some (false, ctx)))
  ∧ (strip line ≠ [] →
       Forall (fun c => enabled (callee c) = true) (parse_line_calls parsers line ctx).1
       ∧ (∀ pre p post,
            parsers = pre ++ p :: post →
            enabled p = true → can_parse p (strip line) ctx = true →
            (∀ q, q ∈ pre → enabled q = true → can_parse q (strip line) ctx = false) →
            parse_line_calls parsers line ctx
            = (List.map CanParse (List.filter enabled pre) ++ [CanParse p; Parse p],
               parse p (strip line) ctx))
       ∧ ((∀ q, q ∈ parsers → enabled q = true → can_parse q (strip line) ctx = false) →
            parse_line_calls parsers line ctx
            = (List.map CanParse (List.filter enabled parsers), Some (false, ctx)))).
Proof.
  intros parsers. split; [apply registered_sorted|].
  split; [intros k; apply registered_stable|].
  split; [apply parse_line_blank|].
  intros Hne. rewrite parse_line_dispatch by done.
  split; [|split].
  - generalize parsers. intros l. induction l as [|q l IH]; simpl; [constructor|].
    destruct (enabled q) eqn:Hq; simpl; [|done].
    destruct (can_parse q (strip line) ctx).
    + repeat constructor; done.
    + destruct (dispatch l (strip line) ctx) as [calls r]. by constructor.
  - intros pre p post -> He Hc Hpre. by apply dispatch_first.
  - apply dispatch_none.
Qed.

End WithContext.
End RegistryFacts.

(** ** The image finalize step *)

Module ImagesFacts.
Import Py Render Base Images.

Section Fetch.
Variable fetch : str -> response.
Variable sha256 : bytes -> str.

Abbreviation fetch_one := (fetch_one fetch sha256).
Abbreviation fetch_all := (fetch_all fetch sha256).
Abbreviation loop_inv := (loop_inv fetch sha256).

Implicit Types (st : progress) (pending pre post : list (nat * str)).

Lemma extends_refl st : extends st st.
Proof. by split. Qed.

Lemma extends_trans st1 st2 st3 : extends st1 st2 → extends st2 st3 → extends st1 st3.
Proof.
  intros [E1 H1] [E2 H2]. split; [by etrans|]. intros h k ?. by apply H2, H1.
Qed.

Lemma fetch_one_extends st item : extends st (fetch_one st item).
Proof.
  destruct item as [l u]. unfold Images.fetch_one.
  destruct (fetch u) as [c|e]; [destruct (hash_to_final_index st !! sha256 c) eqn:Hh|];
    split; simpl; try done; try by apply prefix_app_r.
  intros h k Hk. rewrite lookup_insert_ne; [done|]. intros <-. congruence.
Qed.

Lemma fetch_one_other st l u l' :
  l' ≠ l → index_map (fetch_one st (l, u)) !! l' = index_map st !! l'.
Proof.
  intros Hne. unfold Images.fetch_one.
  destruct (fetch u) as [c|e]; [destruct (hash_to_final_index st !! sha256 c)|];
    simpl; by rewrite lookup_insert_ne.
Qed.

Lemma fold_extends post st : extends st (fold_left fetch_one post st).
Proof.
  revert st. induction post as [|item post IH]; intros st; simpl.
  - apply extends_refl.
  - eapply extends_trans; [apply fetch_one_extends|apply IH].
Qed.

Lemma fold_other post st l' :
  l' ∉ post.*1 → index_map (fold_left fetch_one post st) !! l' = index_map st !! l'.
Proof.
  revert st. induction post as [|[l u] post IH]; intros st Hl; simpl; [done|].
  rewrite fmap_cons, not_elem_of_cons in Hl. destruct Hl as [Hne Hl].
  rewrite IH by done. by apply fetch_one_other.
Qed.

Lemma fetch_all_app pre post :
  fetch_all (pre ++ post) = fold_left fetch_one post (fetch_all pre).
Proof. unfold Images.fetch_all. apply fold_left_app. Qed.

Lemma loop_inv_start : loop_inv [] start.
Proof.
  split; simpl; try done.
  - intros h k. rewrite lookup_empty. split; [done|]. by intros (c & u & ? & _).
  - intros l u c Hin. by apply elem_of_nil in Hin.
Qed.

Lemma snoc_lookup {A} (l : list A) (x y : A) i :
  (l ++ [x]) !! i = Some y ↔ l !! i = Some y ∨ (i = length l ∧ y = x).
Proof.
  rewrite lookup_snoc_Some. split.
  - intros [[_ ?]|[? ?]]; [by left|by right].
  - intros [H|[? ?]]; [left|by right]. split; [by eapply lookup_lt_Some|done].
Qed.

Lemma loop_inv_step pre st l u :
  loop_inv pre st → loop_inv (pre ++ [(l, u)]) (fetch_one st (l, u)).
Proof.
  intros [Hc Hn Hh Hi Hf]. unfold Images.fetch_one.
  destruct (fetch u) as [c|e] eqn:Hu;
    [destruct (hash_to_final_index st !! sha256 c) as [k0|] eqn:Hk0|].
  - (* a known hash *)
    split; simpl; [done|done|done| |].
    + intros i k c' u' Hlk. destruct (Hi i k c' u' Hlk) as (? & l' & ? & ?).
      split; [done|]. exists l'. split; [|done]. apply elem_of_app. by left.
    + intros l' u' c' Hin Hu'. apply elem_of_app in Hin as [Hin|Hin]; [by eapply Hf|].
      apply list_elem_of_singleton in Hin. injection Hin as -> ->.
      rewrite Hu in Hu'. injection Hu' as <-. by rewrite Hk0.
  - (* a new hash *)
    split; simpl.
    + rewrite length_app. simpl. lia.
    + intros i e' Hlk. apply snoc_lookup in Hlk as [Hlk|[-> ->]]; [by apply Hn|].
      simpl. lia.
    + intros h k. rewrite lookup_insert. case_decide as Hd.
      * subst h. split.
        -- intros [= <-]. exists c, u. rewrite Hc. simpl. rewrite Nat.sub_0_r.
           split; [|done]. apply snoc_lookup. by right.
        -- intros (c' & u' & Hlk & Hs). apply snoc_lookup in Hlk as [Hlk|[Hk He]].
           ++ destruct (Hi _ _ _ _ Hlk) as [Hm _]. congruence.
           ++ by simplify_eq.
      * rewrite Hh. split; intros (c' & u' & Hlk & Hs); exists c', u'; (split; [|done]).
        -- apply snoc_lookup. by left.
        -- apply snoc_lookup in Hlk as [Hlk|[Hk He]]; [done|]. by simplify_eq.
    + intros i k c' u' Hlk. apply snoc_lookup in Hlk as [Hlk|[-> He]].
      * destruct (Hi i k c' u' Hlk) as (Hm & l' & ? & ?). split.
        -- rewrite lookup_insert_ne; [done|]. congruence.
        -- exists l'. split; [|done]. apply elem_of_app. by left.
      * simplify_eq. split; [by rewrite lookup_insert_eq|].
        exists l. split; [|done]. apply elem_of_app. right. apply list_elem_of_here.
    + intros l' u' c' Hin Hu'. rewrite lookup_insert. case_decide; [by eexists|].
      apply elem_of_app in Hin as [Hin|Hin]; [by eapply Hf|].
      apply list_elem_of_singleton in Hin. injection Hin as -> ->. congruence.
  - (* a failure *)
    split; simpl.
    + rewrite length_app. simpl. lia.
    + intros i e' Hlk. apply snoc_lookup in Hlk as [Hlk|[-> ->]]; [by apply Hn|].
      simpl. lia.
    + intros h k. rewrite Hh. split; intros (c' & u' & Hlk & Hs); exists c', u'; (split; [|done]).
      * apply snoc_lookup. by left.
      * apply snoc_lookup in Hlk as [Hlk|[Hk He]]; [done|]. by simplify_eq.
    + intros i k c' u' Hlk. apply snoc_lookup in Hlk as [Hlk|[-> He]]; [|done].
      destruct (Hi i k c' u' Hlk) as (Hm & l' & ? & ?). split; [done|].
      exists l'. split; [|done]. apply elem_of_app. by left.
    + intros l' u' c' Hin Hu'. apply elem_of_app in Hin as [Hin|Hin]; [by eapply Hf|].
      apply list_elem_of_singleton in Hin. injection Hin as -> ->. congruence.
Qed.

Lemma loop_inv_fold pre post st :
  loop_inv pre st → loop_inv (pre ++ post) (fold_left fetch_one post st).
Proof.
  revert pre st. induction post as [|[l u] post IH]; intros pre st Hinv; simpl.
  - by rewrite app_nil_r.
  - rewrite (assoc_L _ pre [(l, u)] post : pre ++ (l, u) :: post = (pre ++ [(l, u)]) ++ post).
    apply IH. by apply loop_inv_step.
Qed.

Lemma loop_inv_all pending : loop_inv pending (fetch_all pending).
Proof. apply (loop_inv_fold [] pending start), loop_inv_start. Qed.

(** The entry at [l] after the whole loop is the one set in its own turn. *)
Lemma index_of_turn pre l u post :
  NoDup (pre ++ (l, u) :: post).*1 →
  index_map (fetch_all (pre ++ (l, u) :: post)) !! l
  = index_map (fetch_one (fetch_all pre) (l, u)) !! l.
Proof.
  intros Hnd. rewrite fetch_all_app. simpl. apply fold_other.
  rewrite fmap_app, fmap_cons in Hnd. apply NoDup_app in Hnd as (_ & _ & Hnd).
  by apply NoDup_cons in Hnd as [? _].
Qed.

Lemma turn_extends pre l u post :
  extends (fetch_one (fetch_all pre) (l, u)) (fetch_all (pre ++ (l, u) :: post)).
Proof. rewrite fetch_all_app. simpl. apply fold_extends. Qed.

(** A fetched entry gets the index recorded for its hash. *)
Lemma fetched_index pending l u c :
  NoDup pending.*1 → (l, u) ∈ pending → fetch u = Fetched c →
  ∃ k, index_map (fetch_all pending) !! l = Some k
       ∧ hash_to_final_index (fetch_all pending) !! sha256 c = Some k.
Proof.
  intros Hnd Hin Hu. apply list_elem_of_split in Hin as (pre & post & ->).
  rewrite index_of_turn by done.
  pose proof (turn_extends pre l u post) as [_ Hext].
  revert Hext. generalize (fetch_all (pre ++ (l, u) :: post)). intros st' Hext.
  unfold Images.fetch_one. rewrite Hu.
  destruct (hash_to_final_index (fetch_all pre) !! sha256 c) as [k0|] eqn:Hk0; simpl.
  - exists k0. rewrite lookup_insert_eq. split; [done|]. apply Hext.
    unfold Images.fetch_one. by rewrite Hu, Hk0.
  - eexists. rewrite lookup_insert_eq. split; [done|]. apply Hext.
    unfold Images.fetch_one. rewrite Hu, Hk0. simpl. by rewrite lookup_insert_eq.
Qed.

(** A hash first seen at [(l, u)] is new to the loop at that turn. *)
Lemma first_seen_is_new pre (c : bytes) :
  (∀ l' u' c', (l', u') ∈ pre → fetch u' = Fetched c' → sha256 c' ≠ sha256 c) →
  hash_to_final_index (fetch_all pre) !! sha256 c = None.
Proof.
  intros Hfirst. destruct (hash_to_final_index _ !! _) as [k|] eqn:Hk; [|done].
  destruct (loop_inv_all pre) as [_ _ Hh Hi _].
  apply Hh in Hk as (c' & u' & Hlk & Hs).
  destruct (Hi _ _ _ _ Hlk) as (_ & l' & Hin & Hu'). by destruct (Hfirst l' u' c').
Qed.

(** A turn that does not find the hash, and a turn whose fetch fails, append
    one entry with the next index. *)
Lemma new_entry_turn pre l u post e :
  NoDup (pre ++ (l, u) :: post).*1 →
  output_entries (fetch_one (fetch_all pre) (l, u))
  = output_entries (fetch_all pre) ++ [e] →
  final_index e = S (length (output_entries (fetch_all pre))) →
  index_map (fetch_one (fetch_all pre) (l, u)) !! l = Some (final_index e) →
  let st := fetch_all (pre ++ (l, u) :: post) in
  index_map st !! l = Some (final_index e)
  ∧ output_entries st !! length (output_entries (fetch_all pre)) = Some e.
Proof.
  intros Hnd Hout Hk Hidx st. split.
  - unfold st. by rewrite index_of_turn.
  - pose proof (turn_extends pre l u post) as [Hext _].
    eapply prefix_lookup_Some; [|exact Hext]. rewrite Hout.
    apply snoc_lookup. by right.
Qed.

(** C5. The pending entries are taken in their original order; two entries
    whose fetched contents have the same hash get the same final index; the
    first entry with a given hash is the canonical one: its content and url
    are stored, once, under the next sequential final index. *)
Theorem dedup_by_content_hash (pending : list (nat * str)) :
  NoDup pending.*1 →
  let st := fetch_all pending in
  (∀ i e, output_entries st !! i = Some e → final_index e = S i)
  ∧ (∀ pre post, pending = pre ++ post →
       st = fold_left fetch_one post (fetch_all pre)
       ∧ output_entries (fetch_all pre) `prefix_of` output_entries st)
  ∧ (∀ l1 u1 c1 l2 u2 c2,
       (l1, u1) ∈ pending → (l2, u2) ∈ pending →
       fetch u1 = Fetched c1 → fetch u2 = Fetched c2 → sha256 c1 = sha256 c2 →
       ∃ k, index_map st !! l1 = Some k ∧ index_map st !! l2 = Some k)
  ∧ (∀ pre l u post c,
       pending = pre ++ (l, u) :: post → fetch u = Fetched c →
       (∀ l' u' c', (l', u') ∈ pre → fetch u' = Fetched c' → sha256 c' ≠ sha256 c) →
       let n := length (output_entries (fetch_all pre)) in
       index_map st !! l = Some (S n)
       ∧ output_entries st !! n = Some (ImageEntry (S n) c u)
       ∧ (∀ i k' c' u', output_entries st !! i = Some (ImageEntry k' c' u') →
            sha256 c' = sha256 c → i = n)).
Proof.
  intros Hnd st. pose proof (loop_inv_all pending) as Hinv. fold st in Hinv.
  split; [apply Hinv|]. split; [|split].
  - intros pre post ->. unfold st. rewrite fetch_all_app. split; [done|].
    apply fold_extends.
  - intros l1 u1 c1 l2 u2 c2 Hin1 Hin2 Hu1 Hu2 Hs.
    destruct (fetched_index pending l1 u1 c1) as (k1 & Hi1 & Hh1); [done..|].
    destruct (fetched_index pending l2 u2 c2) as (k2 & Hi2 & Hh2); [done..|].
    exists k1. split; [done|]. rewrite Hs, Hh2 in Hh1.
    injection Hh1 as <-. exact Hi2.
  - intros pre l u post c -> Hu Hfirst n.
    pose proof (first_seen_is_new pre c Hfirst) as Hnew.
    pose proof (inv_counter _ _ _ _ (loop_inv_all pre)) as Hc.
    destruct (new_entry_turn pre l u post (ImageEntry (S n) c u)) as [Hi Ho];
      [done| | done | | ].
    + unfold Images.fetch_one. rewrite Hu, Hnew. simpl. by rewrite Hc.
    + unfold Images.fetch_one. rewrite Hu, Hnew. simpl. by rewrite lookup_insert_eq, Hc.
    + split; [done|]. split; [done|].
      intros i k' c' u' Hlk Hs.
      destruct (inv_images _ _ _ _ Hinv _ _ _ _ Hlk) as [Hk' _].
      destruct (inv_images _ _ _ _ Hinv _ _ _ _ Ho) as [Hk _].
      pose proof (inv_numbered _ _ _ _ Hinv _ _ Hlk) as Hn. simpl in Hn.
      rewrite Hs, Hk in Hk'. injection Hk' as <-. lia.
Qed.


End Fetch.
End ImagesFacts.

(** ** Strings and patterns *)

Module PyFacts.
Import Py.

Lemma startswith_spec s p : startswith s p = true ↔ ∃ t, s = p ++ t.
Proof.
  revert s. induction p as [|a p IH]; intros s; simpl.
  - split; [by exists s|by destruct s].
  - destruct s as [|b s]; simpl.
    + split; [done|]. by intros [t ?].
    + rewrite andb_true_iff, N.eqb_eq, IH. split.
      * intros [-> [t ->]]. by exists t.
      * intros [t [= -> ->]]. split; [done|]. by exists t.
Qed.

Lemma endswith_spec s p : endswith s p = true ↔ ∃ t, s = t ++ p.
Proof.
  unfold endswith. rewrite startswith_spec. split.
  - intros [t Ht]. exists (rev t).
    rewrite <- (rev_involutive s), Ht, rev_app_distr. by rewrite rev_involutive.
  - intros [t ->]. exists (rev t). by rewrite rev_app_distr.
Qed.

Lemma contains_spec sub s : contains sub s = true ↔ ∃ pre post, s = pre ++ sub ++ post.
Proof.
  induction s as [|c s IH].
  - cbn [contains]. rewrite orb_false_r, startswith_spec. split.
    + intros [t Ht]. by exists [], t.
    + intros (pre & post & Hs). destruct pre; [by exists post|done].
  - cbn [contains]. rewrite orb_true_iff, startswith_spec, IH. split.
    + intros [[t Ht]|(pre & post & ->)]; [by exists [], t|by exists (c :: pre), post].
    + intros (pre & post & Hs). destruct pre as [|d pre]; [left; by exists post|].
      right. injection Hs as -> ->. by exists pre, post.
Qed.

Lemma lstrip_by_spec f s :
  ∃ t, s = t ++ lstrip_by f s ∧ Forall (fun c => f c = true) t.
Proof.
  induction s as [|c s (t & Hs & Ht)]; simpl; [by exists []|].
  destruct (f c) eqn:Hc; [|by exists []].
  exists (c :: t). split; [by rewrite Hs at 1|by constructor].
Qed.

Lemma rstrip_by_spec f s :
  ∃ t, s = rstrip_by f s ++ t ∧ Forall (fun c => f c = true) t.
Proof.
  unfold rstrip_by. destruct (lstrip_by_spec f (rev s)) as (t & Hs & Ht).
  exists (rev t). split.
  - by rewrite <- rev_app_distr, <- Hs, rev_involutive.
  - by apply Forall_rev.
Qed.

(** [raw.rstrip('\n')] removes newlines at the end, and nothing else. *)
Lemma rstrip_newlines raw : ∃ k, raw = rstrip_chars [10] raw ++ repeat 10 k.
Proof.
  destruct (rstrip_by_spec (fun c => mem c [10]) raw) as (t & Hs & Ht).
  exists (length t). etrans; [exact Hs|]. unfold rstrip_chars. f_equal.
  clear Hs. induction Ht as [|c t Hc _ IH]; simpl; [done|].
  unfold mem in Hc. simpl in Hc. rewrite orb_false_r in Hc.
  apply N.eqb_eq in Hc. subst c. by f_equal.
Qed.

Lemma split_single sep s : sep ∉ s → split sep s = [s].
Proof.
  induction s as [|c s IH]; intros Hs; simpl; [done|].
  apply not_elem_of_cons in Hs as [Hne Hs].
  destruct (N.eqb_spec c sep) as [->|_]; [done|]. by rewrite IH.
Qed.

Lemma split_length sep s :
  length (split sep s) = S (length (List.filter (N.eqb sep) s)).
Proof.
  induction s as [|c s IH]; simpl; [done|].
  rewrite (N.eqb_sym sep c).
  destruct (c =? sep); simpl; [by rewrite IH|].
  destruct (split sep s); simpl in *; [done|]. by rewrite <- IH.
Qed.

End PyFacts.

Module ReFacts.
Import Py Re.

Lemma run_One cls p b s st :
  run (One cls :: p) b s st
  = match s with
    | c :: s' => if cls c then run p false s' (push c st) else None
    | [] => None
    end.
Proof. done. Qed.

Lemma run_Star cls p b s st :
  run (Star cls :: p) b s st
  = match s with
    | c :: s' =>
        if cls c then
          match run (Star cls :: p) false s' (push c st) with
          | Some r => Some r
          | None => run p b s st
          end
        else run p b s st
    | [] => run p b s st
    end.
Proof. by destruct s. Qed.

Lemma run_Opt cls p b s st :
  run (Opt cls :: p) b s st
  = match s with
    | c :: s' =>
        if cls c then
          match run p false s' (push c st) with
          | Some r => Some r
          | None => run p b s st
          end
        else run p b s st
    | [] => run p b s st
    end.
Proof. done. Qed.

Lemma run_Eol b s st : found (run [Eol] b s st) = is_eol s.
Proof. simpl. by destruct (is_eol s). Qed.

(** [re.search] for one character of a class. *)
Lemma search_one cls s : found (search [One cls] s) = existsb cls s.
Proof.
  unfold search. generalize true. induction s as [|c s IH]; intros b; [done|].
  simpl. destruct (cls c); [done|]. apply IH.
Qed.

Lemma star_eol cls b s st :
  cls 10 = false →
  found (run [Star cls; Eol] b s st) = true ↔ run_then_eol cls s.
Proof.
  intros Hnl. revert b st. induction s as [|c s IH]; intros b st.
  - split; [|done]. intros _. exists []. split; [done|by left].
  - rewrite run_Star. destruct (cls c) eqn:Hc.
    + transitivity (run_then_eol cls s).
      * rewrite <- (IH false (push c st)).
        destruct (run [Star cls; Eol] false s (push c st)); [done|].
        simpl. split; [|done].
        destruct s as [|d [|? ?]]; simpl; try done.
        destruct (N.eqb_spec c 10) as [->|]; [congruence|done].
      * split.
        -- intros (body & Hb & Hs). exists (c :: body). split; [by constructor|].
           destruct Hs as [->| ->]; [by left|by right].
        -- intros ([|d body] & Hb & Hs).
           ++ destruct Hs as [?|[= -> ->]]; [done|congruence].
           ++ exists body. apply Forall_cons in Hb as [_ Hb]. split; [done|].
              destruct Hs as [[= _ ->]|[= _ ->]]; [by left|by right].
    + rewrite run_Eol. split.
      * intros He. exists []. split; [done|]. right. simpl.
        destruct s as [|? ?]; [|done]. simpl in He. by apply N.eqb_eq in He as ->.
      * intros ([|d body] & Hb & Hs).
        -- destruct Hs as [?|[= -> ->]]; [done|]. done.
        -- apply Forall_cons in Hb as [Hd _].
           destruct Hs as [[= -> _]|[= -> _]]; congruence.
Qed.

End ReFacts.

(** ** The sound rule and the emission of sound text *)

Module SoundFacts.
Import Py Render Base Rules Spec PyFacts ReFacts.

Lemma id_char_ascii c : id_char c = true → c < 128 ∧ c ≠ 10.
Proof.
  unfold id_char, in_range, mem. change (lit "_-/$") with [95; 45; 47; 36].
  simpl. rewrite !orb_true_iff, !andb_true_iff, !N.leb_le, !N.eqb_eq. lia.
Qed.

Lemma cjk_not_ascii c : cjk c = true → 127 < c ∧ id_char c = false.
Proof.
  unfold cjk, in_range. rewrite andb_true_iff, !N.leb_le. intros [Hlo Hhi].
  split; [lia|]. destruct (id_char c) eqn:Hc; [|done].
  apply id_char_ascii in Hc. lia.
Qed.

Lemma resource_id_match text :
  Re.found (Re.rmatch resource_id_pattern text) = true ↔ id_shape text.
Proof.
  assert (Hone : ∀ b s st,
    Re.found (Re.run [Re.One id_char; Re.Star id_char; Re.Eol] b s st) = true
    ↔ id_shape s).
  { intros b s st. rewrite run_One. destruct s as [|c s].
    - split; [done|]. intros [[? _]|([|? ?] & ? & _)]; done.
    - destruct (id_char c) eqn:Hc.
      + rewrite star_eol by done. split.
        * intros (body & Hb & [->| ->]).
          -- left. split; [done|]. by constructor.
          -- right. exists (c :: body). split; [done|]. split; [done|]. by constructor.
        * intros [[_ Hall]|(t & Ht & Hne & Hall)].
          -- apply Forall_cons in Hall as [_ Hall]. exists s. split; [done|by left].
          -- destruct t as [|d t]; [done|]. injection Ht as <- ->.
             apply Forall_cons in Hall as [_ Hall]. exists t. split; [done|by right].
      + split; [done|]. intros [[_ Hall]|(t & Ht & Hne & Hall)].
        * apply Forall_cons in Hall as [? _]. congruence.
        * destruct t as [|d t]; [done|]. injection Ht as <- ->.
          apply Forall_cons in Hall as [? _]. congruence. }
  unfold Re.rmatch, resource_id_pattern, Re.plus. cbn [app].
  change (Re.run (Re.Bol :: ?p) true ?s ?st) with (Re.run p true s st).
  rewrite run_Opt. destruct text as [|c s]; [apply Hone|].
  destruct (Re.chr 36 c) eqn:Hd; [|apply Hone].
  destruct (Re.run _ false s _) eqn:Hr; [|apply Hone].
  split; [intros _|done].
  assert (Hs : id_shape s) by (eapply Hone; by rewrite Hr).
  apply N.eqb_eq in Hd as ->.
  destruct Hs as [[Hne Hall]|(t & -> & Hne & Hall)].
  - left. split; [done|]. by constructor.
  - right. exists (36 :: t). split; [done|]. split; [done|]. by constructor.
Qed.

Lemma id_shape_no_cjk text : id_shape text → existsb cjk text = false.
Proof.
  intros Hs. apply not_true_is_false. intros (c & Hin & Hc)%existsb_exists.
  apply cjk_not_ascii in Hc as [Hc Hid].
  destruct Hs as [[_ Hall]|(t & -> & _ & Hall)]; rewrite Forall_forall in Hall.
  - apply list_elem_of_In, Hall in Hin. congruence.
  - apply in_app_or in Hin as [Hin|[<-|[]]]; [|lia].
    apply list_elem_of_In, Hall in Hin. congruence.
Qed.

Lemma id_shape_ascii text : id_shape text → Forall (fun c => c < 128) text.
Proof.
  intros [[_ Hall]|(t & -> & _ & Hall)].
  - eapply Forall_impl; [exact Hall|]. intros c Hc. by apply id_char_ascii in Hc as [? _].
  - apply Forall_app. split; [|by repeat constructor].
    eapply Forall_impl; [exact Hall|]. intros c Hc. by apply id_char_ascii in Hc as [? _].
Qed.

Lemma add_sound_effect_cases doc text :
  (id_shape text → add_sound_effect doc text = (doc, false))
  ∧ (¬ id_shape text → add_sound_effect doc text = rendered doc text).
Proof.
  unfold add_sound_effect, cjk_pattern. rewrite search_one. split.
  - intros Hs. rewrite id_shape_no_cjk by done.
    apply resource_id_match in Hs. by rewrite Hs.
  - intros Hs. destruct (existsb cjk text); [done|].
    destruct (Re.found (Re.rmatch resource_id_pattern text)) eqn:Hm; [|done].
    by apply resource_id_match in Hm.
Qed.

(** C7, where the code departs from it.  A text with a character outside
    ASCII is rendered as a cue in angle brackets, a bare resource identifier
    is suppressed, and a text that is neither is rendered, but for one shape:
    a bare resource identifier followed by a newline that ends the text.
    Such a text is not made of the characters of an identifier only, has no
    character outside ASCII, and is suppressed all the same: the pattern
    ends in [$], which takes a final newline.  So the text [$bgm_001] is
    suppressed and the line [<distant thunder>] gives a cue, while [bgm]
    with a newline after it, as a text or within a line in angle brackets,
    leaves the document as it was. *)
Theorem identifier_before_newline_is_suppressed (doc : document) (text : str) :
  (Exists non_ascii text → add_sound_effect doc text = rendered doc text)
  ∧ (bare_resource_id text → add_sound_effect doc text = (doc, false))
  ∧ (¬ bare_resource_id text →
     (∀ t, text = t ++ [10] → ¬ bare_resource_id t) →
       add_sound_effect doc text = rendered doc text)
  ∧ (∀ t, text = t ++ [10] → bare_resource_id t →
       ¬ bare_resource_id text ∧ ¬ Exists non_ascii text
       ∧ add_sound_effect doc text = (doc, false)
       ∧ add_sound_effect doc text ≠ rendered doc text)
  ∧ add_sound_effect doc (lit "$bgm_001") = (doc, false)
  ∧ (∀ self ctx,
       sound_parse self (lit "<distant thunder>") ctx
       = Some (true, with_doc (rendered (Base.doc ctx) (lit "distant thunder")).1 ctx))
  ∧ bare_resource_id (lit "bgm")
  ∧ add_sound_effect doc (lit "bgm" ++ [10]) = (doc, false)
  ∧ (∀ self ctx,
       sound_parse self (lit "<bgm" ++ [10] ++ lit ">") ctx = Some (true, ctx))
  ∧ (∀ fetch sha256,
       (fun r => (r.1, Base.doc (Assembler.ctx r.2)))
         <$> Assembler.parse_lines
               (Assembler.new_assembler fetch sha256 Assembler.DEFAULT_CONFIG)
               [lit "<bgm" ++ [10] ++ lit ">"] None None None None
       = Some ([], [])).
Proof.
  destruct (add_sound_effect_cases doc text) as [Hid Hother].
  assert (Hbgm : bare_resource_id (lit "bgm")).
  { split; [vm_compute; discriminate|]. repeat constructor. }
  split; [|split; [|split; [|split; [|split; [|split; [|split; [|split; [|split]]]]]]]].
  - intros Hex. apply Hother. intros Hs%id_shape_ascii.
    apply Exists_exists in Hex as (c & Hin & Hc). rewrite Forall_forall in Hs.
    apply Hs in Hin. unfold non_ascii in Hc. lia.
  - intros Hb. apply Hid. by left.
  - intros Hb Hnl. apply Hother. intros [?|(t & ? & ? & ?)]; [done|by eapply Hnl].
  - intros t -> [Hne Hall].
    assert (Hs : id_shape (t ++ [10])) by (right; by exists t).
    split; [|split; [|split]].
    + intros [_ Hnl]. apply Forall_app in Hnl as [_ Hnl].
      apply Forall_cons in Hnl as [Hnl _]. by vm_compute in Hnl.
    + intros (c & Hin & Hc)%Exists_exists. apply id_shape_ascii in Hs.
      rewrite Forall_forall in Hs. apply Hs in Hin. unfold non_ascii in Hc. lia.
    + by apply Hid.
    + rewrite Hid by done. unfold rendered. intros Heq. by injection Heq.
  - by vm_compute.
  - intros self ctx. by vm_compute.
  - exact Hbgm.
  - destruct (add_sound_effect_cases doc (lit "bgm" ++ [10])) as [Hid' _].
    apply Hid'. right. by exists (lit "bgm").
  - intros self ctx. vm_compute. by destruct ctx.
  - intros fetch sha256. by vm_compute.
Qed.

(** C6, as the code has it.  A line that starts with a bracket and contains
    one of the seven listed spellings, case sensitive, is recognised, and so
    is a line in angle brackets. *)
Theorem sound_can_parse_shapes (self : sound_parser) (line : str) (ctx : context) :
  (∀ cmd rest pre post,
     cmd ∈ List.map lit ["PlaySound"; "PlayMusic"; "StopSound"; "StopMusic";
                         "stopmusic"; "playsound"; "playmusic"]%string →
     line = 91 :: rest → line = pre ++ cmd ++ post →
     sound_can_parse self line ctx = true)
  ∧ (∀ body, line = 60 :: body ++ [62] → sound_can_parse self line ctx = true).
Proof.
  split.
  - intros cmd rest pre post Hcmd Hb Hc. unfold sound_can_parse.
    assert (startswith line (lit "[") = true) as ->.
    { apply startswith_spec. by exists rest. }
    assert (existsb (fun cmd => contains cmd line) sound_commands = true) as ->; [|done].
    apply existsb_exists. exists cmd. split.
    + apply list_elem_of_In. revert Hcmd. unfold sound_commands. simpl.
      rewrite !elem_of_cons. tauto.
    + apply contains_spec. by exists pre, post.
  - intros body ->. unfold sound_can_parse.
    assert (startswith (60 :: body ++ [62]) (lit "<") = true) as ->.
    { apply startswith_spec. by exists (body ++ [62]). }
    assert (endswith (60 :: body ++ [62]) (lit ">") = true) as ->.
    { apply endswith_spec. by exists (60 :: body). }
    by destruct (startswith _ _ && existsb (fun cmd : str => contains cmd _) sound_commands).
Qed.

(** C9.  Two sound parsers that differ in [skip_resource_ids] only are the
    same rule: [can_parse] and [parse] agree on every line and context, in
    result and in the context they leave; a resource identifier is suppressed
    under either value of the flag; and two configurations that differ in the
    flag only give the same assembler. *)
Theorem skip_resource_ids_is_ignored (enabled : bool) (priority : Z)
    (directives : gset str) (flag1 flag2 : bool) (line : str) (ctx : context) :
  let self1 := SoundParserObject enabled priority flag1 directives in
  let self2 := SoundParserObject enabled priority flag2 directives in
  sound_can_parse self1 line ctx = sound_can_parse self2 line ctx
  ∧ sound_parse self1 line ctx = sound_parse self2 line ctx
  ∧ sound_rule self1 = sound_rule self2
  ∧ new_SoundParser enabled priority flag1 = new_SoundParser enabled priority flag2
  ∧ (∀ flag, sound_parse (SoundParser_init enabled priority flag)
               (script "[PlaySound key=`$bgm_001`]") ctx = Some (true, ctx))
  ∧ (∀ fetch sha256 spacer numbers parsers,
       Assembler.new_assembler fetch sha256 (Assembler.Config spacer numbers parsers flag1)
       = Assembler.new_assembler fetch sha256 (Assembler.Config spacer numbers parsers flag2)).
Proof.
  split; [reflexivity|]. split; [reflexivity|]. split; [reflexivity|].
  split; [reflexivity|]. split.
  - intros flag. vm_compute. by destruct ctx.
  - intros fetch sha256 spacer numbers parsers. reflexivity.
Qed.

End SoundFacts.

(** ** The predicate rule *)

Module PredicateFacts.
Import Py Render Base Rules Spec PyFacts.

Lemma single_reference (R : str) : 59 ∉ R ↔ length (split 59 R) = 1%nat.
Proof.
  rewrite split_length.
  assert (59 ∉ R ↔ length (List.filter (N.eqb 59) R) = 0%nat) as ->; [|lia].
  induction R as [|c R IH]; cbn [List.filter].
  - split; [done|]. intros _ Hin. by apply elem_of_nil in Hin.
  - rewrite not_elem_of_cons, IH. destruct (N.eqb_spec 59 c) as [Heq|Hne]; simpl.
    + split; [by intros [? _]|done].
    + tauto.
Qed.

(** C4, as the code has it.  With a decision map [M] that is not empty, a
    predicate directive with reference list [R] adds one header.  For a
    single reference it is the label of that option, with the text of [M] or
    the placeholder when [M] has no such value; for several references it is
    the merge label when there are as many references as [M] has options,
    and the labels of the references joined by [&] otherwise. *)
Theorem predicate_header_label (line : str) (ctx : context) (m : list str)
    (st : decision_state) (M : gmap str str) :
  Re.search predicate_pattern line = Some m →
  DecisionParser_state ctx = Some st →
  current_decision_options st = Some M →
  M ≠ ∅ →
  let R := strip (Re.group 1 m) in
  ∃ label,
    predicate_parse line ctx
    = Some (true,
            with_decision_state (Some (DecisionState (Some M) (Some R)))
              (with_doc (doc ctx ++ [Para PredicateHeader [Text label]]) ctx))
    ∧ (59 ∉ R →
         label = arrow_label (default (option_placeholder R) (M !! R)))
    ∧ (59 ∈ R → length (split 59 R) = size M → label = merge_label)
    ∧ (59 ∈ R → length (split 59 R) ≠ size M →
         label = arrow_label (join (lit " & ")
                   (List.map (fun r => default (option_placeholder r) (M !! r))
                      (split 59 R)))).
Proof.
  intros Hm Hst HM Hne R. exists (predicate_title R M). split; [|split; [|split]].
  - unfold predicate_parse. rewrite Hm, Hst. simpl. rewrite HM. simpl.
    by rewrite bool_decide_eq_false_2.
  - intros Hno. unfold predicate_title.
    rewrite (split_single 59 R Hno). done.
  - intros Hin Hlen. unfold predicate_title.
    destruct (Nat.eqb_spec (length (split 59 R)) 1) as [H1|_].
    + by apply single_reference in H1.
    + by rewrite Hlen, Nat.eqb_refl.
  - intros Hin Hlen. unfold predicate_title.
    destruct (Nat.eqb_spec (length (split 59 R)) 1) as [H1|_].
    + by apply single_reference in H1.
    + by destruct (Nat.eqb_spec (length (split 59 R)) (size M)).
Qed.

End PredicateFacts.

(** ** Sessions of the assembler *)

Module SessionFacts.
Import Py Render Base Images Rules Assembler PyFacts.

Section Fetch.
Variable fetch : str -> response.
Variable sha256 : bytes -> str.

Abbreviation standard := (standard fetch sha256).

Implicit Types (p : rule context) (reg : list (rule context)) (c : context).

Lemma keeps_refl c : keeps c c.
Proof. by split. Qed.

Lemma keeps_trans c1 c2 c3 : keeps c1 c2 → keeps c2 c3 → keeps c1 c3.
Proof.
  intros [I1 D1 S1] [I2 D2 S2]. split; [by intros; apply I2, I1|by intros; apply D2, D1|].
  by rewrite S2.
Qed.

Lemma ready_states reg c c' :
  (is_Some (ImageParser_state c) → is_Some (ImageParser_state c')) →
  (is_Some (DecisionParser_state c) → is_Some (DecisionParser_state c')) →
  ready reg c → ready reg c'.
Proof.
  intros Hi Hd Hr. eapply Forall_impl; [exact Hr|]. intros p Hp He.
  specialize (Hp He). unfold needs in *. destruct (class p); auto.
Qed.

Lemma needs_keeps p c c' : keeps c c' → needs p c → needs p c'.
Proof. intros [I D _]. unfold needs. destruct (class p); auto. Qed.

Lemma ready_keeps reg c c' : keeps c c' → ready reg c → ready reg c'.
Proof. intros [I D _]. by apply ready_states. Qed.

Lemma append_images_keeps c : keeps c (append_images fetch sha256 c).
Proof.
  unfold append_images. destruct (asm_images_to_append c); [apply keeps_refl|].
  destruct (output_entries _); [apply keeps_refl|]. by split.
Qed.

Lemma initialize_standard p c :
  standard p → keeps c (initialize p c) ∧ needs p (initialize p c).
Proof.
  intros []; simpl; try (split; [apply keeps_refl|done]).
  - split; [split; simpl; eauto|]. unfold needs. simpl. by eexists.
  - split; [split; simpl; eauto|]. unfold needs. simpl. by eexists.
Qed.

Lemma finalize_standard p c : standard p → keeps c (finalize p c).
Proof.
  intros []; simpl; try apply keeps_refl.
  unfold image_finalize. destruct (ImageParser_state c) as [st|]; [|apply keeps_refl].
  destruct (images_to_append st); [apply keeps_refl|].
  eapply keeps_trans; [|apply append_images_keeps]. by split.
Qed.

Lemma parse_standard p line c :
  standard p → needs p c →
  ∃ h c', parse p line c = Some (h, c') ∧ keeps c c'.
Proof.
  intros [] Hn; simpl.
  - eexists _, _. split; [done|apply keeps_refl].
  - unfold image_parse. destruct (Re.search _ _); [|by eexists _, _; split; [|apply keeps_refl]].
    destruct (image_map c !! _); [|by eexists _, _; split; [|apply keeps_refl]].
    destruct Hn as [st ->]. eexists _, _. split; [done|]. split; simpl; eauto.
  - unfold decision_parse. destruct (Re.search _ _); [|by eexists _, _; split; [|apply keeps_refl]].
    destruct Hn as [st ->]. eexists _, _. split; [done|]. split; simpl; eauto.
  - unfold predicate_parse. destruct (Re.search _ _); [|by eexists _, _; split; [|apply keeps_refl]].
    eexists _, _. split; [done|]. split; simpl; eauto; by destruct (bool_decide _).
  - unfold scene_parse. destruct (Re.search _ _); eexists _, _; (split; [done|]);
      [by split|apply keeps_refl].
  - unfold subtitle_parse. destruct (Re.search _ _); eexists _, _; (split; [done|]);
      [by split|apply keeps_refl].
  - unfold dialogue_parse. destruct (Re.rmatch _ _); [|destruct (Re.search _ _)];
      eexists _, _; (split; [done|]); try apply keeps_refl; by split.
  - unfold sound_parse.
    destruct (_ && _); [|destruct (startswith _ _); [destruct (Re.search _ _); [|destruct (match Re.rmatch _ _ with Some _ => _ | None => _ end)]|]];
      eexists _, _; (split; [done|]); try apply keeps_refl; by split.
  - unfold narration_parse. destruct (Re.found _); eexists _, _; (split; [done|]);
      [by split|apply keeps_refl].
Qed.

Lemma initialize_all_ready reg c :
  Forall standard reg →
  keeps c (Registry.initialize_all reg c) ∧ ready reg (Registry.initialize_all reg c).
Proof.
  intros Hstd. revert c. induction Hstd as [|p reg Hp _ IH]; intros c; simpl.
  - split; [apply keeps_refl|constructor].
  - destruct (enabled p) eqn:He.
    + destruct (initialize_standard p c Hp) as [Hk Hn].
      destruct (IH (initialize p c)) as [Hk' Hr]. split; [by eapply keeps_trans|].
      constructor; [|done]. intros _. by eapply needs_keeps.
    + destruct (IH c) as [Hk Hr]. split; [done|]. constructor; [|done]. congruence.
Qed.

Lemma finalize_all_keeps reg c :
  Forall standard reg → keeps c (Registry.finalize_all reg c).
Proof.
  intros Hstd. revert c. induction Hstd as [|p reg Hp _ IH]; intros c; simpl.
  - apply keeps_refl.
  - destruct (enabled p); [|apply IH].
    eapply keeps_trans; [by apply finalize_standard|apply IH].
Qed.

Lemma dispatch_standard reg line c :
  Forall standard reg → ready reg c →
  ∃ h c', (Registry.dispatch reg line c).2 = Some (h, c') ∧ keeps c c'.
Proof.
  intros Hstd Hr. induction Hstd as [|p reg Hp _ IH]; simpl.
  - eexists _, _. split; [done|apply keeps_refl].
  - apply Forall_cons in Hr as [Hn Hr]. destruct (enabled p); simpl; [|by apply IH].
    destruct (can_parse p line c).
    + simpl. apply parse_standard; auto.
    + destruct (Registry.dispatch reg line c) as [calls r]. by apply IH.
Qed.

Lemma parse_line_standard reg raw c :
  Forall standard reg → ready reg c →
  ∃ h c', Registry.parse_line reg raw c = Some (h, c') ∧ keeps c c'.
Proof.
  intros Hstd Hr. unfold Registry.parse_line, Registry.parse_line_calls.
  destruct (strip raw); [|by apply dispatch_standard].
  eexists _, _. split; [done|apply keeps_refl].
Qed.

(** One line: the session goes on, and the skipped lines grow by this line
    or stay. *)
Lemma parse_raw_standard reg raw c :
  Forall standard reg → ready reg c →
  ∃ c', parse_raw reg c raw = Some c' ∧ ready reg c'
        ∧ (skipped_lines c' = skipped_lines c
           ∨ skipped_lines c' = skipped_lines c ++ [rstrip_chars [10] raw])
        ∧ (strip raw = [] → skipped_lines c' = skipped_lines c ++ [rstrip_chars [10] raw]).
Proof.
  intros Hstd Hr. unfold parse_raw.
  destruct (strip raw) as [|x s] eqn:Hs.
  - unfold Registry.parse_line. rewrite RegistryFacts.parse_line_blank by done. simpl.
    eexists. split; [done|]. split; [|by split; [right|]].
    by eapply ready_states; [| |exact Hr].
  - destruct (parse_line_standard reg raw c Hstd Hr) as (h & c' & -> & Hk).
    pose proof (keeps_skipped _ _ Hk) as Hsk.
    destruct h; simpl; eexists; (split; [done|]).
    + split; [by eapply ready_keeps|]. split; [by left|done].
    + split; [|split; [right; simpl; by rewrite Hsk|done]].
      destruct Hk. by eapply ready_states; [| |exact Hr].
Qed.

Lemma parse_each_standard reg lines c :
  Forall standard reg → ready reg c →
  ∃ c', parse_each reg c lines = Some c' ∧ ready reg c'
        ∧ skipped_lines c `prefix_of` skipped_lines c'
        ∧ (∀ raw, raw ∈ lines → strip raw = [] →
             rstrip_chars [10] raw ∈ skipped_lines c').
Proof.
  intros Hstd. revert c. induction lines as [|raw lines IH]; intros c Hr; simpl.
  - exists c. split; [done|]. split; [done|]. split; [done|].
    intros raw Hin. by apply elem_of_nil in Hin.
  - destruct (parse_raw_standard reg raw c Hstd Hr) as (c1 & -> & Hr1 & Hgrow & Hblank).
    destruct (IH c1 Hr1) as (c' & -> & Hr' & Hpre & Hin).
    exists c'. split; [done|]. split; [done|]. split.
    + etrans; [|exact Hpre]. destruct Hgrow as [-> | ->]; [done|by apply prefix_app_r].
    + intros raw' [->|Hraw]%elem_of_cons Hs; [|by apply Hin].
      eapply elem_of_prefix; [|exact Hpre]. rewrite Hblank by done.
      apply elem_of_app. right. apply list_elem_of_here.
Qed.

(** A call of [parse_lines] on an assembler of standard rules returns: no
    rule raises. *)
Lemma parse_lines_standard asm lines title character spacer image_map :
  Forall standard (registry asm) →
  ∃ skipped asm',
    parse_lines asm lines title character spacer image_map = Some (skipped, asm')
    ∧ registry asm' = registry asm
    ∧ skipped = skipped_lines (ctx asm')
    ∧ skipped_lines (ctx asm) `prefix_of` skipped
    ∧ (∀ raw, raw ∈ lines → strip raw = [] → rstrip_chars [10] raw ∈ skipped).
Proof.
  intros Hstd. unfold parse_lines.
  set (c0 := match image_map with Some m => _ | None => _ end).
  assert (Hsk0 : skipped_lines c0 = skipped_lines (ctx asm)).
  { unfold c0. destruct image_map as [m|]; [|done]. by destruct (bool_decide _). }
  destruct (initialize_all_ready (registry asm) c0 Hstd) as [Hk1 Hr1].
  set (c1 := Registry.initialize_all (registry asm) c0) in *.
  set (c2 := match title with Some (_ :: _ as title0) => _ | _ => c1 end).
  assert (Hk2 : keeps c1 c2).
  { unfold c2. destruct title as [[|x t]|]; try apply keeps_refl.
    destruct (negb _); [destruct (_ <? _)%Z|]; by split. }
  destruct (parse_each_standard (registry asm) lines c2 Hstd) as (c3 & -> & Hr3 & Hpre & Hin).
  { by eapply ready_keeps. }
  pose proof (finalize_all_keeps (registry asm) c3 Hstd) as Hk4.
  eexists _, _. split; [done|]. simpl.
  rewrite (keeps_skipped _ _ Hk4). split; [done|]. split; [done|]. split; [|done].
  by rewrite <- Hsk0, <- (keeps_skipped _ _ Hk1), <- (keeps_skipped _ _ Hk2).
Qed.

(** C10.  A line that is empty or white space only is reported unhandled
    without a call to any rule, and the assembler records it, less the
    newlines at its end: it is in the skipped lines that [parse_lines]
    returns. *)
Theorem blank_lines_are_skipped (asm : assembler) (lines : list str)
    (title character : option str) (spacer : option Z)
    (image_map : option (gmap str str)) (raw : str) :
  Forall standard (registry asm) → raw ∈ lines → strip raw = [] →
  (∀ c, Registry.parse_line_calls (registry asm) raw c = ([], Some (false, c)))
  ∧ (∀ c, parse_raw (registry asm) c raw
          = Some (with_skipped_lines (skipped_lines c ++ [rstrip_chars [10] raw]) c))
  ∧ (∃ k, raw = rstrip_chars [10] raw ++ repeat 10 k)
  ∧ ∃ skipped asm',
      parse_lines asm lines title character spacer image_map = Some (skipped, asm')
      ∧ rstrip_chars [10] raw ∈ skipped.
Proof.
  intros Hstd Hin Hblank.
  split; [intros c; by apply RegistryFacts.parse_line_blank|].
  split.
  { intros c. unfold parse_raw, Registry.parse_line.
    by rewrite RegistryFacts.parse_line_blank. }
  split; [apply rstrip_newlines|].
  destruct (parse_lines_standard asm lines title character spacer image_map Hstd)
    as (skipped & asm' & Hp & _ & _ & _ & Hall).
  exists skipped, asm'. split; [done|]. by apply Hall.
Qed.




(** Every rule but the control rule reports a line it accepts as handled. *)
Lemma accepted_is_handled (p : rule context) line c :
  standard p → class p ≠ ControlParser → needs p c →
  can_parse p line c = true →
  ∃ c', parse p line c = Some (true, c').
Proof.
  intros [] Hclass Hn Hacc; simpl in *; try done.
  - unfold image_can_parse in Hacc. unfold image_parse.
    destruct (Re.search _ _); [|done].
    destruct (image_map c !! _); [|by eexists].
    destruct Hn as [st ->]. by eexists.
  - unfold decision_can_parse in Hacc. unfold decision_parse.
    destruct (Re.search _ _); [|done]. destruct Hn as [st ->]. by eexists.
  - unfold predicate_can_parse in Hacc. unfold predicate_parse.
    destruct (Re.search _ _); [|done]. by eexists.
  - unfold scene_can_parse in Hacc. unfold scene_parse.
    destruct (Re.search _ _); [|done]. by eexists.
  - unfold subtitle_can_parse in Hacc. unfold subtitle_parse.
    destruct (Re.search _ _); [|done]. by eexists.
  - unfold dialogue_can_parse in Hacc. unfold dialogue_parse.
    destruct (Re.rmatch _ _); [by eexists|].
    destruct (Re.search _ _); [by eexists|done].
  - unfold sound_can_parse in Hacc. unfold sound_parse.
    destruct (startswith line (lit "<") && endswith line (lit ">")); [by eexists|].
    destruct (startswith line (lit "[")); [|done].
    destruct (Re.search _ _); [by eexists|].
    destruct (match Re.rmatch _ _ with Some _ => _ | None => _ end); by eexists.
  - unfold narration_can_parse in Hacc. unfold narration_parse.
    rewrite Hacc. by eexists.
Qed.
(** A line that no enabled rule accepts is recorded. *)
Lemma unrecognized_line_is_skipped reg raw c :
  (∀ q, q ∈ reg → enabled q = true → can_parse q (strip raw) c = false) →
  parse_raw reg c raw
  = Some (with_skipped_lines (skipped_lines c ++ [rstrip_chars [10] raw]) c).
Proof.
  intros Hnone. unfold parse_raw, Registry.parse_line, Registry.parse_line_calls.
  destruct (strip raw) eqn:Hs; [done|].
  by rewrite RegistryFacts.dispatch_none.
Qed.

(** So is a line that the control rule accepts, when no enabled rule before
    it does: [parse] of the control rule reports it unhandled. *)
Lemma control_line_is_skipped pre post priority raw c :
  (∀ q, q ∈ pre → enabled q = true → can_parse q (strip raw) c = false) →
  control_can_parse (strip raw) c = true →
  parse_raw (pre ++ new_ControlParser true priority :: post) c raw
  = Some (with_skipped_lines (skipped_lines c ++ [rstrip_chars [10] raw]) c).
Proof.
  intros Hpre Hcontrol. unfold parse_raw, Registry.parse_line, Registry.parse_line_calls.
  destruct (strip raw) eqn:Hs; [done|].
  by rewrite RegistryFacts.dispatch_first.
Qed.

(** C1, where the code departs from it.  The four control lines are accepted
    by [can_parse] of the control rule, which is enabled, and all four are in
    the skipped lines that [parse_lines] returns. *)
Theorem control_lines_are_recorded :
  let asm := new_assembler fetch sha256 DEFAULT_CONFIG in
  let lines := List.map lit ["#"; "[Dialog]"; "[Charslot]"; "[Background]"]%string in
  Forall (fun line => control_can_parse line (ctx asm) = true) lines
  ∧ (enabled <$> Registry.get_parser (registry asm) ControlParser) = Some true
  ∧ fst <$> parse_lines asm lines None None None None = Some lines.
Proof. split; [|split]; [repeat constructor| |]; by vm_compute. Qed.

(** What [initialize] leaves of the state of the decision and image rules. *)
Lemma initialize_all_states reg c :
  Forall standard reg →
  let c' := Registry.initialize_all reg c in
  (DecisionParser_state c' = DecisionParser_state c
   ∨ DecisionParser_state c' = Some (DecisionState (Some ∅) None))
  ∧ (ImageParser_state c' = ImageParser_state c
     ∨ ImageParser_state c' = Some (ImageState 0 [] [])).
Proof.
  intros Hstd. revert c. induction Hstd as [|p reg Hp _ IH]; intros c; simpl.
  - by split; left.
  - destruct (enabled p); [|apply IH].
    destruct (IH (initialize p c)) as [Hd Hi].
    destruct Hp; simpl in *; split; try done.
    + destruct Hi as [-> | ->]; by right.
    + destruct Hd as [-> | ->]; by right.
Qed.

(** Every call of [initialize_all] puts the state of an enabled decision
    rule and of an enabled image rule back to its initial value, whatever
    was there. *)
Lemma initialize_all_resets reg c :
  Forall standard reg →
  (Exists (fun p => enabled p = true ∧ class p = DecisionParser) reg →
     DecisionParser_state (Registry.initialize_all reg c)
     = Some (DecisionState (Some ∅) None))
  ∧ (Exists (fun p => enabled p = true ∧ class p = ImageParser) reg →
       ImageParser_state (Registry.initialize_all reg c) = Some (ImageState 0 [] [])).
Proof.
  intros Hstd. revert c. induction Hstd as [|p reg Hp Hstd IH]; intros c.
  - split; intros Hex; by apply Exists_nil in Hex.
  - destruct (IH c) as [IHd IHi]. simpl. split; intros Hex.
    + apply Exists_cons in Hex as [[He Hc]|Hex].
      * rewrite He.
        destruct (initialize_all_states reg (initialize p c) Hstd) as [[-> | ->] _];
          [|done].
        by destruct Hp.
      * destruct (enabled p); [|by apply IHd]. by apply IH.
    + apply Exists_cons in Hex as [[He Hc]|Hex].
      * rewrite He.
        destruct (initialize_all_states reg (initialize p c) Hstd) as [_ [-> | ->]];
          [|done].
        by destruct Hp.
      * destruct (enabled p); [|by apply IHi]. by apply IH.
Qed.

End Fetch.

(** C2, where the code departs from it.  [parse_lines] initializes the rules
    at every call.  A decision parsed in one call is gone in the next one: the
    predicate that follows it renders its header within one call and nothing
    across two.  The image counter starts again as well: with a resource that
    cannot be fetched, the first image of a second call is number 1 once
    more. *)
Theorem initialize_runs_at_every_call (fetch : str -> response) (sha256 : bytes -> str) :
  let asm := new_assembler fetch sha256 DEFAULT_CONFIG in
  let offline := new_assembler (fun _ => Failed (lit "offline")) sha256 DEFAULT_CONFIG in
  let again (lines : list str) (r : list str * assembler) :=
    parse_lines r.2 lines None None None None in
  let header := [Para PredicateHeader [Text (arrow_label (lit "A"))]] in
  let images : gmap str str := {[ lit "a" := lit "u" ]} in
  ((fun r => doc (ctx r.2)) <$> parse_lines asm [decision_line; predicate_line] None None None None)
  = Some header
  ∧ ((fun r => doc (ctx r.2)) <$> (parse_lines asm [decision_line] None None None None
                                    ≫= again [predicate_line]))
    = Some []
  ∧ ((fun r => image_counter <$> ImageParser_state (ctx r.2))
       <$> parse_lines offline [image_line; image_line] None None None (Some images))
    = Some (Some 2%nat)
  ∧ ((fun r => image_counter <$> ImageParser_state (ctx r.2))
       <$> (parse_lines offline [image_line] None None None (Some images)
            ≫= again [image_line]))
    = Some (Some 1%nat).
Proof. repeat split; by vm_compute. Qed.

End SessionFacts.

(** ** The rules of an assembler are standard, and its pending images are
    numbered without repetition *)

Module AssemblerFacts.
Import Py Render Base Images Rules Assembler.

Section Fetch.
Variable fetch : str -> response.
Variable sha256 : bytes -> str.

Abbreviation standard := (standard fetch sha256).

Lemma insert_Forall {C} (P : rule C → Prop) p l :
  P p → Forall P l → Forall P (Registry.insert_by_priority p l).
Proof.
  intros Hp. induction 1 as [|q l Hq Hl IH]; simpl; [by repeat constructor|].
  destruct (_ <=? _)%Z; repeat constructor; done.
Qed.

Lemma register_Forall {C} (P : rule C → Prop) reg p :
  P p → Forall P reg → Forall P (Registry.register reg p).
Proof.
  intros Hp Hreg. unfold Registry.register, Registry.sort_by_priority.
  assert (Hall : Forall P (reg ++ [p])) by (apply Forall_app; by repeat constructor).
  induction Hall; simpl; [constructor|by apply insert_Forall].
Qed.

Lemma make_parser_standard cfg cls : standard (make_parser fetch sha256 cfg cls).
Proof. destruct cls; simpl; constructor. Qed.

Lemma new_assembler_standard cfg :
  Forall standard (registry (new_assembler fetch sha256 cfg)).
Proof.
  simpl. unfold _setup_parsers. generalize parser_classes. intros l.
  assert (Hnil : Forall standard []) by constructor. revert Hnil.
  generalize (@nil (rule context)). induction l as [|cls l IH]; intros reg Hreg; simpl.
  - done.
  - apply IH, register_Forall; [apply make_parser_standard|done].
Qed.

Lemma set_first_enabled_standard b cls reg :
  Forall standard reg → Forall standard (Registry.set_first_enabled b cls reg).
Proof.
  induction 1 as [|p reg Hp Hreg IH]; simpl; [constructor|].
  destruct (bool_decide _); constructor; try done.
  destruct Hp as [e p|e p|e p|e p|e p|e p|e p|self|e p].
  - exact (standard_control fetch sha256 b p).
  - exact (standard_image fetch sha256 b p).
  - exact (standard_decision fetch sha256 b p).
  - exact (standard_predicate fetch sha256 b p).
  - exact (standard_scene fetch sha256 b p).
  - exact (standard_subtitle fetch sha256 b p).
  - exact (standard_dialogue fetch sha256 b p).
  - exact (standard_sound fetch sha256
             (SoundParserObject b (sound_priority self) (skip_resource_ids self)
                (skip_directives self))).
  - exact (standard_narration fetch sha256 b p).
Qed.

Lemma image_parse_numbered line c h c' st :
  image_parse line c = Some (h, c') →
  ImageParser_state c = Some st → numbered st →
  ∃ st', ImageParser_state c' = Some st' ∧ numbered st'
         ∧ NoDup (images_to_append st').*1.
Proof.
  intros Hp Hst Hn. unfold image_parse in Hp.
  assert (Hnd : ∀ s, numbered s → NoDup (images_to_append s).*1).
  { intros s ->. apply NoDup_ListNoDup, List.seq_NoDup. }
  destruct (Re.search _ _); [|injection Hp as <- <-; eauto].
  destruct (image_map c !! _) as [url|]; [|injection Hp as <- <-; eauto].
  rewrite Hst in Hp. injection Hp as <- <-. simpl. eexists. split; [done|].
  assert (Hn' : numbered (ImageState (S (image_counter st))
                 (dict_set (S (image_counter st)) (length (doc c)) (image_reference_runs st))
                 (images_to_append st ++ [(S (image_counter st), url)]))).
  { unfold numbered in *. cbn [image_counter images_to_append].
    by rewrite fmap_app, Hn, seq_S. }
  split; [done|by apply Hnd].
Qed.

End Fetch.
End AssemblerFacts.

(** ** The theorems at concrete inputs *)

Module Examples.
Import Py Render Base Images Rules Assembler Spec.

Ltac by_decide := apply (bool_decide_unpack _); vm_compute; exact I.

(** Three rules registered out of order, one of them disabled, and a control
    line between blanks. *)
Lemma parse_line_priority_dispatch_witness :
  let rules := [new_NarrationParser true 60; new_DialogueParser false 5;
                new_ControlParser true 5] in
  let parsers := fold_left Registry.register rules [] in
  let line := lit "  [Dialog]  " in
  strip line ≠ []
  ∧ parsers = [new_DialogueParser false 5; new_ControlParser true 5;
               new_NarrationParser true 60]
  ∧ Registry.parse_line_calls parsers line fresh_context
    = ([Registry.CanParse (new_ControlParser true 5);
        Registry.Parse (new_ControlParser true 5)],
       Some (false, fresh_context)).
Proof.
  intros rules parsers line.
  assert (Hne : strip line ≠ []) by (vm_compute; discriminate).
  split; [exact Hne|]. split; [reflexivity|].
  destruct (RegistryFacts.parse_line_priority_dispatch rules line fresh_context)
    as (_ & _ & _ & Hdispatch).
  destruct (Hdispatch Hne) as (_ & Hfirst & _).
  apply (Hfirst [new_DialogueParser false 5] (new_ControlParser true 5)
           [new_NarrationParser true 60]).
  - reflexivity.
  - reflexivity.
  - vm_compute. reflexivity.
  - intros q Hq%list_elem_of_singleton. subst q. simpl. discriminate.
Defined.

(** A predicate with two references under a decision with two options. *)
Lemma predicate_header_label_witness :
  let M : gmap str str := options_by_value [lit "1"; lit "2"] [lit "A"; lit "B"] in
  let st := DecisionState (Some M) None in
  let ctx := with_decision_state (Some st) fresh_context in
  let line := script "[Predicate(references=`1;2`)]" in
  Re.search predicate_pattern line = Some [lit "1;2"]
  ∧ M ≠ ∅
  ∧ predicate_parse line ctx
    = Some (true,
            with_decision_state (Some (DecisionState (Some M) (Some (lit "1;2"))))
              (with_doc [Para PredicateHeader [Text merge_label]] ctx)).
Proof.
  intros M st ctx line.
  assert (Hm : Re.search predicate_pattern line = Some [lit "1;2"])
    by (vm_compute; reflexivity).
  assert (HM : M ≠ ∅) by by_decide.
  split; [exact Hm|]. split; [exact HM|].
  destruct (PredicateFacts.predicate_header_label line ctx [lit "1;2"] st M
              Hm eq_refl eq_refl HM) as (label & Hparse & _ & Hmerge & _).
  rewrite Hparse, Hmerge; [reflexivity| |].
  - by_decide.
  - vm_compute. reflexivity.
Defined.

(** The claim of a merge label only for a list that spans the options fails:
    the references 3 and 4 are no options of the decision, and the header is
    the merge label, not the joined labels. *)
Lemma predicate_merge_counterexample :
  let M : gmap str str := options_by_value [lit "1"; lit "2"] [lit "A"; lit "B"] in
  let R := lit "3;4" in
  M ≠ ∅
  ∧ length (split 59 R) ≠ 1%nat
  ∧ ¬ spans (split 59 R) M
  ∧ predicate_title R M = merge_label
  ∧ predicate_title R M
    ≠ arrow_label (join (lit " & ") (List.map (option_text M) (split 59 R)))
  ∧ ((fun r => doc (ctx r.2))
       <$> parse_lines example_assembler
             [decision_line; script "[Predicate(references=`3;4`)]"]
             None None None None)
    = Some [Para PredicateHeader [Text merge_label]].
Proof.
  intros M R. split; [by_decide|]. split; [vm_compute; discriminate|].
  split; [|split; [vm_compute; reflexivity|split; [vm_compute; discriminate|
                                                  vm_compute; reflexivity]]].
  intros Hspans. destruct (Hspans (lit "3")) as [Hin _].
  assert (H3 : lit "3" ∈ split 59 R) by by_decide.
  apply Hin in H3. vm_compute in H3. by destruct H3.
Defined.

(** Three pending images, the first and the third with the same content. *)
Lemma dedup_by_content_hash_witness :
  let pending := [(1%nat, lit "u1"); (2%nat, lit "gone"); (3%nat, lit "u2")] in
  let st := fetch_all example_fetch example_sha256 pending in
  NoDup pending.*1
  ∧ (∃ k, index_map st !! 1%nat = Some k ∧ index_map st !! 3%nat = Some k)
  ∧ output_entries st
    = [ImageEntry 1 [Byte.x89; Byte.x50] (lit "u1"); ErrorEntry 2 (lit "gone") (lit "404")].
Proof.
  intros pending st.
  assert (Hnd : NoDup pending.*1) by by_decide.
  split; [exact Hnd|]. split; [|vm_compute; reflexivity].
  destruct (ImagesFacts.dedup_by_content_hash example_fetch example_sha256 pending Hnd)
    as (_ & _ & Hsame & _).
  apply (Hsame 1%nat (lit "u1") [Byte.x89; Byte.x50] 3%nat (lit "u2") [Byte.x89; Byte.x50]).
  - by_decide.
  - by_decide.
  - reflexivity.
  - reflexivity.
  - reflexivity.
Defined.

(** A line with [STOPSOUND] in capitals starts with a bracket and contains
    StopSound up to case, and the sound rule does not recognise it. *)
Lemma stopsound_counterexample :
  let line := lit "[STOPSOUND]" in
  startswith line (lit "[") = true
  ∧ contains (lower (lit "StopSound")) (lower line) = true
  ∧ sound_can_parse (SoundParser_init true 45 true) line fresh_context = false.
Proof. repeat split; vm_compute; reflexivity. Defined.

Lemma sound_can_parse_shapes_witness :
  let self := SoundParser_init true 45 true in
  let line := script "[PlaySound key=`$bgm_001`]" in
  lit "PlaySound" ∈ List.map lit ["PlaySound"; "PlayMusic"; "StopSound"; "StopMusic";
                                  "stopmusic"; "playsound"; "playmusic"]%string
  ∧ sound_can_parse self line fresh_context = true
  ∧ sound_can_parse self (lit "<distant thunder>") fresh_context = true.
Proof.
  intros self line.
  assert (Hin : lit "PlaySound" ∈ List.map lit ["PlaySound"; "PlayMusic"; "StopSound";
                  "StopMusic"; "stopmusic"; "playsound"; "playmusic"]%string)
    by apply list_elem_of_here.
  split; [exact Hin|]. split.
  - destruct (SoundFacts.sound_can_parse_shapes self line fresh_context) as [Hbracket _].
    apply (Hbracket (lit "PlaySound") (script "PlaySound key=`$bgm_001`]")
             (lit "[") (script " key=`$bgm_001`]") Hin); reflexivity.
  - destruct (SoundFacts.sound_can_parse_shapes self (lit "<distant thunder>") fresh_context)
      as [_ Hangle].
    apply (Hangle (lit "distant thunder")). reflexivity.
Defined.


(** Two blank lines, one with its newline, among the lines of a call. *)
Lemma blank_lines_are_skipped_witness :
  let raw := lit "  " ++ [10] in
  let lines := [lit "# "; raw; lit "   "] in
  raw ∈ lines
  ∧ strip raw = []
  ∧ ∃ skipped asm',
      parse_lines example_assembler lines None None None None = Some (skipped, asm')
      ∧ lit "  " ∈ skipped.
Proof.
  intros raw lines.
  assert (Hin : raw ∈ lines) by (apply list_elem_of_further, list_elem_of_here).
  split; [exact Hin|]. split; [reflexivity|].
  destruct (SessionFacts.blank_lines_are_skipped example_fetch example_sha256
              example_assembler lines None None None None raw
              (AssemblerFacts.new_assembler_standard _ _ _) Hin eq_refl)
    as (_ & _ & _ & Hskipped).
  exact Hskipped.
Defined.

End Examples.

(** ** More on strings *)

Module PyMore.
Import Py PyFacts.

Implicit Types (f : N → bool) (s pre post : str).

Lemma lstrip_all f s : Forall (fun c => f c = true) s → lstrip_by f s = [].
Proof. induction 1 as [|c s Hc _ IH]; simpl; [done|]. by rewrite Hc. Qed.

Lemma lstrip_app_l f pre s :
  Forall (fun c => f c = true) pre → lstrip_by f (pre ++ s) = lstrip_by f s.
Proof. induction 1 as [|c pre Hc _ IH]; simpl; [done|]. by rewrite Hc. Qed.

Lemma lstrip_app_r f s post :
  lstrip_by f s ≠ [] → lstrip_by f (s ++ post) = lstrip_by f s ++ post.
Proof.
  induction s as [|c s IH]; simpl; [done|]. destruct (f c); [apply IH|done].
Qed.

Lemma lstrip_fixed f s :
  lstrip_by f s = s ↔ match s with [] => True | c :: _ => f c = false end.
Proof.
  destruct s as [|c s]; simpl; [done|]. destruct (f c) eqn:Hc; [|done].
  split; [|done]. intros Heq.
  destruct (lstrip_by_spec f s) as (t & Hs & _).
  apply (f_equal length) in Heq. rewrite Hs in Heq at 2.
  simpl in Heq. rewrite length_app in Heq. lia.
Qed.

Lemma lstrip_idem f s : lstrip_by f (lstrip_by f s) = lstrip_by f s.
Proof.
  induction s as [|c s IH]; simpl; [done|].
  destruct (f c) eqn:Hc; [done|]. simpl. by rewrite Hc.
Qed.

Lemma rstrip_app_r f s post :
  Forall (fun c => f c = true) post → rstrip_by f (s ++ post) = rstrip_by f s.
Proof.
  intros Hpost. unfold rstrip_by. rewrite rev_app_distr, lstrip_app_l; [done|].
  by apply Forall_rev.
Qed.

Lemma rstrip_idem f s : rstrip_by f (rstrip_by f s) = rstrip_by f s.
Proof. unfold rstrip_by. by rewrite rev_involutive, lstrip_idem. Qed.

Lemma rstrip_keeps_head f s :
  lstrip_by f s = s → lstrip_by f (rstrip_by f s) = rstrip_by f s.
Proof.
  intros Hs. destruct (rstrip_by_spec f s) as (t & Hst & _).
  apply lstrip_fixed. destruct (rstrip_by f s) as [|c r] eqn:Hr; [done|].
  apply lstrip_fixed in Hs. rewrite Hst in Hs. exact Hs.
Qed.

(** [strip] on a padded string, and on its own result. *)
Lemma strip_by_padded f pre s post :
  Forall (fun c => f c = true) pre → Forall (fun c => f c = true) post →
  strip_by f (pre ++ s ++ post) = strip_by f s.
Proof.
  intros Hpre Hpost. unfold strip_by. rewrite lstrip_app_l by done.
  destruct (lstrip_by f s) as [|c r] eqn:Hs.
  - destruct (lstrip_by_spec f s) as (t & Ht & Hall). rewrite Hs, app_nil_r in Ht.
    subst t. rewrite lstrip_all; [done|]. by apply Forall_app.
  - rewrite lstrip_app_r by (by rewrite Hs). rewrite Hs. by apply rstrip_app_r.
Qed.

Lemma strip_by_idem f s : strip_by f (strip_by f s) = strip_by f s.
Proof.
  unfold strip_by. rewrite rstrip_keeps_head by apply lstrip_idem.
  apply rstrip_idem.
Qed.

Lemma strip_idem s : strip (strip s) = strip s.
Proof. apply strip_by_idem. Qed.

Lemma rstrip_none f s : Forall (fun c => f c = false) s → rstrip_by f s = s.
Proof.
  intros Hall. unfold rstrip_by.
  assert (Hfix : lstrip_by f (rev s) = rev s); [|by rewrite Hfix, rev_involutive].
  apply lstrip_fixed. destruct (rev s) as [|c r] eqn:Hr; [done|].
  rewrite Forall_forall in Hall. apply Hall.
  apply list_elem_of_In, in_rev. rewrite Hr. by left.
Qed.

(** The lines of [splitlines] have no line break in them. *)
Lemma splitlines_from_lines n s cur :
  (length s <= n)%nat →
  Forall (fun c => is_linebreak c = false) cur →
  Forall (fun line => Forall (fun c => is_linebreak c = false) line) (splitlines_from cur s).
Proof.
  revert s cur. induction n as [|n IH]; intros s cur Hlen Hcur.
  - destruct s; [|simpl in Hlen; lia]. simpl.
    destruct cur; repeat constructor. by apply Forall_rev.
  - destruct s as [|c s]; simpl.
    + destruct cur; repeat constructor. by apply Forall_rev.
    + simpl in Hlen.
      assert (Hrev : Forall (fun c => is_linebreak c = false) (rev cur)) by by apply Forall_rev.
      destruct (c =? 13) eqn:Hcr.
      * destruct s as [|d s]; [repeat constructor; done|].
        destruct (d =? 10); constructor; try done; apply IH; simpl in *; try lia; constructor.
      * destruct (is_linebreak c) eqn:Hlb.
        -- constructor; [done|]. apply IH; [lia|constructor].
        -- apply IH; [lia|]. by constructor.
Qed.

Lemma splitlines_lines text :
  Forall (fun line => Forall (fun c => is_linebreak c = false) line) (splitlines text).
Proof. by apply (splitlines_from_lines (length text)). Qed.

Lemma rstrip_newline_line line :
  Forall (fun c => is_linebreak c = false) line → rstrip_chars [10] line = line.
Proof.
  intros Hall. apply rstrip_none. eapply Forall_impl; [exact Hall|].
  intros c Hc. simpl. destruct (N.eqb_spec c 10) as [->|]; [done|done].
Qed.

End PyMore.

Module DispatchMore.
Import Py Base Registry PyMore.

Section WithContext.
Context {C : Type}.

(** X1.  White space around a line never matters to [parse_line]: a line padded
    with white space, and the line stripped beforehand, give the same calls,
    the same result and the same context as the line itself. *)
Theorem parse_line_ignores_padding (reg : list (rule C)) (pre line post : str) (c : C) :
  Forall (fun x => isspace x = true) pre → Forall (fun x => isspace x = true) post →
  parse_line_calls reg (pre ++ line ++ post) c = parse_line_calls reg line c
  ∧ parse_line_calls reg (strip line) c = parse_line_calls reg line c.
Proof.
  intros Hpre Hpost. unfold parse_line_calls.
  assert (strip (pre ++ line ++ post) = strip line) as ->
    by (by apply strip_by_padded).
  by rewrite strip_idem.
Qed.

End WithContext.
End DispatchMore.

(** ** More on the registry *)

Module RegistryMore.
Import Py Base Registry.

Section WithContext.
Context {C : Type}.
Implicit Types (p q : rule C) (l reg pre post rules : list (rule C)).

Lemma insert_perm p l : insert_by_priority p l ≡ₚ p :: l.
Proof.
  induction l as [|q l IH]; simpl; [done|].
  destruct (_ <=? _)%Z; [done|]. rewrite IH. apply Permutation_swap.
Qed.

Lemma sort_perm l : sort_by_priority l ≡ₚ l.
Proof.
  induction l as [|p l IH]; simpl; [done|]. by rewrite insert_perm, IH.
Qed.

(** X2.  [register] loses no rule and adds none but the new one: the registry is
    a permutation of the rules registered so far, whatever their
    priorities. *)
Theorem register_keeps_every_rule rules p :
  register (fold_left register rules []) p ≡ₚ p :: rules
  ∧ fold_left register rules [] ≡ₚ rules
  ∧ length (fold_left register rules []) = length rules.
Proof.
  assert (Hall : ∀ rs : list (rule C), fold_left register rs [] ≡ₚ rs).
  { intros rs. induction rs as [|q rs IH] using rev_ind; [done|].
    rewrite fold_left_app. simpl. unfold register at 1.
    by rewrite sort_perm, IH. }
  split; [|split; [apply Hall|by rewrite Hall]].
  unfold register. rewrite sort_perm, Hall. by rewrite Permutation_app_comm.
Qed.

Lemma dispatch_filter reg line c :
  dispatch reg line c = dispatch (List.filter enabled reg) line c.
Proof.
  induction reg as [|p reg IH]; simpl; [done|].
  destruct (enabled p) eqn:He; simpl; [|done].
  rewrite He. simpl. by rewrite IH.
Qed.

(** X3.  A disabled rule is never called: [parse_line], [initialize_all] and
    [finalize_all] behave as on the registry without the disabled rules, in
    the calls made, the result and the context left; the hooks run over the
    enabled rules in the order of the registry. *)
Theorem disabled_rules_are_never_called reg line c :
  parse_line_calls reg line c = parse_line_calls (List.filter enabled reg) line c
  ∧ Forall (fun e => enabled (callee e) = true) (parse_line_calls reg line c).1
  ∧ initialize_all reg c
    = fold_left (fun c p => initialize p c) (List.filter enabled reg) c
  ∧ finalize_all reg c
    = fold_left (fun c p => finalize p c) (List.filter enabled reg) c.
Proof.
  split; [|split; [|split]].
  - unfold parse_line_calls. destruct (strip line); [done|apply dispatch_filter].
  - unfold parse_line_calls. destruct (strip line) as [|x s]; [constructor|].
    generalize (x :: s). intros s'. induction reg as [|p reg IH]; simpl; [constructor|].
    destruct (enabled p) eqn:He; simpl; [|done].
    destruct (can_parse p s' c); [by repeat constructor|].
    destruct (dispatch reg s' c). by constructor.
  - revert c. induction reg as [|p reg IH]; intros c; simpl; [done|].
    destruct (enabled p); simpl; apply IH.
  - revert c. induction reg as [|p reg IH]; intros c; simpl; [done|].
    destruct (enabled p); simpl; apply IH.
Qed.

Lemma set_first_enabled_split b cls pre p post :
  class p = cls → (∀ q, q ∈ pre → class q ≠ cls) →
  set_first_enabled b cls (pre ++ p :: post) = pre ++ set_enabled b p :: post.
Proof.
  intros Hp. induction pre as [|q pre IH]; intros Hpre; simpl.
  - by rewrite bool_decide_eq_true_2.
  - rewrite bool_decide_eq_false_2 by (apply Hpre, list_elem_of_here).
    rewrite IH; [done|]. intros r Hr. apply Hpre. by apply list_elem_of_further.
Qed.

Lemma filter_class_none cls l :
  (∀ q, q ∈ l → class q ≠ cls) →
  List.filter (fun p => negb (bool_decide (class p = cls))) l = l.
Proof.
  induction l as [|q l IH]; intros Hall; simpl; [done|].
  rewrite bool_decide_eq_false_2 by (apply Hall, list_elem_of_here). simpl.
  rewrite IH; [done|]. intros r Hr. apply Hall. by apply list_elem_of_further.
Qed.

(** X5.  For a class with one rule in the registry, disabling it and unregistering
    it are the same to [parse_line]: same calls, same result. *)
Theorem disable_is_unregister_for_dispatch (cls : parser_class) pre p post line c :
  class p = cls →
  (∀ q, q ∈ pre ++ post → class q ≠ cls) →
  let reg := pre ++ p :: post in
  parse_line_calls (disable_parser reg cls) line c
  = parse_line_calls (unregister reg cls) line c
  ∧ unregister reg cls = pre ++ post.
Proof.
  intros Hp Hothers reg.
  assert (Hpre : ∀ q, q ∈ pre → class q ≠ cls).
  { intros q Hq. apply Hothers, elem_of_app. by left. }
  assert (Hpost : ∀ q, q ∈ post → class q ≠ cls).
  { intros q Hq. apply Hothers, elem_of_app. by right. }
  assert (Hun : unregister reg cls = pre ++ post).
  { unfold unregister, reg. rewrite List.filter_app. simpl.
    rewrite bool_decide_eq_true_2 by done. simpl.
    by rewrite !filter_class_none. }
  split; [|done]. rewrite Hun. unfold disable_parser, reg.
  rewrite set_first_enabled_split by done.
  unfold parse_line_calls. destruct (strip line) as [|x s]; [done|].
  rewrite dispatch_filter, (dispatch_filter (pre ++ post)).
  by rewrite !List.filter_app.
Qed.

End WithContext.
End RegistryMore.

(** ** The registry of objects *)

Module ObjectFacts.
Import Py Base Objects.

Section WithContext.
Context {C : Type}.
Implicit Types (r : registry C) (ref : class_ref) (p q first : nat)
  (l pre post : list nat).

Lemma find_first (f : nat → bool) l :
  match List.find f l with
  | Some x => ∃ pre post, l = pre ++ x :: post ∧ f x = true ∧ ∀ q, q ∈ pre → f q = false
  | None => ∀ q, q ∈ l → f q = false
  end.
Proof.
  induction l as [|y l IH]; simpl.
  - intros q Hq. by apply elem_of_nil in Hq.
  - destruct (f y) eqn:Hy.
    + exists [], l. split; [done|]. split; [done|]. intros q Hq. by apply elem_of_nil in Hq.
    + destruct (List.find f l) as [x|].
      * destruct IH as (pre & post & -> & Hx & Hpre). exists (y :: pre), post.
        split; [done|]. split; [done|]. intros q [->|Hq]%elem_of_cons; auto.
      * intros q [->|Hq]%elem_of_cons; auto.
Qed.

Lemma find_at (f : nat → bool) pre x post :
  f x = true → (∀ q, q ∈ pre → f q = false) → List.find f (pre ++ x :: post) = Some x.
Proof.
  intros Hx. induction pre as [|y pre IH]; intros Hpre; simpl.
  - by rewrite Hx.
  - rewrite (Hpre y) by apply list_elem_of_here. apply IH.
    intros q Hq. apply Hpre. by apply list_elem_of_further.
Qed.

Lemma find_none (f : nat → bool) l :
  (∀ q, q ∈ l → f q = false) → List.find f l = None.
Proof.
  induction l as [|y l IH]; intros Hall; simpl; [done|].
  rewrite (Hall y) by apply list_elem_of_here. apply IH.
  intros q Hq. apply Hall. by apply list_elem_of_further.
Qed.

Lemma rules_insert (object : nat → rule C) p l :
  object <$> insert_by_priority object p l
  = Registry.insert_by_priority (object p) (object <$> l).
Proof.
  induction l as [|q l IH]; simpl; [done|].
  destruct (_ <=? _)%Z; [done|]. by rewrite fmap_cons, IH.
Qed.

Lemma rules_sort (object : nat → rule C) l :
  object <$> foldr (insert_by_priority object) [] l
  = Registry.sort_by_priority (object <$> l).
Proof.
  induction l as [|q l IH]; simpl; [done|]. by rewrite rules_insert, IH.
Qed.

(** Away from the object that changes, the rules are the same. *)
Lemma fmap_insert_away (object : nat → rule C) first x l :
  first ∉ l → <[first := x]> object <$> l = object <$> l.
Proof.
  induction l as [|q l IH]; intros Hl; [done|].
  apply not_elem_of_cons in Hl as [Hq Hl].
  by rewrite !fmap_cons, fn_lookup_insert_ne, IH.
Qed.

Lemma set_flag_at b r ref pre first post :
  parsers r = pre ++ first :: post →
  isinstance (object r first) ref = true →
  (∀ q, q ∈ pre → isinstance (object r q) ref = false) →
  set_flag b r ref
  = Registry (parsers r) (<[first := set_enabled b (object r first)]> (object r)).
Proof.
  intros Hl Hfirst Hpre. unfold set_flag, get_parser. rewrite Hl.
  by rewrite (find_at (fun p => isinstance (object r p) ref)).
Qed.

Lemma set_class_none b cls (rs : list (rule C)) :
  (∀ y, y ∈ rs → class y ≠ cls) → Registry.set_first_enabled b cls rs = rs.
Proof.
  induction rs as [|y rs IH]; intros Hall; simpl; [done|].
  rewrite bool_decide_eq_false_2 by (apply Hall, list_elem_of_here).
  rewrite IH; [done|]. intros z Hz. apply Hall. by apply list_elem_of_further.
Qed.

(** X4.  [enable_parser] and [disable_parser] set the flag of one object, the
    first instance of the class in registry order, base classes included:
    the list, the classes and the priorities stay, every other object stays,
    and every place of the list that holds this object shows the new flag.
    With no instance of the class the registry is as it was.  On a registry
    of distinct objects, and for one of the nine classes, the rules are
    those of [Registry.set_first_enabled]: the first rule of the class has
    the new flag and a later rule of the class keeps its own. *)
Theorem toggle_sets_the_flag_of_one_object (b : bool) ref r :
  let r' := if b then enable_parser r ref else disable_parser r ref in
  parsers r' = parsers r
  ∧ (∀ p, class (object r' p) = class (object r p)
          ∧ priority (object r' p) = priority (object r p))
  ∧ (∀ pre first post,
       parsers r = pre ++ first :: post →
       isinstance (object r first) ref = true →
       (∀ q, q ∈ pre → isinstance (object r q) ref = false) →
       get_parser r ref = Some first
       ∧ get_parser r' ref = Some first
       ∧ object r' first = set_enabled b (object r first)
       ∧ (∀ p, p ≠ first → object r' p = object r p)
       ∧ rules r'
         = (fun p => if bool_decide (p = first) then set_enabled b (object r p)
                     else object r p) <$> parsers r)
  ∧ ((∀ q, q ∈ parsers r → isinstance (object r q) ref = false) → r' = r)
  ∧ (∀ cls, ref = Class cls → NoDup (parsers r) →
       rules r' = Registry.set_first_enabled b cls (rules r)).
Proof.
  intros r'.
  assert (Hr' : r' = set_flag b r ref) by by destruct b.
  rewrite Hr'. clear Hr' r'.
  pose proof (find_first (fun p => isinstance (object r p) ref) (parsers r)) as Hfind.
  fold (get_parser r ref) in Hfind.
  split; [|split; [|split; [|split]]].
  - unfold set_flag. by destruct (get_parser r ref).
  - intros p. unfold set_flag. destruct (get_parser r ref) as [first|]; [|done]. simpl.
    destruct (decide (first = p)) as [->|Hne].
    + by rewrite fn_lookup_insert.
    + by rewrite fn_lookup_insert_ne.
  - intros pre first post Hl Hfirst Hpre.
    rewrite (set_flag_at b r ref pre first post) by done. simpl.
    split; [|split; [|split; [|split]]].
    + unfold get_parser. rewrite Hl.
      by rewrite (find_at (fun p => isinstance (object r p) ref)).
    + unfold get_parser. simpl. rewrite Hl. apply find_at.
      * by rewrite fn_lookup_insert.
      * intros q Hq. destruct (decide (first = q)) as [->|Hne].
        -- specialize (Hpre q Hq). congruence.
        -- rewrite fn_lookup_insert_ne by done. by apply Hpre.
    + by rewrite fn_lookup_insert.
    + intros p Hp. by rewrite fn_lookup_insert_ne.
    + unfold rules. simpl. apply list_fmap_ext. intros i p _. case_bool_decide as Hp.
      * subst p. by rewrite fn_lookup_insert.
      * by rewrite fn_lookup_insert_ne.
  - intros Hnone. unfold set_flag, get_parser.
    by rewrite (find_none (fun p => isinstance (object r p) ref)).
  - intros cls -> Hnd. unfold set_flag. destruct (get_parser r (Class cls)) as [first|].
    + destruct Hfind as (pre & post & Hl & Hfirst & Hpre). unfold rules. simpl.
      rewrite Hl in Hnd |- *. apply NoDup_app in Hnd as (_ & Hout & Hnd).
      apply NoDup_cons in Hnd as [Hpost _].
      assert (Hin : first ∉ pre).
      { intros Hin. specialize (Hpre _ Hin). congruence. }
      rewrite !fmap_app, !fmap_cons, fn_lookup_insert, !fmap_insert_away by done.
      symmetry. apply RegistryMore.set_first_enabled_split;
        [by apply bool_decide_eq_true in Hfirst|].
      intros y (q & -> & Hq)%list_elem_of_fmap.
      specialize (Hpre q Hq). by apply bool_decide_eq_false in Hpre.
    + symmetry. apply set_class_none. unfold rules.
      intros y (q & -> & Hq)%list_elem_of_fmap.
      specialize (Hfind q Hq). by apply bool_decide_eq_false in Hfind.
Qed.

(** X6.  [unregister] removes from the list every instance of the class, base
    classes included, and nothing else, in the order the rest had; no object
    changes.  After it [get_parser] of the class finds nothing, and
    [get_parser] of another class finds its first instance that was not
    removed: the same as before for two of the nine classes, which share no
    instance.  [unregister] of [LineParser] empties the registry.  On the
    rules, [register] and, for one of the nine classes, [unregister] are
    those of the list of rules. *)
Theorem unregister_removes_the_instances ref r :
  let r' := unregister r ref in
  object r' = object r
  ∧ get_parser r' ref = None
  ∧ (∀ p, p ∈ parsers r' ↔ p ∈ parsers r ∧ isinstance (object r p) ref = false)
  ∧ parsers r' `sublist_of` parsers r
  ∧ (∀ other,
       get_parser r' other
       = List.find (fun p => isinstance (object r p) other
                             && negb (isinstance (object r p) ref)) (parsers r))
  ∧ (∀ cls other, ref = Class cls → cls ≠ other →
       get_parser r' (Class other) = get_parser r (Class other))
  ∧ (ref = LineParser → parsers r' = [])
  ∧ (StronglySorted Registry.by_priority (rules r) →
       StronglySorted Registry.by_priority (rules r'))
  ∧ (∀ cls, ref = Class cls → rules r' = Registry.unregister (rules r) cls)
  ∧ (∀ p, rules (register r p) = Registry.register (rules r) (object r p)).
Proof.
  intros r'. subst r'.
  assert (Hmem : ∀ p, p ∈ parsers (unregister r ref)
                      ↔ p ∈ parsers r ∧ isinstance (object r p) ref = false).
  { intros p. unfold unregister. simpl.
    by rewrite !list_elem_of_In, filter_In, negb_true_iff. }
  assert (Hother : ∀ other,
    get_parser (unregister r ref) other
    = List.find (fun p => isinstance (object r p) other
                          && negb (isinstance (object r p) ref)) (parsers r)).
  { intros other. unfold get_parser, unregister. simpl.
    generalize (parsers r). intros l. induction l as [|q l IH]; simpl; [done|].
    destruct (isinstance (object r q) ref); simpl.
    - by rewrite andb_false_r.
    - rewrite andb_true_r. by destruct (isinstance (object r q) other). }
  split; [done|]. split; [|split; [done|split; [|split; [done|split; [|split; [|split; [|split]]]]]]].
  - unfold get_parser. apply find_none. intros q Hq. by apply Hmem in Hq as [_ Hq].
  - unfold unregister. simpl. generalize (parsers r). intros l.
    induction l as [|q l IH]; simpl; [constructor|]. destruct (negb _); by constructor.
  - intros cls other -> Hne. rewrite Hother. unfold get_parser.
    generalize (parsers r). intros l. induction l as [|q l IH]; simpl; [done|].
    destruct (decide (class (object r q) = other)) as [Ho|Ho].
    + rewrite (bool_decide_eq_true_2 _ Ho), bool_decide_eq_false_2 by congruence. done.
    + by rewrite (bool_decide_eq_false_2 _ Ho).
  - intros ->. unfold unregister. simpl. generalize (parsers r). intros l. by induction l.
  - unfold rules, unregister. simpl. generalize (parsers r). intros l. induction l as [|q l IH]; simpl; [done|].
    intros Hs. apply StronglySorted_inv in Hs as [Hs Hq].
    destruct (negb _); [|by apply IH]. rewrite fmap_cons. constructor; [by apply IH|].
    apply Forall_forall. intros y (z & -> & Hz)%list_elem_of_fmap.
    rewrite Forall_forall in Hq. apply Hq, list_elem_of_fmap. exists z. split; [done|].
    apply list_elem_of_In, filter_In in Hz as [Hz _]. by apply list_elem_of_In.
  - intros cls ->. unfold rules, unregister, Registry.unregister. simpl.
    generalize (parsers r). intros l. induction l as [|q l IH]; simpl; [done|].
    destruct (negb _); [|done]. by rewrite fmap_cons, IH.
  - intros p. unfold rules, register, Registry.register. simpl.
    by rewrite rules_sort, fmap_app.
Qed.

End WithContext.
End ObjectFacts.

(** ** More on the image finalize step *)

Module ImagesMore.
Import Py Render Base Images Invariants.

Section Fetch.
Variable fetch : str -> response.
Variable sha256 : bytes -> str.

Abbreviation fetch_one := (fetch_one fetch sha256).
Abbreviation fetch_all := (fetch_all fetch sha256).

Implicit Types (st : progress) (pending pre post : list (nat * str)).

Lemma index_inv_start : index_inv [] start.
Proof.
  split; simpl; try done.
  - intros l Hl. by apply elem_of_nil in Hl.
  - intros l [k Hk]. by rewrite lookup_empty in Hk.
Qed.

Lemma index_inv_step pre st l u :
  index_inv pre st → index_inv (pre ++ [(l, u)]) (fetch_one st (l, u)).
Proof.
  intros [Hc Hr Hh Ht Ho He Hn].
  assert (Hin : ∀ l', l' ∈ (pre ++ [(l, u)]).*1 ↔ l' ∈ pre.*1 ∨ l' = l).
  { intros l'. rewrite fmap_app, elem_of_app. simpl. rewrite list_elem_of_singleton. tauto. }
  assert (Hlen : length (pre ++ [(l, u)]) = S (length pre)).
  { rewrite length_app. simpl. lia. }
  unfold Images.fetch_one.
  destruct (fetch u) as [b|e];
    [destruct (hash_to_final_index st !! sha256 b) as [k0|] eqn:Hk0|].
  - split; simpl; try done.
    + intros l' k. rewrite lookup_insert. case_decide; [|apply Hr].
      intros [= <-]. by eapply Hh.
    + intros l' Hl'. apply Hin in Hl' as [Hl'| ->].
      * rewrite lookup_insert. case_decide; [by eexists|by apply Ht].
      * rewrite lookup_insert_eq. by eexists.
    + intros l'. rewrite lookup_insert. case_decide as Hd.
      * intros _. apply Hin. by right.
      * intros Hs. apply Hin. left. by apply Ho.
    + lia.
  - split; simpl.
    + rewrite length_app. simpl. lia.
    + intros l' k. rewrite length_app. simpl. rewrite lookup_insert.
      case_decide; [intros [= <-]; lia|]. intros Hk%Hr. lia.
    + intros h k. rewrite length_app. simpl. rewrite lookup_insert.
      case_decide; [intros [= <-]; lia|]. intros Hk%Hh. lia.
    + intros l' Hl'. apply Hin in Hl' as [Hl'| ->].
      * rewrite lookup_insert. case_decide; [by eexists|by apply Ht].
      * rewrite lookup_insert_eq. by eexists.
    + intros l'. rewrite lookup_insert. case_decide as Hd.
      * intros _. apply Hin. by right.
      * intros Hs. apply Hin. left. by apply Ho.
    + rewrite length_app. simpl. lia.
    + intros i e' [[_ Hlk]|[-> <-]]%lookup_snoc_Some; [by apply Hn|]. simpl. lia.
  - split; simpl.
    + rewrite length_app. simpl. lia.
    + intros l' k. rewrite length_app. simpl. rewrite lookup_insert.
      case_decide; [intros [= <-]; lia|]. intros Hk%Hr. lia.
    + intros h k Hk%Hh. rewrite length_app. simpl. lia.
    + intros l' Hl'. apply Hin in Hl' as [Hl'| ->].
      * rewrite lookup_insert. case_decide; [by eexists|by apply Ht].
      * rewrite lookup_insert_eq. by eexists.
    + intros l'. rewrite lookup_insert. case_decide as Hd.
      * intros _. apply Hin. by right.
      * intros Hs. apply Hin. left. by apply Ho.
    + rewrite length_app. simpl. lia.
    + intros i e' [[_ Hlk]|[-> <-]]%lookup_snoc_Some; [by apply Hn|]. simpl. lia.
Qed.

Lemma index_inv_fold pre post st :
  index_inv pre st → index_inv (pre ++ post) (fold_left fetch_one post st).
Proof.
  revert pre st. induction post as [|[l u] post IH]; intros pre st Hinv; simpl.
  - by rewrite app_nil_r.
  - rewrite (assoc_L _ pre [(l, u)] post : pre ++ (l, u) :: post = (pre ++ [(l, u)]) ++ post).
    apply IH. by apply index_inv_step.
Qed.

Lemma index_inv_all pending : index_inv pending (fetch_all pending).
Proof. apply (index_inv_fold [] pending start), index_inv_start. Qed.

Lemma resolved pending l :
  l ∈ pending.*1 →
  ∃ f, index_map (fetch_all pending) !! l = Some (S f)
       ∧ (S f <= length (output_entries (fetch_all pending)))%nat.
Proof.
  intros Hl. destruct (index_inv_all pending) as [_ Hr _ Ht _ _ _].
  destruct (Ht l Hl) as [k Hk]. pose proof (Hr l k Hk) as Hrange.
  destruct k as [|f]; [lia|]. exists f. split; [done|lia].
Qed.

Lemma some_entry pending : pending ≠ [] → output_entries (fetch_all pending) ≠ [].
Proof.
  destruct pending as [|[l u] pending]; [done|]. intros _ Hnil.
  destruct (resolved ((l, u) :: pending) l) as (f & _ & Hle).
  { apply list_elem_of_here. }
  rewrite Hnil in Hle. simpl in Hle. lia.
Qed.

(** X7.  No reference dangles.  After the loop every pending local index has a
    final index, every final index in [index_map] is the number of an output
    entry, none is 0, no local index appears that was not pending, and there
    are at most as many output entries as pending images, at least one if any
    image is pending. *)
Theorem every_reference_resolves (pending : list (nat * str)) :
  let st := fetch_all pending in
  (∀ l u, (l, u) ∈ pending →
     ∃ k e, index_map st !! l = Some (S k)
            ∧ output_entries st !! k = Some e ∧ final_index e = S k)
  ∧ (∀ l k, index_map st !! l = Some k →
       l ∈ pending.*1 ∧ (1 <= k <= length (output_entries st))%nat)
  ∧ (length (output_entries st) <= length pending)%nat
  ∧ (pending ≠ [] → output_entries st ≠ []).
Proof.
  intros st. pose proof (index_inv_all pending) as [Hc Hr Hh Ht Ho He Hn].
  fold st in Hc, Hr, Hh, Ht, Ho, He, Hn.
  split; [|split; [|split; [done|apply some_entry]]].
  - intros l u Hin.
    destruct (resolved pending l) as (f & Hf & Hle).
    { apply list_elem_of_fmap. by exists (l, u). }
    destruct (lookup_lt_is_Some_2 (output_entries st) f) as [e He']; [unfold st; lia|].
    exists f, e. split; [done|]. split; [done|]. by apply Hn.
  - intros l k Hk. split; [|by eapply Hr]. apply Ho. by eexists.
Qed.

End Fetch.
End ImagesMore.

(** ** The document along a session *)

Module DocumentFacts.
Import Py Render Base Images Rules Assembler Invariants Session Fetchers PyMore.

Implicit Types (d : document) (p : paragraph) (runs : list (nat * nat)).

Lemma set_run_text_same d h t k :
  d !! h = Some (Para k [Text t]) → set_run_text d h t = d.
Proof.
  intros Hh. unfold set_run_text. apply list_eq. intros i.
  destruct (decide (i = h)) as [->|Hne].
  - by rewrite list_lookup_alter_eq, Hh.
  - by rewrite list_lookup_alter_ne.
Qed.

(** With every placeholder at its final number already, [renumber] changes
    nothing. *)
Lemma renumber_id im runs d :
  (∀ k h f, (k, h) ∈ runs → im !! k = Some (S f) → shows d h (S f)) →
  renumber im runs d = d.
Proof.
  induction runs as [|[k h] runs IH]; intros Hall; simpl; [done|].
  assert (Hrest : ∀ k h f, (k, h) ∈ runs → im !! k = Some (S f) → shows d h (S f)).
  { intros k' h' f' Hin. apply Hall. by apply list_elem_of_further. }
  destruct (im !! k) as [[|f]|] eqn:Hk; try by apply IH.
  rewrite (set_run_text_same d h _ ImageReference); [by apply IH|].
  apply (Hall k h f); [apply list_elem_of_here|done].
Qed.

Lemma renumber_other im runs d h :
  h ∉ runs.*2 → renumber im runs d !! h = d !! h.
Proof.
  revert d. induction runs as [|[k0 h0] runs IH]; intros d Hh; simpl; [done|].
  rewrite fmap_cons, not_elem_of_cons in Hh. destruct Hh as [Hne Hh]. simpl in Hne.
  destruct (im !! k0) as [[|f]|]; rewrite IH by done; try done.
  unfold set_run_text. by rewrite list_lookup_alter_ne.
Qed.

(** After [renumber], a placeholder whose local index has a final index
    shows it. *)
Lemma renumber_shows im runs d k h f :
  NoDup runs.*2 → (k, h) ∈ runs → placeholder_at d h → im !! k = Some (S f) →
  shows (renumber im runs d) h (S f).
Proof.
  revert d. induction runs as [|[k0 h0] runs IH]; intros d Hnd Hin Hp Hk; simpl.
  - by apply elem_of_nil in Hin.
  - rewrite fmap_cons in Hnd. apply NoDup_cons in Hnd as [Hfresh Hnd]. simpl in Hfresh.
    apply elem_of_cons in Hin as [[= <- <-]|Hin].
    + rewrite Hk. unfold shows. rewrite renumber_other by done.
      destruct Hp as [t Ht]. unfold set_run_text.
      by rewrite list_lookup_alter_eq, Ht.
    + assert (Hne : h ≠ h0).
      { intros ->. apply Hfresh. apply list_elem_of_fmap. by exists (k, h0). }
      destruct (im !! k0) as [[|f0]|]; try by apply IH.
      apply IH; try done. destruct Hp as [t Ht]. exists t.
      unfold set_run_text. by rewrite list_lookup_alter_ne.
Qed.

Lemma add_entries_app outs d more :
  fold_left add_entry outs (d ++ more) = d ++ fold_left add_entry outs more.
Proof.
  revert more. induction outs as [|e outs IH]; intros more; simpl; [done|].
  destruct e; simpl; rewrite <- app_assoc; apply IH.
Qed.

Lemma add_entries_length outs d :
  (length d + length outs <= length (fold_left add_entry outs d))%nat.
Proof.
  revert d. induction outs as [|e outs IH]; intros d; simpl; [lia|].
  etrans; [|apply IH]. destruct e; simpl; rewrite length_app; simpl; lia.
Qed.

Lemma dict_set_fresh {V} (k : nat) (v : V) (d : list (nat * V)) :
  k ∉ d.*1 → dict_set k v d = d ++ [(k, v)].
Proof.
  induction d as [|[k' v'] d IH]; intros Hk; simpl; [done|].
  rewrite fmap_cons, not_elem_of_cons in Hk. destruct Hk as [Hne Hk]. simpl in Hne.
  destruct (Nat.eqb_spec k' k) as [->|_]; [done|]. by rewrite IH.
Qed.

(** [renumber] leaves what is before the first handle. *)
Lemma renumber_prefix im runs b d :
  Forall (fun kh => (length b <= kh.2)%nat) runs →
  b `prefix_of` d → b `prefix_of` renumber im runs d.
Proof.
  intros Hfrom [x ->]. exists (drop (length b) (renumber im runs (b ++ x))).
  rewrite <- (take_drop (length b) (renumber im runs (b ++ x))) at 1. f_equal.
  apply list_eq. intros i. destruct (decide (i < length b)%nat) as [Hi|Hi].
  - rewrite lookup_take_lt by done. rewrite renumber_other.
    + by rewrite lookup_app_l.
    + intros Hin. apply list_elem_of_fmap in Hin as ([k h] & -> & Hin).
      rewrite Forall_forall in Hfrom. specialize (Hfrom _ Hin). simpl in *. lia.
  - rewrite lookup_take_ge by lia. symmetry. apply lookup_ge_None. lia.
Qed.

(** *** The keys of the registry *)

Lemma set_first_enabled_keys b cls (reg : list (rule context)) :
  key <$> Registry.set_first_enabled b cls reg = key <$> reg.
Proof.
  induction reg as [|q reg IH]; simpl; [done|].
  destruct (bool_decide _); [done|]. by rewrite !fmap_cons, IH.
Qed.

Lemma keys_bound (q q' : rule context) (l l' : list (rule context)) :
  priority q' = priority q → key <$> l = key <$> l' →
  Forall (Registry.by_priority q) l → Forall (Registry.by_priority q') l'.
Proof.
  intros Hq Heq Hall. revert l' Heq.
  induction Hall as [|r l Hr _ IH]; intros [|r' l'] Heq; try done.
  rewrite !fmap_cons in Heq. injection Heq as Hc Hp Heq. constructor; [|by apply IH].
  unfold Registry.by_priority in *. lia.
Qed.

Lemma keys_sorted (l l' : list (rule context)) :
  key <$> l = key <$> l' →
  StronglySorted Registry.by_priority l → StronglySorted Registry.by_priority l'.
Proof.
  intros Heq Hs. revert l' Heq. induction Hs as [|q l Hs IH Hq]; intros [|q' l'] Heq; try done.
  - constructor.
  - rewrite !fmap_cons in Heq. injection Heq as Hc Hp Heq. constructor; [by apply IH|].
    by apply (keys_bound q q' l l').
Qed.

Lemma keys_same_priority k (l l' : list (rule context)) :
  key <$> l = key <$> l' →
  class <$> filter (Registry.same_priority k) l
  = class <$> filter (Registry.same_priority k) l'.
Proof.
  revert l'. induction l as [|q l IH]; intros [|q' l'] Heq; try done.
  rewrite !fmap_cons in Heq. injection Heq as Hc Hp Heq.
  rewrite !filter_cons. specialize (IH l' Heq).
  repeat case_decide; unfold Registry.same_priority in *; try congruence.
  by rewrite !fmap_cons, Hc, IH.
Qed.

Section Fetch.
Variable fetch : str -> response.
Variable sha256 : bytes -> str.

Abbreviation standard := (standard fetch sha256).
Abbreviation append_images := (append_images fetch sha256).
Abbreviation image_finalize := (image_finalize fetch sha256).
Abbreviation fetch_all := (fetch_all fetch sha256).

Implicit Types (c : context) (reg : list (rule context)) (st : image_state).

(** *** [append_images] *)

Lemma append_images_doc c :
  asm_images_to_append c ≠ [] →
  doc (append_images c)
  = renumber (index_map (fetch_all (asm_images_to_append c)))
      (asm_image_reference_runs c) (doc c)
    ++ image_section (fetch_all (asm_images_to_append c)).
Proof.
  intros Hne. unfold Images.append_images.
  destruct (asm_images_to_append c) as [|x pending] eqn:Hp; [done|].
  pose proof (ImagesMore.some_entry fetch sha256 (x :: pending)) as Hsome.
  destruct (output_entries _) as [|e outs] eqn:Ho; [by exfalso; apply Hsome|].
  cbn [doc with_doc]. unfold image_section. rewrite Ho.
  rewrite <- app_assoc. by rewrite add_entries_app.
Qed.

Lemma append_images_same c :
  same_settings c (append_images c) ∧ same_queue c (append_images c)
  ∧ ImageParser_state (append_images c) = ImageParser_state c
  ∧ DecisionParser_state (append_images c) = DecisionParser_state c
  ∧ skipped_lines (append_images c) = skipped_lines c.
Proof.
  unfold Images.append_images. destruct (asm_images_to_append c); [by repeat split|].
  destruct (output_entries _); by repeat split.
Qed.

Lemma append_images_none c :
  asm_images_to_append c = [] → append_images c = c.
Proof. intros H. unfold Images.append_images. by rewrite H. Qed.

Lemma append_images_prefix b c :
  Forall (fun kh => (length b <= kh.2)%nat) (asm_image_reference_runs c) →
  b `prefix_of` doc c → b `prefix_of` doc (append_images c).
Proof.
  intros Hfrom Hpre. destruct (asm_images_to_append c) as [|x l] eqn:Hp.
  - by rewrite append_images_none.
  - rewrite append_images_doc by (by rewrite Hp).
    apply prefix_app_r. by apply renumber_prefix.
Qed.

(** *** One rule on one line *)

Lemma text_step_refl c : text_step c c.
Proof.
  split; try done. exists []. split; [by rewrite app_nil_r|constructor].
Qed.

Lemma add_sound_effect_appends d text :
  ∃ more, (add_sound_effect d text).1 = d ++ more ∧ Forall text_para more.
Proof.
  assert (Hadd : ∃ more, (_add_sound_effect_paragraph d text).1 = d ++ more
                         ∧ Forall text_para more).
  { eexists. split; [done|]. repeat constructor. }
  unfold add_sound_effect. destruct (Re.found _); [done|].
  destruct (Re.found _); [|done].
  exists []. split; [by rewrite app_nil_r|constructor].
Qed.

Lemma emit_sound_step c text : text_step c (emit_sound c text).
Proof.
  destruct (add_sound_effect_appends (doc c) text) as (more & Hd & Hk).
  split; try done. by exists more.
Qed.

Ltac text_step_tac :=
  split; try done;
  cbn [doc with_doc with_decision_state];
  unfold add_decision, add_predicate_header, add_scene_timestamp, add_scene_title,
    add_narration, add_dialogue;
  rewrite <- ?app_assoc;
  first [ exists []; split; [by rewrite app_nil_r|constructor]
        | eexists; split; [reflexivity|];
          repeat constructor ].

(** [parse] of a standard rule is a step of the text, or the step of the
    image rule. *)
Lemma parse_steps (p : rule context) line c h c' :
  standard p → parse p line c = Some (h, c') →
  text_step c c' ∨ (class p = ImageParser ∧ image_step c c').
Proof.
  intros [] Hp; simpl in Hp.
  - injection Hp as <- <-. left. apply text_step_refl.
  - unfold image_parse in Hp.
    destruct (Re.search _ _); [|injection Hp as <- <-; left; apply text_step_refl].
    destruct (image_map c !! _) as [url|] eqn:Hm;
      [|injection Hp as <- <-; left; apply text_step_refl].
    destruct (ImageParser_state c) as [st|] eqn:Hst; [|done].
    injection Hp as <- <-. right. split; [done|]. eexists st, _, url.
    split; [done|]. split; [exact Hm|done].
  - left. unfold decision_parse in Hp.
    destruct (Re.search _ _); [|injection Hp as <- <-; apply text_step_refl].
    destruct (DecisionParser_state c); [|done]. injection Hp as <- <-. text_step_tac.
  - left. unfold predicate_parse in Hp.
    destruct (Re.search _ _); [|injection Hp as <- <-; apply text_step_refl].
    injection Hp as <- <-. destruct (bool_decide _); text_step_tac.
  - left. unfold scene_parse in Hp.
    destruct (Re.search _ _); injection Hp as <- <-; [text_step_tac|apply text_step_refl].
  - left. unfold subtitle_parse in Hp.
    destruct (Re.search _ _); injection Hp as <- <-; [text_step_tac|apply text_step_refl].
  - left. unfold dialogue_parse in Hp.
    destruct (Re.rmatch _ _); [|destruct (Re.search _ _)]; injection Hp as <- <-;
      [text_step_tac|text_step_tac|apply text_step_refl].
  - left. unfold sound_parse in Hp.
    destruct (_ && _); [injection Hp as <- <-; apply emit_sound_step|].
    destruct (startswith _ _); [|injection Hp as <- <-; apply text_step_refl].
    destruct (Re.search _ _); [injection Hp as <- <-; apply emit_sound_step|].
    destruct (match Re.rmatch _ _ with Some _ => _ | None => _ end);
      injection Hp as <- <-; [apply text_step_refl|apply emit_sound_step].
  - left. unfold narration_parse in Hp.
    destruct (Re.found _); injection Hp as <- <-; [text_step_tac|apply text_step_refl].
Qed.

(** What [dispatch] returns is what one enabled rule returned, or the
    context as it was. *)
Lemma dispatch_result reg line c h c' :
  (Registry.dispatch reg line c).2 = Some (h, c') →
  (h = false ∧ c' = c)
  ∨ ∃ p : rule context, p ∈ reg ∧ enabled p = true ∧ can_parse p line c = true
         ∧ parse p line c = Some (h, c').
Proof.
  induction reg as [|p reg IH]; simpl; intros Hd.
  - injection Hd as <- <-. by left.
  - destruct (enabled p) eqn:He; simpl in Hd.
    + destruct (can_parse p line c) eqn:Hc.
      * right. exists p. split; [apply list_elem_of_here|done].
      * destruct (Registry.dispatch reg line c) as [calls r]. simpl in *.
        destruct (IH Hd) as [?|(q & Hq & ?)]; [by left|].
        right. exists q. split; [by apply list_elem_of_further|done].
    + destruct (IH Hd) as [?|(q & Hq & ?)]; [by left|].
      right. exists q. split; [by apply list_elem_of_further|done].
Qed.

Lemma image_enabled_elem reg (p : rule context) :
  p ∈ reg → enabled p = true → class p = ImageParser → image_enabled reg.
Proof. intros Hin He Hc. apply Exists_exists. by exists p. Qed.

(** One line of [parse_lines]. *)
Lemma parse_raw_steps reg raw c c' :
  Forall standard reg → parse_raw reg c raw = Some c' →
  ∃ c1, (text_step c c1 ∨ (image_enabled reg ∧ image_step c c1))
        ∧ (c' = c1 ∨ c' = with_skipped_lines (skipped_lines c1 ++ [rstrip_chars [10] raw]) c1).
Proof.
  intros Hstd. unfold parse_raw, Registry.parse_line, Registry.parse_line_calls.
  destruct (strip raw) as [|x line] eqn:Hs; simpl.
  - intros [= <-]. exists c. split; [left; apply text_step_refl|by right].
  - destruct (Registry.dispatch reg (x :: line) c).2 as [[h c1]|] eqn:Hd; [|done].
    intros Hc'. exists c1. split.
    + destruct (dispatch_result _ _ _ _ _ Hd) as [[_ ->]|(p & Hin & He & _ & Hp)];
        [left; apply text_step_refl|].
      rewrite Forall_forall in Hstd.
      destruct (parse_steps p _ _ _ _ (Hstd p Hin) Hp) as [?|[Hcl ?]]; [by left|].
      right. split; [by eapply image_enabled_elem|done].
    + destruct h; simpl in Hc'; injection Hc' as <-; [by left|by right].
Qed.

(** *** The loops of [parse_lines] *)

(** What every step of the loop over the lines keeps, the loop keeps. *)
Lemma parse_each_inv (P : context → Prop) reg lines c c' :
  Forall standard reg →
  (∀ c c1, text_step c c1 → P c → P c1) →
  (∀ c c1, image_enabled reg → image_step c c1 → P c → P c1) →
  (∀ c l, P c → P (with_skipped_lines l c)) →
  parse_each reg c lines = Some c' → P c → P c'.
Proof.
  intros Hstd Htext Himage Hskip. revert c.
  induction lines as [|raw lines IH]; intros c; simpl.
  - by intros [= <-].
  - destruct (parse_raw reg c raw) as [c2|] eqn:Hraw; [|done]. intros Hrest HP.
    apply (IH c2 Hrest).
    destruct (parse_raw_steps reg raw c c2 Hstd Hraw) as (c1 & Hstep & Hc2).
    assert (HP1 : P c1) by (destruct Hstep as [?|[? ?]]; eauto).
    destruct Hc2 as [-> | ->]; auto.
Qed.

(** What [finalize] of the image rule keeps, [finalize_all] keeps. *)
Lemma finalize_all_inv (P : context → Prop) reg c :
  Forall standard reg →
  (∀ c, image_enabled reg → P c → P (image_finalize c)) →
  P c → P (Registry.finalize_all reg c).
Proof.
  intros Hstd. revert c. induction Hstd as [|p reg Hp Hstd IH]; intros c Hfin HP; simpl.
  - done.
  - assert (Hrest : ∀ c, image_enabled reg → P c → P (image_finalize c)).
    { intros c1 Hen. apply Hfin. by apply Exists_cons_tl. }
    destruct (enabled p) eqn:He; [|by apply IH].
    apply IH; [done|].
    destruct Hp; simpl; try done.
    apply Hfin; [|done]. apply Exists_cons_hd. by simpl in *.
Qed.

(** [initialize_all] writes the two states, nothing else. *)
Lemma initialize_all_same reg c :
  Forall standard reg →
  let c' := Registry.initialize_all reg c in
  doc c' = doc c ∧ same_settings c c' ∧ same_queue c c'
  ∧ skipped_lines c' = skipped_lines c.
Proof.
  intros Hstd. revert c. induction Hstd as [|p reg Hp _ IH]; intros c; simpl.
  - done.
  - destruct (enabled p); [|apply IH].
    destruct (IH (initialize p c)) as (Hd & [] & [] & Hs).
    destruct Hp; simpl in *; by repeat split.
Qed.

(** *** One call only appends *)

Lemma same_settings_trans c1 c2 c3 :
  same_settings c1 c2 → same_settings c2 c3 → same_settings c1 c3.
Proof. intros [] []. split; congruence. Qed.

Lemma dict_set_Forall {V} (P : nat * V → Prop) k v (d : list (nat * V)) :
  P (k, v) → Forall P d → Forall P (dict_set k v d).
Proof.
  intros Hkv. induction 1 as [|[k' v'] d Hx Hd IH]; simpl; [by repeat constructor|].
  destruct (k' =? k)%nat; by constructor.
Qed.

Lemma call_inv_text reg c0 c c1 : text_step c c1 → call_inv reg c0 c → call_inv reg c0 c1.
Proof.
  intros [(more & Hd & _) Hi Hs _ _] [Hpre Hh Hset]. split.
  - rewrite Hd. by apply prefix_app_r.
  - intros Hen st. rewrite Hi. by apply Hh.
  - by eapply same_settings_trans.
Qed.

Lemma call_inv_image reg c0 c c1 :
  image_enabled reg → image_step c c1 → call_inv reg c0 c → call_inv reg c0 c1.
Proof.
  intros Hen (st & image_id & url & Hst & _ & ->) [Hpre Hh Hset]. split.
  - simpl. by apply prefix_app_r.
  - intros _ st' [= <-]. cbn [image_reference_runs].
    apply dict_set_Forall; [|by apply Hh]. simpl. by apply prefix_length.
  - destruct Hset. by split.
Qed.

Lemma call_inv_skipped reg c0 c l :
  call_inv reg c0 c → call_inv reg c0 (with_skipped_lines l c).
Proof. intros [Hpre Hh []]. by split. Qed.

Lemma call_inv_finalize reg c0 c :
  image_enabled reg → call_inv reg c0 c → call_inv reg c0 (image_finalize c).
Proof.
  intros Hen [Hpre Hh Hset]. unfold Rules.image_finalize.
  destruct (ImageParser_state c) as [st|] eqn:Hst; [|done].
  destruct (images_to_append st) as [|x pending] eqn:Hp; [done|].
  set (c1 := with_asm_images _ _ _ c).
  destruct (append_images_same c1) as ([] & _ & Hi & _). split.
  - apply append_images_prefix; [|done]. simpl. by apply Hh.
  - intros _ st'. rewrite Hi. simpl. by apply Hh.
  - destruct Hset. split; simpl in *; congruence.
Qed.

(** The contexts of the prelude of [parse_lines]. *)
Lemma prelude_doc c title character spacer :
  let c2 :=
    match title with
    | Some ((_ :: _) as title) =>
        let n := default (Base.spacer_lines c) spacer in
        let c := if negb (first_section c)
                 then (if (0 <? n)%Z then add_blank_lines n c else c)
                 else c in
        let c := add_title title character c in
        with_first_section false c
    | _ => c
    end in
  doc c2 = doc c ++ section_header c title character spacer
  ∧ ImageParser_state c2 = ImageParser_state c
  ∧ skipped_lines c2 = skipped_lines c
  ∧ same_queue c c2
  ∧ image_map c2 = image_map c
  ∧ has_main_title c2 = has_main_title c
  ∧ first_section c2 = match title with Some (_ :: _) => false | _ => first_section c end
  ∧ Base.spacer_lines c2 = Base.spacer_lines c.
Proof.
  destruct title as [[|x title]|]; simpl; try by rewrite app_nil_r.
  destruct (first_section c); simpl.
  - by repeat split.
  - destruct (Z.ltb_spec 0 (default (Base.spacer_lines c) spacer)) as [Hn|Hn]; simpl.
    + rewrite <- app_assoc. replace (Z.max 0 _) with (default (Base.spacer_lines c) spacer) by lia.
      by repeat split.
    + replace (Z.to_nat _) with 0%nat by lia. by repeat split.
Qed.

Lemma section_header_same c c' title character spacer :
  same_settings c c' →
  section_header c' title character spacer = section_header c title character spacer.
Proof.
  intros [_ Hf _ Hs _]. unfold section_header. by rewrite Hf, Hs.
Qed.

(** The context that [parse_lines] hands to the loop over the lines, and
    what the loop and [finalize_all] make of it. *)
Lemma parse_lines_run asm lines title character spacer image_map :
  Forall standard (registry asm) →
  ∃ c0 c2 c3,
    c0 = match image_map with
         | Some m => if bool_decide (m = ∅) then ctx asm else with_image_map m (ctx asm)
         | None => ctx asm
         end
    ∧ doc c2 = doc (ctx asm) ++ section_header (ctx asm) title character spacer
    ∧ ImageParser_state c2 = ImageParser_state (Registry.initialize_all (registry asm) c0)
    ∧ skipped_lines c2 = skipped_lines (ctx asm)
    ∧ same_queue (ctx asm) c2
    ∧ Base.image_map c2 = Base.image_map c0
    ∧ has_main_title c2 = has_main_title (ctx asm)
    ∧ first_section c2
      = match title with Some (_ :: _) => false | _ => first_section (ctx asm) end
    ∧ Base.spacer_lines c2 = Base.spacer_lines (ctx asm)
    ∧ ready (registry asm) c2
    ∧ parse_each (registry asm) c2 lines = Some c3
    ∧ parse_lines asm lines title character spacer image_map
      = Some (skipped_lines (Registry.finalize_all (registry asm) c3),
              AssemblerObject (registry asm) (Registry.finalize_all (registry asm) c3)).
Proof.
  intros Hstd. unfold parse_lines.
  set (c0 := match image_map with Some m => _ | None => _ end).
  assert (H0 : doc c0 = doc (ctx asm) ∧ same_queue (ctx asm) c0
               ∧ skipped_lines c0 = skipped_lines (ctx asm)
               ∧ has_main_title c0 = has_main_title (ctx asm)
               ∧ first_section c0 = first_section (ctx asm)
               ∧ Base.spacer_lines c0 = Base.spacer_lines (ctx asm)).
  { unfold c0. destruct image_map as [m|]; [|done]. by destruct (bool_decide _). }
  destruct H0 as (Hd0 & Hq0 & Hs0 & Hm0 & Hf0 & Hsp0).
  destruct (SessionFacts.initialize_all_ready fetch sha256 (registry asm) c0 Hstd) as [Hk1 Hr1].
  destruct (initialize_all_same (registry asm) c0 Hstd) as (Hd1 & Hset1 & Hq1 & Hs1).
  set (c1 := Registry.initialize_all (registry asm) c0) in *.
  pose proof (prelude_doc c1 title character spacer) as Hpre. cbv zeta in Hpre.
  set (c2 := match title with Some (_ :: _ as title0) => _ | _ => c1 end) in *.
  destruct Hpre as (Hd2 & Hi2 & Hs2 & Hq2 & Hm2 & Hh2 & Hf2 & Hsp2).
  assert (Hr2 : ready (registry asm) c2).
  { assert (Hst : ImageParser_state c2 = ImageParser_state c1
                  ∧ DecisionParser_state c2 = DecisionParser_state c1).
    { unfold c2. destruct title as [[|x t]|]; try done.
      destruct (negb _); [destruct (_ <? _)%Z|]; done. }
    destruct Hst as [Hi Hd].
    apply (SessionFacts.ready_states (registry asm) c1 c2); [by rewrite Hi|by rewrite Hd|done]. }
  destruct (SessionFacts.parse_each_standard fetch sha256 (registry asm) lines c2 Hstd Hr2)
    as (c3 & Hc3 & _).
  exists c0, c2, c3. rewrite Hc3. repeat split; try done.
  - rewrite Hd2, Hd1, Hd0. f_equal.
    assert (Hsame : section_header c1 title character spacer
                    = section_header c0 title character spacer)
      by (by apply section_header_same).
    rewrite Hsame. unfold section_header. by rewrite Hf0, Hsp0.
  - by rewrite Hs2, Hs1.
  - destruct Hq0, Hq1, Hq2. congruence.
  - destruct Hq0, Hq1, Hq2. congruence.
  - destruct Hq0, Hq1, Hq2. congruence.
  - rewrite Hm2. by destruct Hset1.
  - rewrite Hh2. destruct Hset1. congruence.
  - rewrite Hf2. destruct title as [[|x t]|]; try done; destruct Hset1; congruence.
  - rewrite Hsp2. destruct Hset1. congruence.
Qed.

Lemma call_inv_start reg c :
  (image_enabled reg → ImageParser_state c = Some (ImageState 0 [] [])) →
  call_inv reg c c.
Proof.
  intros Hst. split; [done| |done]. intros Hen st. rewrite (Hst Hen). intros [= <-].
  constructor.
Qed.

Lemma call_inv_run reg lines c2 c3 :
  Forall standard reg →
  (image_enabled reg → ImageParser_state c2 = Some (ImageState 0 [] [])) →
  parse_each reg c2 lines = Some c3 →
  call_inv reg c2 (Registry.finalize_all reg c3).
Proof.
  intros Hstd Hst Hrun.
  apply finalize_all_inv; [done|apply call_inv_finalize|].
  exact (parse_each_inv (call_inv reg c2) reg lines c2 c3 Hstd
           (call_inv_text reg c2) (call_inv_image reg c2) (call_inv_skipped reg c2)
           Hrun (call_inv_start reg c2 Hst)).
Qed.

(** X8.  A call of [parse_lines] only adds paragraphs at the end of the document:
    the header of the section (the spacer, unless the section is the first
    one, and the title), then what the lines and the images give.  No
    paragraph of an earlier call is touched. *)
Theorem parse_lines_only_appends (asm : assembler) (lines : list str)
    (title character : option str) (spacer : option Z) (image_map : option (gmap str str)) :
  Forall standard (registry asm) →
  ∃ skipped asm' body,
    parse_lines asm lines title character spacer image_map = Some (skipped, asm')
    ∧ doc (ctx asm')
      = doc (ctx asm) ++ section_header (ctx asm) title character spacer ++ body
    ∧ first_section (ctx asm')
      = match title with Some (_ :: _) => false | _ => first_section (ctx asm) end
    ∧ has_main_title (ctx asm') = has_main_title (ctx asm)
    ∧ registry asm' = registry asm.
Proof.
  intros Hstd.
  destruct (parse_lines_run asm lines title character spacer image_map Hstd)
    as (c0 & c2 & c3 & Hc0 & Hd2 & Hi2 & Hs2 & Hq2 & Hm2 & Hh2 & Hf2 & Hsp2 & Hr2 & Hrun & ->).
  assert (Hinv : call_inv (registry asm) c2 (Registry.finalize_all (registry asm) c3)).
  { apply (call_inv_run _ lines); [done| |done]. intros Hen. rewrite Hi2.
    by apply (SessionFacts.initialize_all_resets fetch sha256). }
  destruct Hinv as [[body Hbody] _ []].
  eexists _, _, body. split; [done|]. simpl.
  rewrite Hbody, Hd2, <- app_assoc. repeat split; congruence.
Qed.

(** *** The placeholders of a call *)

Lemma shows_app d more h k : shows d h k → shows (d ++ more) h k.
Proof. unfold shows. intros H. by apply lookup_app_l_Some. Qed.

Lemma placeholders_app d more st : placeholders d st → placeholders (d ++ more) st.
Proof. intros [H1 H2 H3 H4]. split; try done. intros k h Hin. by apply shows_app, H4. Qed.

Lemma placed_text c c1 : text_step c c1 → placed c → placed c1.
Proof.
  intros [(more & Hd & _) Hi _ _ _] (st & Hst & Hph). exists st.
  split; [by rewrite Hi|]. rewrite Hd. by apply placeholders_app.
Qed.

Lemma placed_image c c1 : image_step c c1 → placed c → placed c1.
Proof.
  intros (st & image_id & url & Hst & _ & ->) (st' & Hst' & [Hpend Hkeys Hnd Hshows]).
  rewrite Hst in Hst'. injection Hst' as <-.
  eexists. split; [done|]. cbn [doc with_doc with_image_state].
  assert (Hfresh : S (image_counter st) ∉ (image_reference_runs st).*1).
  { rewrite Hkeys, elem_of_seq. lia. }
  rewrite (dict_set_fresh _ _ _ Hfresh).
  assert (Hlt : ∀ h, h ∈ (image_reference_runs st).*2 → (h < length (doc c))%nat).
  { intros h Hin. apply list_elem_of_fmap in Hin as ([k h'] & -> & Hin).
    apply Hshows in Hin. by apply lookup_lt_Some in Hin. }
  split; cbn [image_counter image_reference_runs images_to_append].
  - by rewrite fmap_app, Hpend, seq_S.
  - by rewrite fmap_app, Hkeys, seq_S.
  - rewrite fmap_app. apply NoDup_app. split; [done|]. split; [|apply NoDup_singleton].
    intros h Hin Hh. apply list_elem_of_singleton in Hh. simpl in Hh.
    apply Hlt in Hin. lia.
  - intros k h [Hin|Hin]%elem_of_app.
    + by apply shows_app, Hshows.
    + apply list_elem_of_singleton in Hin. injection Hin as -> ->.
      unfold shows. by rewrite lookup_app_r, Nat.sub_diag by lia.
Qed.

Lemma placed_skipped c l : placed c → placed (with_skipped_lines l c).
Proof. intros (st & Hst & Hph). by exists st. Qed.

Lemma placed_run reg lines c2 c3 :
  Forall standard reg → placed c2 → parse_each reg c2 lines = Some c3 → placed c3.
Proof.
  intros Hstd Hp Hrun.
  exact (parse_each_inv placed reg lines c2 c3 Hstd placed_text
           (fun c c1 _ => placed_image c c1) placed_skipped Hrun Hp).
Qed.

Lemma placeholders_runs_nil d st :
  placeholders d st → images_to_append st = [] → image_reference_runs st = [].
Proof.
  intros [Hpend Hkeys _ _] Hnil. rewrite Hnil in Hpend. simpl in Hpend.
  rewrite <- Hpend in Hkeys. by apply fmap_nil_inv in Hkeys.
Qed.

(** [finalize] of the image rule at the end of the lines. *)
Lemma finalize_placed c :
  placed c → ∃ st, finalized fetch sha256 (image_finalize c) st.
Proof.
  intros (st & Hst & Hph). exists st. unfold Rules.image_finalize. rewrite Hst.
  destruct (images_to_append st) as [|x pending] eqn:Hp.
  - pose proof Hph as [Hpend Hkeys Hnd Hshows].
    split; try done. intros k h. by rewrite (placeholders_runs_nil _ _ Hph Hp), elem_of_nil.
  - rewrite <- Hp.
    pose proof Hph as [Hpend Hkeys Hnd Hshows].
    set (c1 := with_asm_images _ _ _ c).
    assert (Hne : asm_images_to_append c1 ≠ []) by (simpl; by rewrite Hp).
    destruct (append_images_same c1) as (_ & [_ Hruns Hq] & Hi & _).
    pose proof (append_images_doc c1 Hne) as Hdoc. simpl in Hdoc.
    split; try done.
    + by rewrite Hi.
    + intros k h Hin.
      assert (Hk : k ∈ (images_to_append st).*1).
      { rewrite Hpend, <- Hkeys. apply list_elem_of_fmap. by exists (k, h). }
      destruct (ImagesMore.resolved fetch sha256 _ _ Hk) as (f & Hf & _).
      exists f. split; [done|]. rewrite Hdoc. apply shows_app.
      apply (renumber_shows _ _ _ k h f Hnd Hin); [|exact Hf].
      eexists. by apply Hshows.
    + intros _. split; [by rewrite Hq|]. split; [by rewrite Hruns|]. by eexists.
Qed.

Lemma finalize_finalized c st :
  finalized fetch sha256 c st → finalized fetch sha256 (image_finalize c) st.
Proof.
  intros Hfin. unfold Rules.image_finalize. rewrite (fin_state _ _ _ _ Hfin).
  destruct (images_to_append st) as [|x pending] eqn:Hp; [done|].
  rewrite <- Hp.
  pose proof Hfin as [Hst Hpend Hkeys Hnd Hshows Hasm].
  set (c1 := with_asm_images _ _ _ c).
  assert (Hne : asm_images_to_append c1 ≠ []) by (simpl; by rewrite Hp).
  destruct (append_images_same c1) as (_ & [_ Hruns Hq] & Hi & _).
  pose proof (append_images_doc c1 Hne) as Hdoc. simpl in Hdoc.
  rewrite renumber_id in Hdoc.
  2:{ intros k h f Hin Hf. destruct (Hshows k h Hin) as (f' & Hf' & Hsh).
      unfold final_of in Hf'. rewrite Hf in Hf'. by injection Hf' as ->. }
  split; try done.
  - by rewrite Hi.
  - intros k h Hin. destruct (Hshows k h Hin) as (f & Hf & Hsh).
    exists f. split; [done|]. rewrite Hdoc. by apply shows_app.
  - intros _. split; [by rewrite Hq|]. split; [by rewrite Hruns|]. by eexists.
Qed.

(** With an enabled image rule, [finalize_all] gets from the one state to
    the other. *)
Lemma finalize_all_reaches (P Q : context → Prop) reg c :
  Forall standard reg → image_enabled reg →
  (∀ c, P c → Q (image_finalize c)) →
  (∀ c, Q c → Q (image_finalize c)) →
  P c → Q (Registry.finalize_all reg c).
Proof.
  intros Hstd Hen HPQ HQ. revert c.
  induction Hstd as [|p reg Hp Hstd IH]; intros c HP; [by apply Exists_nil in Hen|].
  simpl. destruct (enabled p) eqn:He.
  - destruct (decide (class p = ImageParser)) as [Hc|Hc].
    + apply finalize_all_inv; [done|by intros c1 _; apply HQ|].
      destruct Hp; simpl in *; try done. by apply HPQ.
    + apply Exists_cons in Hen as [[_ Hcl]|Hen]; [done|].
      assert (Hid : finalize p c = c) by (destruct Hp; simpl in *; done).
      rewrite Hid. by apply IH.
  - apply Exists_cons in Hen as [[He' _]|Hen]; [congruence|]. by apply IH.
Qed.

(** X9.  After a call with an enabled image rule, every placeholder of the call
    shows the final number of its image: the number of an entry of the image
    section.  The local indices are 1, 2, ... in order, and the placeholders
    are paragraphs of this call. *)
Theorem references_show_final_numbers (asm : assembler) (lines : list str)
    (title character : option str) (spacer : option Z) (image_map : option (gmap str str)) :
  Forall standard (registry asm) → image_enabled (registry asm) →
  ∃ skipped asm' st,
    parse_lines asm lines title character spacer image_map = Some (skipped, asm')
    ∧ ImageParser_state (ctx asm') = Some st
    ∧ (images_to_append st).*1 = seq 1 (image_counter st)
    ∧ (image_reference_runs st).*1 = seq 1 (image_counter st)
    ∧ NoDup (image_reference_runs st).*2
    ∧ ∀ k h, (k, h) ∈ image_reference_runs st →
        ∃ f e, final_of fetch sha256 st k = Some (S f)
               ∧ shows (doc (ctx asm')) h (S f)
               ∧ output_entries (fetch_all (images_to_append st)) !! f = Some e
               ∧ final_index e = S f
               ∧ (length (doc (ctx asm)) <= h)%nat.
Proof.
  intros Hstd Hen.
  destruct (parse_lines_run asm lines title character spacer image_map Hstd)
    as (c0 & c2 & c3 & Hc0 & Hd2 & Hi2 & Hs2 & Hq2 & Hm2 & Hh2 & Hf2 & Hsp2 & Hr2 & Hrun & ->).
  assert (Hst2 : ImageParser_state c2 = Some (ImageState 0 [] [])).
  { rewrite Hi2. by apply (SessionFacts.initialize_all_resets fetch sha256). }
  assert (Hp2 : placed c2).
  { eexists. split; [exact Hst2|]. split; simpl; try done; [constructor|].
    intros k h Hin. by apply elem_of_nil in Hin. }
  pose proof (placed_run _ _ _ _ Hstd Hp2 Hrun) as Hp3.
  assert (Hfin : ∃ st, finalized fetch sha256 (Registry.finalize_all (registry asm) c3) st).
  { apply (finalize_all_reaches placed); try done.
    - apply finalize_placed.
    - intros c [st Hfin]. exists st. by apply finalize_finalized. }
  destruct Hfin as [st [Hst Hpend Hkeys Hnd Hshows _]].
  pose proof (call_inv_run _ lines c2 c3 Hstd (fun _ => Hst2) Hrun) as [_ Hfrom _].
  eexists _, _, st. split; [done|]. simpl. repeat (split; [done|]).
  intros k h Hin. destruct (Hshows k h Hin) as (f & Hf & Hsh).
  assert (Hk : k ∈ (images_to_append st).*1).
  { rewrite Hpend, <- Hkeys. apply list_elem_of_fmap. by exists (k, h). }
  destruct (ImagesMore.resolved fetch sha256 _ _ Hk) as (f' & Hf' & Hle).
  unfold final_of in Hf. rewrite Hf in Hf'. injection Hf' as <-.
  destruct (lookup_lt_is_Some_2 (output_entries (fetch_all (images_to_append st))) f)
    as [e He]; [lia|].
  exists f, e. repeat (split; [done|]). split.
  - destruct (ImagesMore.index_inv_all fetch sha256 (images_to_append st))
      as [_ _ _ _ _ _ Hn]. by apply Hn.
  - specialize (Hfrom Hen st Hst). rewrite Forall_forall in Hfrom.
    specialize (Hfrom _ Hin). simpl in Hfrom. rewrite Hd2, length_app in Hfrom. lia.
Qed.

(** *** The queue of the assembler and the main title *)

Abbreviation queue_final := (queue_final fetch sha256).
Abbreviation queue_section := (queue_section fetch sha256).
Abbreviation kept := (kept fetch sha256).

Lemma main_titles_app d more : main_titles (d ++ more) = main_titles d ++ main_titles more.
Proof. unfold main_titles. apply List.filter_app. Qed.

Lemma main_titles_none d : Forall (fun p => kind p ≠ MainTitle) d → main_titles d = [].
Proof.
  induction 1 as [|p d Hp _ IH]; simpl; [done|]. by rewrite bool_decide_eq_false_2.
Qed.

Lemma main_titles_text more : Forall text_para more → main_titles more = [].
Proof.
  intros H. apply main_titles_none. eapply Forall_impl; [exact H|].
  intros p Hp Hk. unfold text_para, text_kinds in Hp. rewrite Hk in Hp.
  repeat (apply elem_of_cons in Hp as [Hp|Hp]; [done|]). by apply elem_of_nil in Hp.
Qed.

Lemma main_titles_kinds d d' :
  kind <$> d = kind <$> d' → length (main_titles d) = length (main_titles d').
Proof.
  revert d'. induction d as [|p d IH]; intros [|p' d'] Heq; try done.
  injection Heq as Hk Heq. simpl. rewrite Hk.
  destruct (bool_decide _); simpl; by rewrite (IH d').
Qed.

Lemma set_run_text_kinds d h t : kind <$> set_run_text d h t = kind <$> d.
Proof.
  unfold set_run_text. apply list_eq. intros i. rewrite !list_lookup_fmap.
  destruct (decide (i = h)) as [->|Hne].
  - rewrite list_lookup_alter_eq. by destruct (d !! h).
  - by rewrite list_lookup_alter_ne.
Qed.

Lemma renumber_kinds im runs d : kind <$> renumber im runs d = kind <$> d.
Proof.
  revert d. induction runs as [|[k h] runs IH]; intros d; simpl; [done|].
  destruct (im !! k) as [[|f]|]; rewrite IH; try done. apply set_run_text_kinds.
Qed.

Lemma add_entries_kinds outs d :
  Forall (fun p => kind p ≠ MainTitle) d →
  Forall (fun p => kind p ≠ MainTitle) (fold_left add_entry outs d).
Proof.
  revert d. induction outs as [|e outs IH]; intros d Hd; simpl; [done|].
  apply IH. destruct e; simpl; apply Forall_app; split; try done; by repeat constructor.
Qed.

Lemma main_titles_section (s : progress) : main_titles (image_section s) = [].
Proof. apply main_titles_none, add_entries_kinds. by repeat constructor. Qed.

(** A step that adds paragraphs other than main titles at the end, and
    leaves the queue. *)
Lemma kept_append n b c c' more :
  doc c' = doc c ++ more → main_titles more = [] →
  same_queue c c' → has_main_title c' = has_main_title c →
  kept n b c → kept n b c'.
Proof.
  intros Hd Hm [_ Hruns Hq] Hf [Hqf Ht Hb]. split.
  - unfold Invariants.queue_final. rewrite Hq, Hruns. intros Hne k h Hin.
    destruct (Hqf Hne k h Hin) as (f & Hf' & Hsh). exists f. split; [done|].
    rewrite Hd. by apply shows_app.
  - by rewrite Hd, main_titles_app, Hm, app_nil_r.
  - by rewrite Hf.
Qed.

Lemma kept_text n b c c1 : text_step c c1 → kept n b c → kept n b c1.
Proof.
  intros [(more & Hd & Hk) _ [] Hq _]. apply (kept_append n b c c1 more); try done.
  by apply main_titles_text.
Qed.

Lemma kept_image n b c c1 : image_step c c1 → kept n b c → kept n b c1.
Proof.
  intros (st & image_id & url & Hst & _ & ->). eapply kept_append; try done.
Qed.

Lemma kept_skipped n b c l : kept n b c → kept n b (with_skipped_lines l c).
Proof. by apply (kept_append n b c _ []); [simpl; by rewrite app_nil_r| | |]. Qed.

Lemma finalized_queue c st :
  finalized fetch sha256 c st → images_to_append st ≠ [] → queue_final c.
Proof.
  intros [Hst Hpend Hkeys Hnd Hshows Hasm] Hne. destruct (Hasm Hne) as (Hq & Hruns & _).
  unfold Invariants.queue_final. rewrite Hq, Hruns. intros _ k h Hin.
  by apply Hshows.
Qed.

Lemma image_finalize_none c st :
  ImageParser_state c = Some st → images_to_append st = [] → image_finalize c = c.
Proof. intros Hst Hp. unfold Rules.image_finalize. by rewrite Hst, Hp. Qed.

Lemma image_finalize_titles c :
  length (main_titles (doc (image_finalize c))) = length (main_titles (doc c))
  ∧ has_main_title (image_finalize c) = has_main_title c.
Proof.
  unfold Rules.image_finalize. destruct (ImageParser_state c) as [st|]; [|done].
  destruct (images_to_append st) as [|x pending] eqn:Hp; [done|]. rewrite <- Hp.
  set (c1 := with_asm_images _ _ _ c).
  assert (Hne : asm_images_to_append c1 ≠ []) by (simpl; by rewrite Hp).
  destruct (append_images_same c1) as ([] & _). split; [|done].
  rewrite (append_images_doc c1 Hne), main_titles_app, main_titles_section, app_nil_r.
  apply main_titles_kinds, renumber_kinds.
Qed.

Lemma kept_finalize n b c :
  kept n b c ∧ (placed c ∨ ∃ st, finalized fetch sha256 c st) →
  kept n b (image_finalize c)
  ∧ (placed (image_finalize c) ∨ ∃ st, finalized fetch sha256 (image_finalize c) st).
Proof.
  intros [[Hqf Ht Hb] Hstate].
  destruct (image_finalize_titles c) as [Ht' Hb'].
  assert (Hfin : ∃ st, finalized fetch sha256 (image_finalize c) st
                       ∧ (images_to_append st = [] → image_finalize c = c)).
  { destruct Hstate as [Hpl|[st Hfin]].
    - destruct (finalize_placed c Hpl) as [st Hfin]. exists st. split; [done|].
      destruct Hpl as (st' & Hst' & _). intros Hnil.
      assert (Hst : ImageParser_state (image_finalize c) = Some st) by by destruct Hfin.
      unfold Rules.image_finalize in *. rewrite Hst' in *.
      destruct (images_to_append st') as [|x l] eqn:Hp; [done|].
      destruct (append_images_same (with_asm_images (image_counter st')
                  (image_reference_runs st') (x :: l) c)) as (_ & _ & Hi & _).
      rewrite Hi in Hst. simpl in Hst. rewrite Hst' in Hst. injection Hst as ->.
      by rewrite Hnil in Hp.
    - exists st. split; [by apply finalize_finalized|].
      intros Hnil. apply (image_finalize_none c st); [by destruct Hfin|done]. }
  destruct Hfin as (st & Hfin & Hsame). split; [|right; by exists st].
  split; [|congruence|congruence].
  destruct (images_to_append st) as [|x l] eqn:Hp.
  - by rewrite Hsame.
  - apply (finalized_queue _ st Hfin). by rewrite Hp.
Qed.

(** [append_images], called by hand or by [save], adds the section of the
    queue and changes nothing else. *)
Lemma append_images_queue c :
  queue_final c →
  doc (append_images c) = doc c ++ queue_section c ∧ queue_final (append_images c).
Proof.
  intros Hqf. unfold Invariants.queue_section.
  destruct (asm_images_to_append c) as [|x pending] eqn:Hp.
  - rewrite append_images_none by done. by rewrite app_nil_r.
  - rewrite <- Hp.
    assert (Hne : asm_images_to_append c ≠ []) by (by rewrite Hp).
    pose proof (append_images_doc c Hne) as Hdoc.
    rewrite renumber_id in Hdoc.
    2:{ intros k h f Hin Hf. destruct (Hqf Hne k h Hin) as (f' & Hf' & Hsh).
        rewrite Hf in Hf'. by injection Hf' as ->. }
    split; [done|].
    destruct (append_images_same c) as (_ & [_ Hruns Hq] & _).
    unfold Invariants.queue_final. rewrite Hq, Hruns. intros _ k h Hin.
    destruct (Hqf Hne k h Hin) as (f & Hf & Hsh). exists f. split; [done|].
    rewrite Hdoc. by apply shows_app.
Qed.

(** *** One call, then any number of calls *)

Lemma main_titles_header c title character spacer :
  main_titles (section_header c title character spacer) = [].
Proof.
  apply main_titles_none. unfold section_header.
  destruct title as [[|x t]|]; try constructor.
  apply Forall_app. split; [|by repeat constructor].
  destruct (first_section c); [constructor|].
  induction (Z.to_nat _); simpl; by constructor.
Qed.

Lemma parse_lines_kept asm lines title character spacer image_map n b :
  Forall standard (registry asm) → kept n b (ctx asm) →
  ∃ skipped asm',
    parse_lines asm lines title character spacer image_map = Some (skipped, asm')
    ∧ kept n b (ctx asm') ∧ registry asm' = registry asm.
Proof.
  intros Hstd Hk.
  destruct (parse_lines_run asm lines title character spacer image_map Hstd)
    as (c0 & c2 & c3 & Hc0 & Hd2 & Hi2 & Hs2 & Hq2 & Hm2 & Hh2 & Hf2 & Hsp2 & Hr2 & Hrun & ->).
  eexists _, _. split; [done|]. split; [|done]. simpl.
  assert (Hk2 : kept n b c2).
  { apply (kept_append n b (ctx asm) c2 _ Hd2); try done. apply main_titles_header. }
  pose proof (parse_each_inv (kept n b) _ _ _ _ Hstd (kept_text n b)
                (fun c c1 _ => kept_image n b c c1) (kept_skipped n b) Hrun Hk2) as Hk3.
  cut (kept n b (Registry.finalize_all (registry asm) c3)
         ∧ (placed (Registry.finalize_all (registry asm) c3)
            ∨ ∃ st, finalized fetch sha256 (Registry.finalize_all (registry asm) c3) st)
       ∨ kept n b (Registry.finalize_all (registry asm) c3)
         ∧ ¬ image_enabled (registry asm)).
  { by intros [[? _]|[? _]]. }
  apply (finalize_all_inv
           (fun c => kept n b c ∧ (placed c ∨ ∃ st, finalized fetch sha256 c st)
                     ∨ kept n b c ∧ ¬ image_enabled (registry asm))); [done| |].
  - intros c Hen [H|[_ Hno]]; [|done]. left. by apply kept_finalize.
  - destruct (decide (Exists (fun p : rule context => enabled p = true ∧ class p = ImageParser)
                        (registry asm))) as [Hen|Hno]; [|by right].
    left. split; [done|]. left. apply (placed_run (registry asm) lines c2); [done| |done].
    eexists. split.
    + rewrite Hi2. by apply (SessionFacts.initialize_all_resets fetch sha256).
    + split; simpl; try done; [constructor|]. intros k h Hin. by apply elem_of_nil in Hin.
Qed.

Abbreviation perform := (perform fetch sha256).
Abbreviation perform_all := (perform_all fetch sha256).
Abbreviation session := (session fetch sha256).
Abbreviation session_inv := (session_inv fetch sha256).
Abbreviation save := (save fetch sha256).

Lemma session_inv_kept (asm : assembler) :
  session_inv asm ↔
  Forall standard (registry asm)
  ∧ ∃ b : bool, kept (if b then 1%nat else 0%nat) b (ctx asm).
Proof.
  split.
  - intros [Hstd Hq Ht]. split; [done|]. exists (has_main_title (ctx asm)). by split.
  - intros [Hstd (b & [Hq Ht Hb])]. split; try done. unfold titled. by rewrite Hb.
Qed.

Lemma kept_add_main_title text c :
  (∃ b : bool, kept (if b then 1%nat else 0%nat) b c) →
  ∃ b : bool, kept (if b then 1%nat else 0%nat) b (add_main_title text c).
Proof.
  intros (b & Hk). unfold Assembler.add_main_title.
  destruct text as [[|x text]|]; try by exists b.
  destruct (has_main_title c) eqn:Hf; [by exists b|].
  destruct Hk as [Hq Ht Hb]. exists true. split; simpl; [| |done].
  - intros Hne k h Hin. destruct (Hq Hne k h Hin) as (f & Hf' & Hsh).
    exists f. split; [done|]. by apply shows_app.
  - unfold Render.add_main_title. rewrite main_titles_app, length_app, Ht.
    rewrite Hf in Hb. by subst b.
Qed.

Lemma kept_plain n b c more :
  main_titles more = [] → kept n b c → kept n b (with_doc (doc c ++ more) c).
Proof. intros Hm. by apply (kept_append n b c _ more). Qed.

Lemma kept_append_images n b c : kept n b c → kept n b (append_images c).
Proof.
  intros [Hq Ht Hb]. destruct (append_images_queue c Hq) as [Hdoc Hq'].
  destruct (append_images_same c) as ([] & _). split; [done| |congruence].
  rewrite Hdoc, main_titles_app. unfold Invariants.queue_section.
  destruct (asm_images_to_append c); [by rewrite app_nil_r|].
  by rewrite main_titles_section, app_nil_r.
Qed.

(** No call raises, and every call keeps the invariant of the session. *)
Lemma perform_inv asm op :
  session_inv asm → ∃ asm', perform asm op = Some asm' ∧ session_inv asm'.
Proof.
  intros Hinv. apply session_inv_kept in Hinv as [Hstd Hk].
  destruct op as [lines title character spacer images
                 |text title character spacer main_title images
                 |text|title character|n| | | |cls|cls]; simpl.
  - destruct Hk as [b Hk].
    destruct (parse_lines_kept asm lines title character spacer images _ b Hstd Hk)
      as (sk & asm' & -> & Hk' & Hreg).
    exists asm'. split; [done|]. apply session_inv_kept. rewrite Hreg. eauto.
  - unfold parse_text.
    destruct (kept_add_main_title main_title (ctx asm) Hk) as [b Hk1].
    destruct (parse_lines_kept
                (AssemblerObject (registry asm) (add_main_title main_title (ctx asm)))
                (splitlines text) title character spacer images _ b Hstd Hk1)
      as (sk & asm' & -> & Hk' & Hreg).
    exists asm'. split; [done|]. apply session_inv_kept. rewrite Hreg. eauto.
  - eexists. split; [done|]. apply session_inv_kept. split; [done|].
    by apply kept_add_main_title.
  - eexists. split; [done|]. apply session_inv_kept. split; [done|].
    destruct Hk as [b Hk]. exists b. simpl. unfold add_title.
    destruct title; [done|]. by apply kept_plain.
  - eexists. split; [done|]. apply session_inv_kept. split; [done|].
    destruct Hk as [b Hk]. exists b. simpl. apply kept_plain; [|done].
    apply main_titles_none. induction (Z.to_nat _); simpl; by constructor.
  - eexists. split; [done|]. apply session_inv_kept. split; [done|].
    destruct Hk as [b Hk]. exists b. simpl. by apply kept_plain.
  - eexists. split; [done|]. apply session_inv_kept. split; [done|].
    destruct Hk as [b Hk]. exists b. simpl. by apply kept_append_images.
  - eexists. split; [done|]. apply session_inv_kept. split; [done|].
    destruct Hk as [b Hk]. exists b. simpl. by apply kept_append_images.
  - eexists. split; [done|]. apply session_inv_kept. split; [|done].
    by apply (AssemblerFacts.set_first_enabled_standard fetch sha256).
  - eexists. split; [done|]. apply session_inv_kept. split; [|done].
    by apply (AssemblerFacts.set_first_enabled_standard fetch sha256).
Qed.

Lemma perform_all_inv asm ops :
  session_inv asm → ∃ asm', perform_all asm ops = Some asm' ∧ session_inv asm'.
Proof.
  revert asm. induction ops as [|op ops IH]; intros asm Hinv; simpl; [by exists asm|].
  destruct (perform_inv asm op Hinv) as (asm1 & -> & Hinv1). by apply IH.
Qed.

Lemma new_assembler_inv cfg : session_inv (new_assembler fetch sha256 cfg).
Proof.
  split; [apply AssemblerFacts.new_assembler_standard| |reflexivity].
  intros Hne. by simpl in Hne.
Qed.

Lemma session_runs cfg ops : ∃ asm, session cfg ops = Some asm ∧ session_inv asm.
Proof. apply perform_all_inv, new_assembler_inv. Qed.

(** X10.  Whatever the configuration and the calls, in any order and number, no
    call on a [DocumentAssembler] raises: every rule finds the state it
    reads, and the rules stay instances of the nine classes. *)
Theorem session_never_raises (cfg : config) (ops : list operation) :
  ∃ asm, session cfg ops = Some asm ∧ Forall standard (registry asm).
Proof. destruct (session_runs cfg ops) as (asm & Hs & [Hstd _ _]). by exists asm. Qed.

(** X11.  At any point of a session the document has one main title if the flag
    [_has_main_title] is set and none otherwise: a second main title is
    never written. *)
Theorem main_title_is_written_once (cfg : config) (ops : list operation) :
  ∃ asm, session cfg ops = Some asm
         ∧ length (main_titles (doc (ctx asm)))
           = if has_main_title (ctx asm) then 1%nat else 0%nat.
Proof. destruct (session_runs cfg ops) as (asm & Hs & [_ _ Ht]). by exists asm. Qed.

(** *** The skipped lines *)

Lemma can_parse_standard (p : rule context) line c c' :
  standard p → can_parse p line c = can_parse p line c'.
Proof. by intros []. Qed.

Lemma first_taker_same reg line c c' :
  Forall standard reg → first_taker reg c line = first_taker reg c' line.
Proof.
  unfold first_taker. induction 1 as [|p reg Hp _ IH]; simpl; [done|].
  by rewrite (can_parse_standard p line c c' Hp), IH.
Qed.

Lemma skipped_by_same reg raw c c' :
  Forall standard reg → skipped_by reg c raw = skipped_by reg c' raw.
Proof.
  intros Hstd. unfold skipped_by. destruct (strip raw); [done|].
  by rewrite (first_taker_same reg _ c c' Hstd).
Qed.

(** The flag that [parse_line] returns on a line that is not blank. *)
Lemma dispatch_flag reg line c :
  Forall standard reg → ready reg c →
  ∃ c', (Registry.dispatch reg line c).2
        = Some (match first_taker reg c line with
                | None => false
                | Some p => negb (bool_decide (class p = ControlParser))
                end, c')
        ∧ keeps c c'.
Proof.
  intros Hstd Hr. unfold first_taker.
  induction Hstd as [|p reg Hp _ IH]; simpl.
  - exists c. split; [done|apply SessionFacts.keeps_refl].
  - apply Forall_cons in Hr as [Hn Hr]. destruct (enabled p) eqn:He; simpl; [|by apply IH].
    destruct (can_parse p line c) eqn:Hc; simpl.
    + destruct (decide (class p = ControlParser)) as [Hcl|Hcl].
      * rewrite bool_decide_eq_true_2 by done. simpl.
        exists c. split; [|apply SessionFacts.keeps_refl]. by destruct Hp.
      * rewrite bool_decide_eq_false_2 by done. simpl.
        destruct (SessionFacts.accepted_is_handled fetch sha256 p line c Hp Hcl (Hn eq_refl) Hc)
          as [c' Hp'].
        destruct (SessionFacts.parse_standard fetch sha256 p line c Hp (Hn eq_refl))
          as (h & c'' & Hp'' & Hk).
        rewrite Hp' in Hp''. injection Hp'' as <- <-. by exists c'.
    + destruct (Registry.dispatch reg line c) as [calls r]. by apply IH.
Qed.

Lemma parse_raw_skipped reg raw c :
  Forall standard reg → ready reg c →
  ∃ c', parse_raw reg c raw = Some c' ∧ ready reg c'
        ∧ skipped_lines c'
          = skipped_lines c ++ (if skipped_by reg c raw then [rstrip_chars [10] raw] else []).
Proof.
  intros Hstd Hr. unfold parse_raw, Registry.parse_line, Registry.parse_line_calls, skipped_by.
  destruct (strip raw) as [|x line] eqn:Hs; simpl.
  - eexists. split; [done|]. split; [|done].
    by apply (SessionFacts.ready_states reg c).
  - destruct (dispatch_flag reg (x :: line) c Hstd Hr) as (c' & -> & Hk).
    pose proof (keeps_skipped _ _ Hk) as Hsk.
    destruct (first_taker reg c (x :: line)) as [p|]; simpl.
    + destruct (bool_decide (class p = ControlParser)); simpl.
      * eexists. split; [done|]. split; [|by rewrite Hsk].
        destruct Hk. by apply (SessionFacts.ready_states reg c).
      * exists c'. split; [done|]. split; [by eapply SessionFacts.ready_keeps|].
        by rewrite Hsk, app_nil_r.
    + eexists. split; [done|]. split; [|by rewrite Hsk].
      destruct Hk. by apply (SessionFacts.ready_states reg c).
Qed.

Lemma parse_each_skipped reg lines c c0 :
  Forall standard reg → ready reg c →
  ∃ c', parse_each reg c lines = Some c'
        ∧ skipped_lines c'
          = skipped_lines c
            ++ (rstrip_chars [10] <$> List.filter (skipped_by reg c0) lines).
Proof.
  intros Hstd. revert c. induction lines as [|raw lines IH]; intros c Hr; simpl.
  - exists c. by rewrite app_nil_r.
  - destruct (parse_raw_skipped reg raw c Hstd Hr) as (c1 & -> & Hr1 & Hsk1).
    destruct (IH c1 Hr1) as (c' & -> & Hsk'). exists c'. split; [done|].
    rewrite Hsk', Hsk1, (skipped_by_same reg raw c c0 Hstd), <- app_assoc. f_equal.
    by destruct (skipped_by reg c0 raw).
Qed.

Lemma parse_lines_skipped asm lines title character spacer image_map :
  Forall standard (registry asm) →
  ∃ skipped asm',
    parse_lines asm lines title character spacer image_map = Some (skipped, asm')
    ∧ skipped
      = skipped_lines (ctx asm)
        ++ (rstrip_chars [10] <$> List.filter (skipped_by (registry asm) (ctx asm)) lines)
    ∧ skipped_lines (ctx asm') = skipped.
Proof.
  intros Hstd.
  destruct (parse_lines_run asm lines title character spacer image_map Hstd)
    as (c0 & c2 & c3 & Hc0 & Hd2 & Hi2 & Hs2 & Hq2 & Hm2 & Hh2 & Hf2 & Hsp2 & Hr2 & Hrun & ->).
  eexists _, _. split; [done|]. split; [|done].
  destruct (parse_each_skipped (registry asm) lines c2 (ctx asm) Hstd Hr2) as (c3' & Hrun' & Hsk).
  rewrite Hrun in Hrun'. injection Hrun' as <-.
  rewrite (keeps_skipped _ _
             (SessionFacts.finalize_all_keeps fetch sha256 (registry asm) c3 Hstd)).
  by rewrite Hsk, Hs2.
Qed.

(** X14.  The skipped lines that [parse_lines] returns are the ones it had, then,
    in order, every line of the call that is blank, that no enabled rule
    accepts, or whose first taker is the control rule, less the newlines at
    its end.  No other line is recorded, and none is dropped. *)
Theorem skipped_lines_are_exact (asm : assembler) (lines : list str)
    (title character : option str) (spacer : option Z) (image_map : option (gmap str str)) :
  Forall standard (registry asm) →
  ∃ skipped asm',
    parse_lines asm lines title character spacer image_map = Some (skipped, asm')
    ∧ skipped
      = skipped_lines (ctx asm)
        ++ (rstrip_chars [10] <$> List.filter (skipped_by (registry asm) (ctx asm)) lines)
    ∧ skipped_lines (ctx asm') = skipped.
Proof. apply parse_lines_skipped. Qed.

(** *** The registry of a session *)

Lemma parse_lines_registry asm lines title character spacer image_map skipped asm' :
  parse_lines asm lines title character spacer image_map = Some (skipped, asm') →
  registry asm' = registry asm.
Proof.
  unfold parse_lines. destruct (parse_each _ _ _); [|done]. by intros [= _ <-].
Qed.

Lemma perform_keys asm op asm' :
  perform asm op = Some asm' → key <$> registry asm' = key <$> registry asm.
Proof.
  destruct op; simpl.
  - destruct (parse_lines _ _ _ _ _ _) as [[sk a]|] eqn:Hp; [|done]. intros [= <-].
    by rewrite (parse_lines_registry _ _ _ _ _ _ _ _ Hp).
  - unfold parse_text.
    destruct (parse_lines _ _ _ _ _ _) as [[sk a]|] eqn:Hp; [|done]. intros [= <-].
    by rewrite (parse_lines_registry _ _ _ _ _ _ _ _ Hp).
  - by intros [= <-].
  - by intros [= <-].
  - by intros [= <-].
  - by intros [= <-].
  - by intros [= <-].
  - by intros [= <-].
  - intros [= <-]. apply set_first_enabled_keys.
  - intros [= <-]. apply set_first_enabled_keys.
Qed.

Lemma perform_all_keys asm ops asm' :
  perform_all asm ops = Some asm' → key <$> registry asm' = key <$> registry asm.
Proof.
  revert asm. induction ops as [|op ops IH]; intros asm; simpl; [by intros [= <-]|].
  destruct (perform asm op) as [asm1|] eqn:Hop; [|done]. intros Hrest.
  by rewrite (IH _ Hrest), (perform_keys _ _ _ Hop).
Qed.

Lemma make_parser_key cfg cls :
  key (make_parser fetch sha256 cfg cls) = (cls, cfg_priority (parsers_config cfg cls)).
Proof. by destruct cls. Qed.

Lemma setup_parsers_registered cfg :
  _setup_parsers fetch sha256 cfg
  = fold_left Registry.register (make_parser fetch sha256 cfg <$> parser_classes) [].
Proof. reflexivity. Qed.

(** X15.  The registry follows the configuration, all along a session.  It holds
    one rule of each of the nine classes, each with the priority that the
    configuration gives its class, in ascending priority, the classes of one
    priority in the order of the [parser_classes] dict; no call changes this:
    [enable_parser] and [disable_parser] only set flags. *)
Theorem registry_follows_the_configuration (cfg : config) (ops : list operation) :
  ∃ asm, session cfg ops = Some asm
    ∧ class <$> registry asm ≡ₚ parser_classes
    ∧ key <$> registry asm = key <$> _setup_parsers fetch sha256 cfg
    ∧ Forall (fun r : rule context =>
                priority r = cfg_priority (parsers_config cfg (class r)))
        (registry asm)
    ∧ StronglySorted Registry.by_priority (registry asm)
    ∧ ∀ k, class <$> filter (Registry.same_priority k) (registry asm)
           = filter (fun cls => cfg_priority (parsers_config cfg cls) = k) parser_classes.
Proof.
  destruct (session_runs cfg ops) as (asm & Hs & _). exists asm. split; [done|].
  pose proof (perform_all_keys _ _ _ Hs) as Hkeys.
  change (registry (new_assembler fetch sha256 cfg)) with (_setup_parsers fetch sha256 cfg)
    in Hkeys.
  set (rules := make_parser fetch sha256 cfg <$> parser_classes).
  assert (Hperm : _setup_parsers fetch sha256 cfg ≡ₚ rules).
  { rewrite setup_parsers_registered. fold rules.
    assert (Hreg : ∀ rs : list (rule context), fold_left Registry.register rs [] ≡ₚ rs);
      [|apply Hreg].
    intros rs. induction rs as [|q rs IH] using rev_ind; [done|].
    rewrite fold_left_app. simpl. unfold Registry.register at 1.
    by rewrite RegistryMore.sort_perm, IH. }
  assert (Hrules : key <$> rules = (fun cls => (cls, cfg_priority (parsers_config cfg cls)))
                                   <$> parser_classes).
  { unfold rules. rewrite <- list_fmap_compose. apply list_fmap_ext.
    intros i cls _. apply make_parser_key. }
  assert (Hall : Forall (fun kp : parser_class * Z =>
                           kp.2 = cfg_priority (parsers_config cfg kp.1))
                   (key <$> registry asm)).
  { rewrite Hkeys. assert (Hp : key <$> _setup_parsers fetch sha256 cfg ≡ₚ key <$> rules)
      by (by rewrite Hperm).
    rewrite Hp, Hrules. by repeat constructor. }
  split; [|split; [done|split; [|split]]].
  - assert (Hc : class <$> registry asm = (key <$> registry asm).*1)
      by (by rewrite <- list_fmap_compose).
    rewrite Hc, Hkeys, Hperm, Hrules, <- list_fmap_compose.
    by rewrite list_fmap_id.
  - apply Forall_fmap in Hall. by eapply Forall_impl; [exact Hall|].
  - apply (keys_sorted (_setup_parsers fetch sha256 cfg)); [done|].
    rewrite setup_parsers_registered. apply RegistryFacts.registered_sorted.
  - intros k. rewrite (keys_same_priority k _ _ Hkeys), setup_parsers_registered.
    rewrite RegistryFacts.registered_stable. unfold rules.
    generalize parser_classes. intros l. induction l as [|cls l IH]; [done|].
    rewrite fmap_cons, !filter_cons.
    pose proof (make_parser_key cfg cls) as Hk. unfold key in Hk. injection Hk as Hc Hp.
    repeat case_decide; unfold Registry.same_priority in *; try congruence.
    by rewrite fmap_cons, Hc, IH.
Qed.

(** *** Calls without images *)

Lemma text_after_text d c c1 : text_step c c1 → text_after d c → text_after d c1.
Proof.
  intros [(more & Hd & Hk) Hi [Hm _ _ _ _] [_ _ Hq] _] [[Hmap Hqueue Hstate] (body & Hb & Hall)].
  split; [split|].
  - by rewrite Hm.
  - by rewrite Hq.
  - intros st. rewrite Hi. apply Hstate.
  - exists (body ++ more). split; [by rewrite Hd, Hb, <- app_assoc|by apply Forall_app].
Qed.

Lemma text_after_image d c c1 : image_step c c1 → text_after d c → text_after d c1.
Proof.
  intros (st & image_id & url & _ & Hm & _) [[Hmap _ _] _].
  by rewrite Hmap, lookup_empty in Hm.
Qed.

Lemma text_after_skipped d c l : text_after d c → text_after d (with_skipped_lines l c).
Proof. intros [[Hmap Hqueue Hstate] Hbody]. by split. Qed.

Lemma text_after_finalize d c : text_after d c → text_after d (image_finalize c).
Proof.
  intros Hta. assert (Hid : image_finalize c = c); [|by rewrite Hid].
  destruct Hta as [[_ _ Hstate] _]. unfold Rules.image_finalize.
  destruct (ImageParser_state c) as [st|]; [|done]. by rewrite (Hstate st eq_refl).
Qed.

(** A call that is given no image map, on an assembler without images,
    writes the header of the section and paragraphs of the text, and
    leaves the assembler without images. *)
Lemma parse_lines_text_only asm lines title character spacer :
  Forall standard (registry asm) → imageless (ctx asm) →
  ∃ skipped asm' body,
    parse_lines asm lines title character spacer None = Some (skipped, asm')
    ∧ doc (ctx asm')
      = doc (ctx asm) ++ section_header (ctx asm) title character spacer ++ body
    ∧ Forall text_para body
    ∧ imageless (ctx asm')
    ∧ registry asm' = registry asm
    ∧ first_section (ctx asm')
      = match title with Some (_ :: _) => false | _ => first_section (ctx asm) end
    ∧ has_main_title (ctx asm') = has_main_title (ctx asm)
    ∧ Base.spacer_lines (ctx asm') = Base.spacer_lines (ctx asm).
Proof.
  intros Hstd [Hmap Hqueue Hstate].
  destruct (parse_lines_run asm lines title character spacer None Hstd)
    as (c0 & c2 & c3 & Hc0 & Hd2 & Hi2 & Hs2 & Hq2 & Hm2 & Hh2 & Hf2 & Hsp2 & Hr2 & Hrun & ->).
  subst c0.
  assert (Hta2 : text_after (doc c2) c2).
  { split; [split|].
    - by rewrite Hm2.
    - destruct Hq2 as [_ _ Hq]. by rewrite Hq.
    - intros st. rewrite Hi2.
      destruct (SessionFacts.initialize_all_states fetch sha256 (registry asm) (ctx asm) Hstd)
        as [_ [-> | ->]]; [apply Hstate|by intros [= <-]].
    - exists []. by rewrite app_nil_r. }
  pose proof (parse_each_inv (text_after (doc c2)) _ _ _ _ Hstd (text_after_text (doc c2))
                (fun c c1 _ => text_after_image (doc c2) c c1)
                (text_after_skipped (doc c2)) Hrun Hta2) as Hta3.
  pose proof (finalize_all_inv (text_after (doc c2)) (registry asm) c3 Hstd
                (fun c _ => text_after_finalize (doc c2) c) Hta3) as [Hil (body & Hb & Hall)].
  assert (Hci : call_inv (registry asm) c2 (Registry.finalize_all (registry asm) c3)).
  { apply (call_inv_run _ lines); [done| |done]. intros Hen. rewrite Hi2.
    by apply (SessionFacts.initialize_all_resets fetch sha256). }
  destruct Hci as [_ _ [_ Hfs Hhm Hsp _]].
  eexists _, _, body. split; [done|]. simpl.
  rewrite Hb, Hd2, <- app_assoc. do 4 (split; [done|]).
  split; [by rewrite Hfs, Hf2|]. split; [by rewrite Hhm, Hh2|by rewrite Hsp, Hsp2].
Qed.

Abbreviation parse_lines_to_file := (parse_lines_to_file fetch sha256).
Abbreviation parse_text_to_file := (parse_text_to_file fetch sha256).

Lemma new_assembler_imageless cfg : imageless (ctx (new_assembler fetch sha256 cfg)).
Proof. by split. Qed.

(** X16.  The module-level [parse_lines] and [parse_text] give no image map: the
    document they save holds paragraphs of the text only (no title, no
    placeholder, no image section), whatever the lines; image directives
    are taken and leave nothing.  The skipped lines they return are exactly
    the lines that are blank, that no rule accepts or that the control rule
    takes; for [parse_text] these are whole lines of the text, unchanged. *)
Theorem module_wrappers_write_text_only :
  let asm := new_assembler fetch sha256 DEFAULT_CONFIG in
  (∀ lines, ∃ skipped d,
      parse_lines_to_file lines = Some (skipped, d)
      ∧ Forall text_para d
      ∧ skipped
        = rstrip_chars [10] <$> List.filter (skipped_by (registry asm) (ctx asm)) lines)
  ∧ (∀ text, ∃ skipped d,
      parse_text_to_file text = Some (skipped, d)
      ∧ Forall text_para d
      ∧ skipped = List.filter (skipped_by (registry asm) (ctx asm)) (splitlines text)).
Proof.
  intros asm.
  assert (Hlines : ∀ lines, ∃ skipped d,
      parse_lines_to_file lines = Some (skipped, d)
      ∧ Forall text_para d
      ∧ skipped
        = rstrip_chars [10] <$> List.filter (skipped_by (registry asm) (ctx asm)) lines).
  { intros lines. unfold Session.parse_lines_to_file. fold asm.
    pose proof (AssemblerFacts.new_assembler_standard fetch sha256 DEFAULT_CONFIG) as Hstd.
    fold asm in Hstd.
    destruct (parse_lines_text_only asm lines None None None Hstd
                (new_assembler_imageless DEFAULT_CONFIG))
      as (sk & asm' & body & Hrun & Hdoc & Hall & [_ Hq _] & _).
    destruct (parse_lines_skipped asm lines None None None None Hstd)
      as (sk' & asm'' & Hrun' & Hsk & _).
    rewrite Hrun in Hrun'. injection Hrun' as <- <-. rewrite Hrun.
    eexists _, _. split; [done|]. simpl. rewrite (append_images_none _ Hq).
    split; [|done]. by rewrite Hdoc. }
  split; [done|]. intros text. unfold Session.parse_text_to_file.
  destruct (Hlines (splitlines text)) as (sk & d & -> & Hall & ->).
  eexists _, _. split; [done|]. split; [done|].
  transitivity (id <$> List.filter (skipped_by (registry asm) (ctx asm)) (splitlines text));
    [|by rewrite list_fmap_id].
  apply Forall_fmap_ext. apply Forall_forall. intros line Hin.
  apply list_elem_of_In, filter_In in Hin as [Hin _]. apply rstrip_newline_line.
  pose proof (splitlines_lines text) as Hsl. rewrite Forall_forall in Hsl.
  by apply Hsl, list_elem_of_In.
Qed.

(** *** The documents of the memory exporter *)

Lemma layout_snoc first sections title body :
  layout first (sections ++ [(title, body)])
  = layout first sections
    ++ (if first && bool_decide (sections = []) then [] else [Para Blank []; Para Blank []])
    ++ [Para Title [Text title]] ++ body.
Proof.
  revert first. induction sections as [|[t b] sections IH]; intros first; simpl.
  - rewrite app_nil_r. by destruct first.
  - rewrite IH. destruct first; simpl; by rewrite <- ?app_assoc.
Qed.

Section Client.
Variable get_story_content_by_name : str -> list Story.

Abbreviation exporting := (exporting fetch sha256).
Abbreviation add_story := (add_story).
Abbreviation save_combined := (save_combined fetch sha256 get_story_content_by_name).
Abbreviation save_per_character :=
  (save_per_character fetch sha256 get_story_content_by_name).

Lemma exporting_start : exporting (new_assembler fetch sha256 DEFAULT_CONFIG) [].
Proof.
  split; try done. apply AssemblerFacts.new_assembler_standard.
Qed.

Lemma add_story_exporting (title : nat → Story → str) asm n sections idx (s : Story) :
  exporting asm sections → title idx s ≠ [] →
  ∃ asm' more,
    add_story title (Some (asm, n)) (idx, s)
    = Some (asm', (n + length more)%nat)
    ∧ more.*1 = (if has_content s then [title idx s] else [])
    ∧ exporting asm' (sections ++ more).
Proof.
  intros Hex Hne. pose proof Hex as [Hstd Hil Hsp Hfirst Hmain Hdoc Htext]. simpl.
  destruct (has_content s).
  - unfold parse_text. simpl.
    assert (Hasm : AssemblerObject (registry asm) (ctx asm) = asm) by by destruct asm.
    rewrite Hasm.
    destruct (parse_lines_text_only asm (splitlines (origin_content s))
                (Some (title idx s)) None None Hstd Hil)
      as (sk & asm' & body & -> & Hd & Hall & Hil' & Hreg & Hfs & Hhm & Hsp').
    exists asm', [(title idx s, body)]. split; [by rewrite Nat.add_1_r|]. split; [done|].
    destruct (title idx s) as [|x t] eqn:Ht; [done|]. split; try done.
    + by rewrite Hreg.
    + by rewrite Hsp'.
    + rewrite Hfs. symmetry. apply bool_decide_eq_false. by destruct sections.
    + by rewrite Hhm.
    + rewrite Hd, Hdoc, layout_snoc. f_equal. unfold section_header.
      rewrite Hfirst, Hsp. simpl. by destruct (bool_decide (sections = [])).
    + apply Forall_app. split; [done|]. by constructor.
  - exists asm, []. split; [simpl; by rewrite Nat.add_0_r|]. split; [done|].
    by rewrite app_nil_r.
Qed.

Lemma add_stories_exporting (title : nat → Story → str) entries asm n sections :
  exporting asm sections →
  (∀ idx s, title idx s ≠ []) →
  ∃ asm' more,
    fold_left (add_story title) entries (Some (asm, n))
    = Some (asm', (n + length more)%nat)
    ∧ more.*1 = (fun entry : nat * Story => title entry.1 entry.2)
                <$> List.filter (fun entry => has_content entry.2) entries
    ∧ exporting asm' (sections ++ more).
Proof.
  intros Hex Hne. revert asm n sections Hex.
  induction entries as [|[idx s] entries IH]; intros asm n sections Hex.
  - exists asm, []. split; [simpl; by rewrite Nat.add_0_r|]. split; [done|].
    by rewrite app_nil_r.
  - cbn [fold_left].
    destruct (add_story_exporting title asm n sections idx s Hex (Hne idx s))
      as (asm1 & more1 & -> & Ht1 & Hex1).
    destruct (IH asm1 (n + length more1)%nat (sections ++ more1) Hex1)
      as (asm' & more & -> & Ht & Hex').
    exists asm', (more1 ++ more). split; [by rewrite length_app, Nat.add_assoc|].
    split; [|by rewrite app_assoc].
    rewrite fmap_app, Ht1, Ht. simpl. by destruct (has_content s).
Qed.

Lemma entry_title_some name idx (s : Story) : entry_title name idx s ≠ [].
Proof.
  unfold entry_title. destruct (story_name s); [|done].
  intros H. apply (f_equal length) in H. rewrite !length_app in H. simpl in H. lia.
Qed.

Lemma full_title_some name idx (s : Story) : full_title name idx s ≠ [].
Proof.
  unfold full_title. intros H. apply (f_equal length) in H.
  rewrite !length_app in H. simpl in H. lia.
Qed.

Lemma exporting_save asm sections :
  exporting asm sections → doc (ctx (save asm).2) = layout true sections.
Proof.
  intros [_ [_ Hq _] _ _ _ Hdoc _]. simpl. by rewrite (append_images_none _ Hq).
Qed.

(** X17.  [save_per_character] never raises.  It counts the stories that have
    content, and for one at least it saves a document that is: for each of
    them in order, its title (its name, or the name of the character with
    its rank when it has none) and paragraphs of the text, with two blank
    paragraphs before every section but the first; nothing else. *)
Theorem save_per_character_layout (name : str) :
  ∃ sections,
    save_per_character name
    = Some (length sections,
            match sections with [] => None | _ :: _ => Some (layout true sections) end)
    ∧ sections.*1 = included_titles (entry_title name) (get_story_content_by_name name)
    ∧ Forall (fun section => Forall text_para section.2) sections.
Proof.
  unfold Fetchers.save_per_character, included_titles.
  destruct (get_story_content_by_name name) as [|s0 stories] eqn:Hget.
  - exists []. by repeat split.
  - destruct (add_stories_exporting (entry_title name) (enumerate (s0 :: stories))
                (new_assembler fetch sha256 DEFAULT_CONFIG) 0 [] exporting_start
                (entry_title_some name))
      as (asm' & sections & -> & Ht & Hex).
    exists sections. simpl in Hex. split; [|split; [done|by destruct Hex]].
    rewrite Nat.add_0_l. destruct sections as [|sec sections]; [done|].
    by rewrite (exporting_save _ _ Hex).
Qed.

(** X18.  [save_combined] never raises.  It counts the stories with content of
    all the names, and for one at least it saves one document with a section
    for each of them, in the order of the names and of the stories: the title
    is the name of the character, a full-width colon and the title of the
    story; two blank paragraphs come before every section but the first. *)
Theorem save_combined_layout (names : list str) :
  ∃ sections,
    save_combined names
    = Some (length sections,
            match sections with [] => None | _ :: _ => Some (layout true sections) end)
    ∧ sections.*1 = combined_titles get_story_content_by_name names
    ∧ Forall (fun section => Forall text_para section.2) sections.
Proof.
  unfold Fetchers.save_combined.
  set (step := fun (st : option (assembler * nat)) (name : str) => _).
  assert (Hloop : ∀ names asm n sections, exporting asm sections →
            ∃ asm' more,
              fold_left step names (Some (asm, n)) = Some (asm', (n + length more)%nat)
              ∧ more.*1 = combined_titles get_story_content_by_name names
              ∧ exporting asm' (sections ++ more)).
  { clear names. intros names. induction names as [|name names IH]; intros asm n sections Hex.
    - exists asm, []. split; [simpl; by rewrite Nat.add_0_r|]. split; [done|].
    by rewrite app_nil_r.
    - cbn [fold_left]. unfold combined_titles. rewrite fmap_cons. cbn [concat].
      assert (Hstep : ∃ asm1 more1,
                step (Some (asm, n)) name = Some (asm1, (n + length more1)%nat)
                ∧ more1.*1 = included_titles (full_title name) (get_story_content_by_name name)
                ∧ exporting asm1 (sections ++ more1)).
      { unfold step, included_titles.
        destruct (get_story_content_by_name name) as [|s0 stories].
        - exists asm, []. split; [simpl; by rewrite Nat.add_0_r|]. split; [done|].
    by rewrite app_nil_r.
        - apply add_stories_exporting; [done|apply full_title_some]. }
      destruct Hstep as (asm1 & more1 & -> & Ht1 & Hex1).
      destruct (IH asm1 (n + length more1)%nat (sections ++ more1) Hex1)
        as (asm' & more & -> & Ht & Hex').
      exists asm', (more1 ++ more). split; [by rewrite length_app, Nat.add_assoc|].
      split; [|by rewrite app_assoc]. rewrite fmap_app, Ht1. by f_equal. }
  destruct (Hloop names (new_assembler fetch sha256 DEFAULT_CONFIG) 0%nat [] exporting_start)
    as (asm' & sections & -> & Ht & Hex).
  exists sections. simpl in Hex. split; [|split; [done|by destruct Hex]].
  rewrite Nat.add_0_l. destruct sections as [|sec sections]; [done|].
  cbn [length Nat.eqb]. by rewrite (exporting_save _ _ Hex).
Qed.

End Client.

End Fetch.

(** *** [save], on the network of its own time *)

Section Save.
Variable fetch later : str -> response.
Variable sha256 : bytes -> str.

Abbreviation standard := (standard fetch sha256).
Abbreviation fetch_all := (fetch_all fetch sha256).
Abbreviation queue_section := (queue_section fetch sha256).
Abbreviation session := (session fetch sha256).

(** The loop reads the network at the urls of the queue only. *)
Lemma fetch_all_agree pending :
  (∀ k u, (k, u) ∈ pending → later u = fetch u) →
  Images.fetch_all later sha256 pending = fetch_all pending.
Proof.
  unfold Images.fetch_all. generalize start.
  induction pending as [|[k u] pending IH]; intros s Hall; simpl; [done|].
  rewrite IH by (intros k' u' Hin; eapply Hall; by apply list_elem_of_further).
  f_equal. unfold fetch_one. by rewrite (Hall k u) by apply list_elem_of_here.
Qed.

Lemma renumber_length im runs d : length (renumber im runs d) = length d.
Proof. by rewrite <- (length_fmap kind), renumber_kinds, length_fmap. Qed.

Lemma renumber_app im runs d more :
  Forall (fun kh => (kh.2 < length d)%nat) runs →
  renumber im runs (d ++ more) = renumber im runs d ++ more.
Proof.
  revert d. induction runs as [|[k h] runs IH]; intros d Hall; simpl; [done|].
  apply Forall_cons in Hall as [Hh Hall]. simpl in Hh.
  destruct (im !! k) as [[|f]|]; try by apply IH.
  unfold set_run_text. rewrite alter_app_l by done. apply IH.
  eapply Forall_impl; [exact Hall|]. intros kh Hkh. by rewrite length_alter.
Qed.

(** Where [renumber] writes, it writes at a handle, and the kind stays. *)
Lemma renumber_elsewhere im runs d i p :
  (∀ k h, (k, h) ∈ runs → placeholder_at d h) →
  d !! i = Some p → kind p ≠ ImageReference → renumber im runs d !! i = Some p.
Proof.
  intros Hvalid Hi Hk. rewrite renumber_other; [done|].
  intros ([k h] & -> & Hin)%list_elem_of_fmap. simpl in *.
  destruct (Hvalid k h Hin) as [t Ht]. rewrite Ht in Hi. injection Hi as <-. by apply Hk.
Qed.

Lemma section_kinds (s : progress) :
  Forall (fun p => kind p ≠ ImageReference) (image_section s).
Proof.
  unfold image_section.
  assert (Hall : ∀ outs d, Forall (fun p => kind p ≠ ImageReference) d →
            Forall (fun p => kind p ≠ ImageReference) (fold_left add_entry outs d)).
  { induction outs as [|e outs IH]; intros d Hd; simpl; [done|].
    apply IH. destruct e; simpl; apply Forall_app; split; try done; by repeat constructor. }
  apply Hall. by repeat constructor.
Qed.

Lemma section_length (network : str → response) pending :
  pending ≠ [] →
  (3 <= length (image_section (Images.fetch_all network sha256 pending)))%nat.
Proof.
  intros Hne. pose proof (ImagesMore.some_entry network sha256 pending Hne) as Hsome.
  unfold image_section.
  pose proof (add_entries_length (output_entries (Images.fetch_all network sha256 pending))
                [Para PageBreak []; Para ImagesHeading [Text heading_text]]) as Hlen.
  destruct (output_entries _) as [|e outs]; [done|]. simpl in *. lia.
Qed.

(** A placeholder of a document that ends with the image section is before
    the section. *)
Lemma shows_before_section body (s : progress) h n :
  shows (body ++ image_section s) h n → (h < length body)%nat ∧ shows body h n.
Proof.
  unfold shows. intros Hh. destruct (decide (h < length body)%nat) as [Hlt|Hge].
  - split; [done|]. by rewrite lookup_app_l in Hh.
  - exfalso. rewrite lookup_app_r in Hh by lia.
    pose proof (section_kinds s) as Hk. rewrite Forall_forall in Hk.
    by apply (Hk _ (list_elem_of_lookup_2 _ _ _ Hh)).
Qed.

(** X12.  At any point of a session, [save] fetches the queue that the assembler
    holds once more, on the network as it is then, and adds the image
    section of these answers, or nothing when the queue is empty.  Before
    this section the document keeps its length and its kinds, and every
    paragraph that is no image reference is as it was; the references of the
    queue are written again, from the new answers.  When the network answers
    on the urls of the queue as it did in the session, no paragraph changes
    and the section is the one of the session.  [save] returns the skipped
    lines and leaves the registry. *)
Theorem save_touches_references_only (cfg : config) (ops : list operation) :
  ∃ asm, session cfg ops = Some asm
    ∧ let saved := Assembler.save later sha256 asm in
      saved.1 = skipped_lines (ctx asm)
      ∧ registry saved.2 = registry asm
      ∧ ∃ body,
          doc (ctx saved.2) = body ++ Invariants.queue_section later sha256 (ctx asm)
          ∧ length body = length (doc (ctx asm))
          ∧ kind <$> body = kind <$> doc (ctx asm)
          ∧ (∀ i p, doc (ctx asm) !! i = Some p → kind p ≠ ImageReference →
               body !! i = Some p)
          ∧ (∀ i, i ∉ (asm_image_reference_runs (ctx asm)).*2 →
               body !! i = doc (ctx asm) !! i)
          ∧ ((∀ k u, (k, u) ∈ asm_images_to_append (ctx asm) → later u = fetch u) →
               body = doc (ctx asm)
               ∧ Invariants.queue_section later sha256 (ctx asm)
                 = queue_section (ctx asm)).
Proof.
  destruct (session_runs fetch sha256 cfg ops) as (asm & Hs & [_ Hq _]). exists asm.
  split; [done|]. cbn zeta. unfold Assembler.save. cbn [fst snd registry ctx].
  destruct (append_images_same later sha256 (ctx asm))
    as (_ & _ & _ & _ & Hsk).
  split; [done|]. split; [done|].
  unfold Invariants.queue_section.
  destruct (asm_images_to_append (ctx asm)) as [|x pending] eqn:Hp.
  - exists (doc (ctx asm)).
    rewrite (append_images_none later sha256) by done.
    by rewrite app_nil_r.
  - rewrite <- Hp in *.
    assert (Hne : asm_images_to_append (ctx asm) ≠ []) by (by rewrite Hp).
    assert (Hvalid : ∀ k h, (k, h) ∈ asm_image_reference_runs (ctx asm) →
                            placeholder_at (doc (ctx asm)) h).
    { intros k h Hin. destruct (Hq Hne k h Hin) as (f & _ & Hsh). by eexists. }
    eexists. split; [by apply (append_images_doc later sha256)|].
    split; [apply renumber_length|]. split; [apply renumber_kinds|].
    split; [intros i p; by apply renumber_elsewhere|].
    split; [intros i Hi; by apply renumber_other|].
    intros Hagree. rewrite fetch_all_agree by done. split; [|done].
    apply renumber_id. intros k h f Hin Hf.
    destruct (Hq Hne k h Hin) as (f' & Hf' & Hsh).
    rewrite Hf in Hf'. by injection Hf' as ->.
Qed.

(** X13.  After a call that met known images, with an enabled image rule, the
    document ends with the image section.  [save] then adds an image section
    once more, that of the same queue on the network as it is then, so the
    saved document has two; before them, every reference of the call shows
    its final number under the new answers and nothing else changes.  When
    the network answers on the urls of the queue as it did in the call, the
    saved document is the one of the call with its image section twice. *)
Theorem save_repeats_the_image_section (asm : assembler) (lines : list str)
    (title character : option str) (spacer : option Z) (image_map : option (gmap str str)) :
  Forall standard (registry asm) → image_enabled (registry asm) →
  ∃ skipped asm' st,
    parse_lines asm lines title character spacer image_map = Some (skipped, asm')
    ∧ ImageParser_state (ctx asm') = Some st
    ∧ (images_to_append st ≠ [] →
       let images := image_section (fetch_all (images_to_append st)) in
       let answers := Images.fetch_all later sha256 (images_to_append st) in
       (3 <= length images)%nat ∧ (3 <= length (image_section answers))%nat
       ∧ ∃ body body',
           doc (ctx asm') = body ++ images
           ∧ doc (ctx (Assembler.save later sha256 asm').2)
             = body' ++ images ++ image_section answers
           ∧ length body' = length body
           ∧ (∀ i, i ∉ (image_reference_runs st).*2 → body' !! i = body !! i)
           ∧ (∀ k h, (k, h) ∈ image_reference_runs st →
                ∃ n, index_map answers !! k = Some (S n) ∧ shows body' h (S n))
           ∧ ((∀ k u, (k, u) ∈ images_to_append st → later u = fetch u) →
                body' = body ∧ image_section answers = images)).
Proof.
  intros Hstd Hen.
  destruct (parse_lines_run fetch sha256 asm lines title character spacer image_map Hstd)
    as (c0 & c2 & c3 & Hc0 & Hd2 & Hi2 & Hs2 & Hq2 & Hm2 & Hh2 & Hf2 & Hsp2 & Hr2 & Hrun & ->).
  assert (Hp2 : placed c2).
  { eexists. split.
    - rewrite Hi2. by apply (SessionFacts.initialize_all_resets fetch sha256).
    - split; simpl; try done; [constructor|]. intros k h Hin. by apply elem_of_nil in Hin. }
  pose proof (placed_run fetch sha256 _ _ _ _ Hstd Hp2 Hrun) as Hp3.
  assert (Hfin : ∃ st, finalized fetch sha256 (Registry.finalize_all (registry asm) c3) st).
  { apply (finalize_all_reaches fetch sha256 placed); try done.
    - apply finalize_placed.
    - intros c [st Hfin]. exists st. by apply finalize_finalized. }
  destruct Hfin as [st Hfin]. eexists _, _, st. split; [done|].
  cbn [ctx snd]. split; [by destruct Hfin|]. intros Hne.
  set (answers := Images.fetch_all later sha256 (images_to_append st)).
  destruct Hfin as [Hst Hpend Hkeys Hnd Hshows Hasm].
  destruct (Hasm Hne) as (Hqueue & Hruns & body & Hbody).
  split; [by apply section_length|]. split; [by apply section_length|].
  set (c4 := Registry.finalize_all (registry asm) c3) in *.
  assert (Hin_body : ∀ k h, (k, h) ∈ image_reference_runs st →
            (h < length body)%nat
            ∧ ∃ f, final_of fetch sha256 st k = Some (S f) ∧ shows body h (S f)).
  { intros k h Hin. destruct (Hshows k h Hin) as (f & Hf & Hsh).
    rewrite Hbody in Hsh. apply shows_before_section in Hsh as [Hlt Hsh].
    split; [done|]. by exists f. }
  exists body, (renumber (index_map answers) (image_reference_runs st) body).
  split; [done|]. split.
  { unfold Assembler.save. cbn [snd ctx].
    rewrite (append_images_doc later sha256) by (by rewrite Hqueue).
    rewrite Hqueue, Hruns, Hbody. fold answers. rewrite renumber_app.
    - by rewrite <- app_assoc.
    - apply Forall_forall. intros [k h] Hin. by apply Hin_body in Hin as [? _]. }
  split; [apply renumber_length|].
  split; [intros i Hi; by apply renumber_other|]. split.
  - intros k h Hin.
    destruct (ImagesMore.resolved later sha256 (images_to_append st) k) as (n & Hn & _).
    { rewrite Hpend, <- Hkeys. apply list_elem_of_fmap. by exists (k, h). }
    exists n. split; [done|]. apply (renumber_shows _ _ _ k); try done.
    destruct (Hin_body k h Hin) as (_ & f & _ & Hsh). by eexists.
  - intros Hagree. unfold answers. rewrite fetch_all_agree by done.
    split; [|done]. apply renumber_id. intros k h f Hin Hf.
    destruct (Hin_body k h Hin) as (_ & f' & Hf' & Hsh).
    unfold final_of in Hf'. rewrite Hf in Hf'. by injection Hf' as ->.
Qed.

End Save.

End DocumentFacts.

(** ** More on the rules *)

Module RulesMore.
Import Py Render Base Rules PyMore.

Lemma options_fold_lookup (l : list (str * str)) (k : str) :
  fold_left (fun m '(v, o) => <[strip v := strip o]> m) l (∅ : gmap str str) !! k
  = (fun vo : str * str => strip vo.2)
      <$> List.find (fun vo => bool_decide (strip vo.1 = k)) (rev l).
Proof.
  induction l as [|[v o] l IH] using rev_ind; [done|].
  rewrite fold_left_app, rev_app_distr. simpl.
  destruct (decide (strip v = k)) as [<-|Hne].
  - by rewrite lookup_insert_eq, bool_decide_eq_true_2.
  - by rewrite lookup_insert_ne, bool_decide_eq_false_2.
Qed.

Lemma options_fold_size (l : list (str * str)) :
  (size (fold_left (fun m '(v, o) => <[strip v := strip o]> m) l (∅ : gmap str str))
   <= length l)%nat
  ∧ (NoDup (strip <$> l.*1) →
     size (fold_left (fun m '(v, o) => <[strip v := strip o]> m) l (∅ : gmap str str))
     = length l
     ∧ ∀ k, is_Some (fold_left (fun m '(v, o) => <[strip v := strip o]> m) l
                       (∅ : gmap str str) !! k) → k ∈ strip <$> l.*1).
Proof.
  induction l as [|[v o] l [IHle IHeq]] using rev_ind.
  - split; [done|]. intros _. split; [done|]. intros k [x Hx]. simpl in Hx.
    by rewrite lookup_empty in Hx.
  - rewrite fold_left_app, length_app. simpl.
    set (m := fold_left _ l ∅) in *. split.
    + destruct (m !! strip v) eqn:Hm.
      * rewrite map_size_insert_Some by done. lia.
      * rewrite map_size_insert_None by done. lia.
    + rewrite !fmap_app. simpl. intros Hnd. apply NoDup_app in Hnd as (Hnd & Hfresh & _).
      destruct (IHeq Hnd) as [Hsize Hkeys].
      assert (Hm : m !! strip v = None).
      { destruct (m !! strip v) eqn:Hm; [|done]. exfalso.
        apply (Hfresh (strip v)); [by apply Hkeys|apply list_elem_of_here]. }
      split; [rewrite map_size_insert_None by done; lia|].
      intros k Hk. apply elem_of_app.
      destruct (decide (strip v = k)) as [<-|Hne]; [right; apply list_elem_of_here|].
      rewrite lookup_insert_ne in Hk by done. left. by apply Hkeys.
Qed.

(** X19.  The options of a decision, by value: the values and the options are
    paired in order up to the shorter list, both stripped; of two pairs with
    the same value the later one wins.  There are no more entries than
    pairs, and as many when the values are distinct. *)
Theorem decision_options_last_wins (values options : list str) (k : str) :
  options_by_value values options !! k
  = (fun vo : str * str => strip vo.2)
      <$> List.find (fun vo => bool_decide (strip vo.1 = k)) (rev (combine values options))
  ∧ (size (options_by_value values options) <= length values `min` length options)%nat
  ∧ (NoDup (strip <$> values) → (length values <= length options)%nat →
     size (options_by_value values options) = length values).
Proof.
  unfold options_by_value. split; [apply options_fold_lookup|].
  destruct (options_fold_size (combine values options)) as [Hle Heq].
  rewrite length_combine in Hle. split; [done|]. intros Hnd Hlen.
  assert (Hfst : (combine values options).*1 = values).
  { clear -Hlen. revert options Hlen.
    induction values as [|v values IH]; intros [|o options] Hlen; simpl in *; try done; try lia.
    f_equal. apply IH. lia. }
  rewrite Hfst in Heq. destruct (Heq Hnd) as [-> _]. rewrite length_combine. lia.
Qed.

End RulesMore.

(** ** The names of [common.py] *)

Module CommonFacts.
Import Py PyMore Common.

Lemma elem_rev {A} (x : A) (l : list A) : x ∈ rev l ↔ x ∈ l.
Proof. by rewrite !list_elem_of_In, <- in_rev. Qed.

Lemma first_occurrences_snoc names raw :
  first_occurrences (names ++ [raw])
  = if bool_decide (strip raw = []) || bool_decide (strip raw ∈ first_occurrences names)
    then first_occurrences names
    else first_occurrences names ++ [strip raw].
Proof.
  unfold first_occurrences. rewrite fmap_app, List.filter_app. simpl.
  destruct (decide (strip raw = [])) as [He|He].
  - rewrite (bool_decide_eq_true_2 _ He). simpl. by rewrite app_nil_r.
  - rewrite (bool_decide_eq_false_2 _ He). simpl. rewrite rev_app_distr. simpl.
    set (l := List.filter _ _).
    destruct (decide_rel elem_of (strip raw) (rev l)) as [Hin|Hin].
    + rewrite bool_decide_eq_true_2; [done|]. by rewrite elem_rev, elem_of_remove_dups.
    + rewrite bool_decide_eq_false_2; [done|]. by rewrite elem_rev, elem_of_remove_dups.
Qed.

Lemma normalize_fold names :
  fold_left normalize_step names (∅, [])
  = (list_to_set (first_occurrences names), first_occurrences names).
Proof.
  induction names as [|raw names IH] using rev_ind; [done|].
  rewrite fold_left_app, IH, first_occurrences_snoc. simpl. unfold normalize_step. simpl.
  assert (Hin : bool_decide (strip raw ∈ (list_to_set (first_occurrences names) : gset str))
                = bool_decide (strip raw ∈ first_occurrences names)).
  { apply bool_decide_ext. by rewrite elem_of_list_to_set. }
  rewrite Hin. destruct (_ || _); [done|]. f_equal.
  rewrite list_to_set_app_L. simpl. by rewrite (right_id_L ∅ (∪)), (comm_L (∪)).
Qed.

Lemma first_occurrences_NoDup names : NoDup (first_occurrences names).
Proof. unfold first_occurrences. apply NoDup_ListNoDup, NoDup_rev, NoDup_ListNoDup,
  NoDup_remove_dups. Qed.

Lemma first_occurrences_elem names x :
  x ∈ first_occurrences names ↔ x ≠ [] ∧ ∃ raw, raw ∈ names ∧ strip raw = x.
Proof.
  unfold first_occurrences.
  rewrite elem_rev, elem_of_remove_dups, elem_rev.
  rewrite list_elem_of_In, filter_In, <- list_elem_of_In, list_elem_of_fmap.
  rewrite negb_true_iff, bool_decide_eq_false. split.
  - intros [(raw & -> & Hin) Hne]. split; [done|]. by exists raw.
  - intros [Hne (raw & Hin & <-)]. split; [|done]. by exists raw.
Qed.

Lemma remove_dups_NoDup {A} `{EqDecision A} (l : list A) : NoDup l → remove_dups l = l.
Proof.
  induction 1 as [|x l Hx _ IH]; simpl; [done|].
  destruct (decide_rel elem_of x l); [done|]. by rewrite IH.
Qed.

Lemma first_occurrences_clean names :
  NoDup names → Forall clean names → first_occurrences names = names.
Proof.
  intros Hnd Hall. unfold first_occurrences.
  assert (Hs : strip <$> names = names).
  { induction Hall as [|x l [_ Hx] _ IH]; [done|]. apply NoDup_cons in Hnd as [_ Hnd].
    rewrite fmap_cons, Hx. f_equal. by apply IH. }
  assert (Hf : List.filter (fun x => negb (bool_decide (x = []))) names = names).
  { clear Hs Hnd. induction Hall as [|x l [Hx _] _ IH]; [done|]. simpl.
    rewrite bool_decide_eq_false_2 by done. simpl. by rewrite IH. }
  rewrite Hs, Hf, remove_dups_NoDup, rev_involutive; [done|].
  by apply NoDup_ListNoDup, NoDup_rev, NoDup_ListNoDup.
Qed.

(** X20.  [_normalize_names] returns the stripped names that are not empty, each
    once, at its first occurrence: no name twice, every name stripped, a name
    in the result exactly when some given name strips to it; and on its own
    result it changes nothing. *)
Theorem normalize_names_first_occurrences (names : option (list str)) :
  let result := _normalize_names names in
  result = first_occurrences (default [] names)
  ∧ NoDup result
  ∧ Forall clean result
  ∧ (∀ x, x ∈ result ↔ x ≠ [] ∧ ∃ raw, raw ∈ default [] names ∧ strip raw = x)
  ∧ _normalize_names (Some result) = result.
Proof.
  intros result.
  assert (Heq : ∀ l, _normalize_names l = first_occurrences (default [] l)).
  { intros l. unfold _normalize_names. by rewrite normalize_fold. }
  assert (Hclean : Forall clean (first_occurrences (default [] names))).
  { apply Forall_forall. intros x Hx. apply first_occurrences_elem in Hx as [Hne (raw & _ & <-)].
    split; [done|]. apply strip_idem. }
  unfold result. rewrite !Heq. split; [done|]. split; [apply first_occurrences_NoDup|].
  split; [done|]. split; [apply first_occurrences_elem|].
  simpl. apply first_occurrences_clean; [apply first_occurrences_NoDup|done].
Qed.

Lemma normalize_names_clean (names : option (list str)) :
  NoDup (_normalize_names names) ∧ Forall clean (_normalize_names names).
Proof.
  unfold _normalize_names. rewrite normalize_fold. simpl.
  split; [apply first_occurrences_NoDup|].
  apply Forall_forall. intros x Hx. apply first_occurrences_elem in Hx as [Hne (raw & _ & <-)].
  split; [done|]. apply strip_idem.
Qed.

Section Files.
Context {E : Type}.
Variable readlines : str -> reading E.

(** X21.  [load_names] returns the names of the file, then the names of the command
    line, each part without a name twice; a name given in both is kept
    twice.  The result is never empty: the call raises its [ValueError]
    exactly when the file, if one is named, is read and both parts are
    empty.  With a file named, an [OSError] of the reading becomes
    [RuntimeError] and any other exception of the reading,
    [UnicodeDecodeError] for one, leaves the call as it is, whatever the
    command line gives. *)
Theorem load_names_outcomes (cli_names : option (list str)) (names_file : option str) :
  let from_cli := _normalize_names cli_names in
  let named := match names_file with Some ((_ :: _) as path) => Some path | _ => None end in
  match named, load_names readlines cli_names names_file with
  | None, inr names => names = from_cli ∧ names ≠ [] ∧ NoDup names ∧ Forall clean names
  | None, inl raised => raised = ValueError ∧ from_cli = []
  | Some path, result =>
      match readlines path with
      | Lines lines =>
          let from_file := _normalize_names (Some lines) in
          match result with
          | inr names =>
              names = from_file ++ from_cli ∧ names ≠ [] ∧ Forall clean names
              ∧ NoDup from_file ∧ NoDup from_cli
          | inl raised => raised = ValueError ∧ from_file = [] ∧ from_cli = []
          end
      | OSError => result = inl RuntimeError
      | Raises exc => result = inl (Uncaught exc)
      end
  end.
Proof.
  intros from_cli named. subst from_cli named. unfold load_names, read_names_from_file.
  generalize (normalize_names_clean cli_names).
  generalize (_normalize_names cli_names). intros from_cli [Hnd Hcl].
  destruct names_file as [[|x path]|].
  - simpl. by destruct from_cli.
  - destruct (readlines (x :: path)) as [lines| |exc]; [|done..].
    pose proof (normalize_names_clean (Some lines)) as (Hnd' & Hcl').
    destruct (_normalize_names (Some lines) ++ from_cli) as [|y l] eqn:Happ.
    + by apply app_eq_nil in Happ as [-> ->].
    + rewrite <- Happ. split; [done|]. split; [by rewrite Happ|].
      split; [by apply Forall_app|done].
  - simpl. by destruct from_cli.
Qed.

End Files.
End CommonFacts.

(** ** The shapes of the lines that the rules take *)

Module ShapeFacts.
Import Py Render Base Rules Re Shapes ReFacts.

Implicit Types (cls : N → bool) (p : pattern) (s body rest : str) (st : mstate).

Lemma pushes_open body (gs : list str) (acc : str) :
  pushes body (MState gs (Some acc)) = MState gs (Some (rev body ++ acc)).
Proof.
  revert acc. induction body as [|c body IH]; intros acc; [done|].
  simpl. unfold pushes in *. simpl. unfold push at 2. simpl.
  rewrite IH. by rewrite <- app_assoc.
Qed.

Lemma pushes_closed body (gs : list str) : pushes body (MState gs None) = MState gs None.
Proof. induction body as [|c body IH]; [done|]. unfold pushes in *. simpl. apply IH. Qed.

Lemma found_or (a b : option (list str)) :
  found (match a with Some r => Some r | None => b end) = found a || found b.
Proof. by destruct a. Qed.

(** A literal run of the pattern against the same characters. *)
Lemma run_ones (clss : list (N → bool)) (w : str) p b s st :
  Forall2 (fun cls c => cls c = true) clss w →
  run (List.map One clss ++ p) b (w ++ s) st
  = run p (match w with [] => b | _ :: _ => false end) s (pushes w st).
Proof.
  intros Hall. revert b st. induction Hall as [|cls c clss w Hc _ IH]; intros b st; [done|].
  simpl. rewrite Hc, IH. by destruct w.
Qed.

(** A greedy star stops where its class does, when what follows matches
    there. *)
Lemma star_greedy cls p body rest b st r :
  Forall (fun c => cls c = true) body →
  match rest with [] => True | c :: _ => cls c = false end →
  run p (match body with [] => b | _ :: _ => false end) rest (pushes body st) = Some r →
  run (Star cls :: p) b (body ++ rest) st = Some r.
Proof.
  intros Hall Hstop. revert b st. induction Hall as [|c body Hc _ IH]; intros b st Hr.
  - unfold pushes in Hr. simpl in Hr. change ([] ++ rest) with rest.
    rewrite run_Star. destruct rest as [|c rest]; [done|]. by rewrite Hstop.
  - rewrite <- app_comm_cons, run_Star, Hc.
    rewrite (IH false (push c st)); [done|]. by destruct body.
Qed.

(** [.*Q$], Q the double quote: the subject ends with a double quote, or
    with one and a newline, and has no other newline. *)
Lemma star_quote_eol b s st :
  found (run [Star dot; One (chr 34); Eol] b s st) = true
  ↔ ∃ body, without [10] body ∧ (s = body ++ [34] ∨ s = body ++ [34; 10]).
Proof.
  revert b st. induction s as [|c s IH]; intros b st.
  - split; [done|]. by intros ([|? ?] & _ & [?|?]).
  - rewrite run_Star.
    assert (Hlast : found (run [One (chr 34); Eol] b (c :: s) st) = true
                    ↔ c = 34 ∧ (s = [] ∨ s = [10])).
    { simpl. unfold chr. destruct (N.eqb_spec c 34) as [->|Hne]; [|by split; [|intros []]].
      destruct s as [|d [|e s]]; simpl.
      - split; [by auto|done].
      - destruct (N.eqb_spec d 10) as [->|Hd]; split; try done; auto.
        intros [_ [?|[= ?]]]; done.
      - split; [done|]. by intros [_ [?|?]]. }
    destruct (dot c) eqn:Hdot.
    + rewrite found_or, orb_true_iff, IH, Hlast. split.
      * intros [(body & Hb & Hs)|[-> Hs]].
        -- exists (c :: body). split.
           ++ constructor; [|done]. simpl. unfold dot in Hdot.
              by destruct (c =? 10).
           ++ destruct Hs as [-> | ->]; [by left|by right].
        -- exists []. split; [constructor|]. destruct Hs as [-> | ->]; [by left|by right].
      * intros ([|d body] & Hb & Hs).
        -- right. destruct Hs as [[= -> ->]|[= -> ->]]; split; auto.
        -- left. exists body. apply Forall_cons in Hb as [_ Hb]. split; [done|].
           destruct Hs as [[= _ ->]|[= _ ->]]; [by left|by right].
    + rewrite Hlast. unfold dot in Hdot. apply negb_false_iff, N.eqb_eq in Hdot as ->.
      split; [by intros [? _]|]. intros ([|d body] & Hb & Hs).
      * by destruct Hs as [[= ?]|[= ?]].
      * apply Forall_cons in Hb as [Hd _]. destruct Hs as [[= <- _]|[= <- _]]; done.
Qed.

(** X22.  The narration rule takes a line exactly when it is a text of one
    character at least between two double quotes, without a newline other
    than a final one; it writes the whole line, quotes included, as one
    narration paragraph. *)
Theorem narration_takes_quoted_lines (line : str) (c : context) :
  (narration_can_parse line c = true ↔ quoted_line line)
  ∧ narration_parse line c
    = if narration_can_parse line c
      then Some (true, with_doc (doc c ++ [Para Narration [Text line]]) c)
      else Some (false, c).
Proof.
  split; [|done].
  unfold narration_can_parse, rmatch, narration_pattern, quoted_line. simpl app.
  destruct line as [|c0 [|c1 rest]].
  - split; [done|]. by intros ([|? ?] & _ & _ & [?|?]).
  - split; [simpl; by destruct (chr dquote c0)|].
    intros ([|? [|? ?]] & Hne & _ & [?|?]); done.
  - cbn [run]. unfold chr at 1, dquote.
    destruct (N.eqb_spec c0 34) as [->|Hne].
    2:{ split; [done|]. intros (body & _ & _ & [[= ? _]|[= ? _]]); done. }
    destruct (dot c1) eqn:Hdot.
    2:{ split; [done|]. unfold dot in Hdot. apply negb_false_iff, N.eqb_eq in Hdot as ->.
        intros ([|d body] & Hb & Hall & Hs); [done|].
        apply Forall_cons in Hall as [Hd _].
        destruct Hs as [[= <- _]|[= <- _]]; done. }
    change (found (run [Star dot; One (chr 34); Eol] false rest
                     (push c1 (push 34 (MState [] None)))) = true
            ↔ ∃ body, body ≠ [] ∧ without [10] body
                      ∧ (34 :: c1 :: rest = [34] ++ body ++ [34]
                         ∨ 34 :: c1 :: rest = [34] ++ body ++ [34; 10])).
    rewrite star_quote_eol. split.
    + intros (body & Hb & Hs). exists (c1 :: body). split; [done|]. split.
      * constructor; [|done]. simpl. unfold dot in Hdot. by destruct (c1 =? 10).
      * destruct Hs as [-> | ->]; [by left|by right].
    + intros ([|d body] & Hne & Hall & Hs); [done|]. exists body.
      apply Forall_cons in Hall as [_ Hall]. split; [done|].
      destruct Hs as [[= _ ->]|[= _ ->]]; [by left|by right].
Qed.

Lemma run_hit cls p b c s st :
  cls c = true → run (One cls :: p) b (c :: s) st = run p false s (push c st).
Proof. intros H. simpl. by rewrite H. Qed.

Lemma push_closed c (gs : list str) : push c (MState gs None) = MState gs None.
Proof. done. Qed.

Lemma run_word (w : string) p b s st :
  run (word w ++ p) b (lit w ++ s) st
  = run p (match lit w with [] => b | _ :: _ => false end) s (pushes (lit w) st).
Proof.
  unfold word. rewrite <- (List.map_map chr One). apply run_ones.
  induction (lit w) as [|c l IH]; constructor; [apply N.eqb_refl|done].
Qed.

Lemma without_none_of cs s : without cs s → Forall (fun c => none_of cs c = true) s.
Proof.
  intros H. eapply Forall_impl; [exact H|]. intros c Hc. unfold none_of. by rewrite Hc.
Qed.

Lemma without_dot s : without [10] s → Forall (fun c => dot c = true) s.
Proof.
  intros H. eapply Forall_impl; [exact H|]. intros c Hc. unfold dot. simpl in Hc.
  by rewrite orb_false_r in Hc; rewrite Hc.
Qed.

(** A group of one character or more of a class, taken whole when what
    follows matches after it. *)
Lemma capture_plus cls p c body rest b (gs : list str) og r :
  cls c = true → Forall (fun c => cls c = true) body →
  match rest with [] => True | d :: _ => cls d = false end →
  run p false rest (MState (gs ++ [c :: body]) None) = Some r →
  run (Open :: One cls :: Star cls :: Close :: p) b (c :: body ++ rest) (MState gs og) = Some r.
Proof.
  intros Hc Hbody Hstop Hr.
  change (run (One cls :: Star cls :: Close :: p) b (c :: body ++ rest) (MState gs (Some []))
          = Some r).
  rewrite run_hit by done. apply star_greedy; [done|done|].
  assert (Hst : pushes body (push c (MState gs (Some []))) = MState gs (Some (rev body ++ [c])))
    by apply pushes_open.
  assert (Hb : match body with [] => false | _ :: _ => false end = false) by by destruct body.
  rewrite Hb, Hst.
  change (run p false rest (MState (gs ++ [rev (rev body ++ [c])]) None) = Some r).
  by rewrite rev_app_distr, rev_involutive.
Qed.

(** A last group of any number of characters of a class, to the end of the
    subject. *)
Lemma capture_rest cls body b (gs : list str) og :
  Forall (fun c => cls c = true) body →
  run [Open; Star cls; Close] b body (MState gs og) = Some (gs ++ [body]).
Proof.
  intros Hbody.
  change (run [Star cls; Close] b body (MState gs (Some [])) = Some (gs ++ [body])).
  rewrite <- (app_nil_r body) at 1. apply star_greedy; [done|done|].
  rewrite pushes_open. simpl. by rewrite app_nil_r, rev_involutive.
Qed.

Lemma search_here p s r : run p true s (MState [] None) = Some r → search p s = Some r.
Proof. intros H. unfold search. destruct s; simpl; by rewrite H. Qed.

(** X23.  A dialogue line in its plain form, [[name=Q] name [Q]] text with Q the
    double quote: the name is what stands between the quotes, the utterance
    what follows the bracket, and the rule writes both stripped, as one
    dialogue paragraph. *)
Theorem dialogue_line_is_rendered (name text : str) (c : context) :
  name ≠ [] → without [34] name → without [10] text →
  let line := lit "[name=" ++ [34] ++ name ++ [34; 93] ++ text in
  dialogue_can_parse line c = true
  ∧ dialogue_parse line c
    = Some (true, with_doc (doc c ++ [Para Dialogue [Text (strip name ++ lit ":");
                                                     Text (strip text)]]) c).
Proof.
  intros Hne Hname Htext line.
  assert (Hm : rmatch dialogue_pattern1 line = Some [name; text]).
  { unfold rmatch, dialogue_pattern1, line. rewrite run_word, pushes_closed.
    change (match lit "[name=" with [] => true | _ :: _ => false end) with false.
    destruct name as [|n0 name]; [done|]. apply Forall_cons in Hname as [Hn0 Hname].
    cbn [app plus]. rewrite run_hit, push_closed by done.
    apply (capture_plus (none_of [dquote]) _ n0 name (34 :: 93 :: text) false [] None).
    - unfold none_of, dquote. by rewrite Hn0.
    - by apply without_none_of.
    - done.
    - rewrite run_hit, push_closed by done. rewrite run_hit, push_closed by done.
      apply capture_rest. by apply without_dot. }
  unfold dialogue_can_parse, dialogue_parse. by rewrite Hm.
Qed.

(** X24.  A scene line, [<p=1>] title [<p=2>] time: the rule writes the title and
    the time, stripped, as a scene title and a scene timestamp. *)
Theorem scene_line_is_rendered (title time : str) (c : context) :
  title ≠ [] → time ≠ [] → without [60; 10] title → without [60; 10] time →
  let line := lit "<p=1>" ++ title ++ lit "<p=2>" ++ time in
  scene_can_parse line c = true
  ∧ scene_parse line c
    = Some (true, with_doc (doc c ++ [Para SceneTitle [Text (strip title)];
                                      Para SceneTimestamp [Text (strip time)]]) c).
Proof.
  intros Hne1 Hne2 Htitle Htime line.
  assert (Hm : search scene_pattern line = Some [title; time]).
  { apply search_here. unfold scene_pattern, line. rewrite run_word, pushes_closed.
    change (match lit "<p=1>" with [] => true | _ :: _ => false end) with false.
    destruct title as [|t0 title]; [done|]. apply Forall_cons in Htitle as [Ht0 Htitle].
    destruct time as [|u0 time]; [done|]. apply Forall_cons in Htime as [Hu0 Htime].
    cbn [app plus].
    apply (capture_plus (none_of [60; 10]) _ t0 title (lit "<p=2>" ++ u0 :: time) false [] None).
    - unfold none_of. by rewrite Ht0.
    - by apply without_none_of.
    - done.
    - rewrite run_word, pushes_closed.
      change (match lit "<p=2>" with [] => false | _ :: _ => false end) with false.
      rewrite <- (app_nil_r time).
      apply (capture_plus (none_of [60; 10]) [] u0 time [] false).
      + unfold none_of. by rewrite Hu0.
      + by apply without_none_of.
      + done.
      + simpl. by rewrite ?app_nil_r. }
  unfold scene_can_parse, scene_parse. rewrite Hm. split; [done|].
  unfold add_scene_timestamp, add_scene_title. simpl. by rewrite <- app_assoc.
Qed.

End ShapeFacts.

(** ** The configuration *)

Module ConfigFacts.
Import Py Config.

Implicit Types (k : str) (v : value) (d base override result : dict).

Lemma dict_get_put k k' v d :
  dict_get k (dict_put k' v d) = if bool_decide (k' = k) then Some v else dict_get k d.
Proof.
  induction d as [|[k0 v0] d IH]; simpl.
  - done.
  - destruct (decide (k0 = k')) as [->|Hne].
    + rewrite bool_decide_eq_true_2 by done. simpl. by destruct (bool_decide (k' = k)).
    + rewrite (bool_decide_eq_false_2 (k0 = k')) by done. simpl. rewrite IH.
      destruct (decide (k0 = k)) as [->|Hk].
      * rewrite bool_decide_eq_true_2 by done. by rewrite bool_decide_eq_false_2 by congruence.
      * by rewrite (bool_decide_eq_false_2 (k0 = k)) by done.
Qed.

Lemma dict_get_None k d : dict_get k d = None ↔ k ∉ d.*1.
Proof.
  induction d as [|[k0 v0] d IH]; simpl.
  - split; [intros _; apply not_elem_of_nil|done].
  - rewrite not_elem_of_cons. destruct (decide (k0 = k)) as [->|Hk].
    + rewrite bool_decide_eq_true_2 by done. split; [done|]. by intros [? _].
    + rewrite bool_decide_eq_false_2 by done. rewrite IH. split; [|by intros [_ ?]].
      intros ?. split; [congruence|done].
Qed.

Lemma dict_put_keys k v d :
  (dict_put k v d).*1 = if bool_decide (k ∈ d.*1) then d.*1 else d.*1 ++ [k].
Proof.
  induction d as [|[k0 v0] d IH]; [done|]. cbn [dict_put]. rewrite fmap_cons. cbn [fst].
  destruct (decide (k0 = k)) as [->|Hk].
  - rewrite bool_decide_eq_true_2 by done. rewrite fmap_cons. cbn [fst].
    by rewrite bool_decide_eq_true_2 by apply list_elem_of_here.
  - rewrite bool_decide_eq_false_2 by done. rewrite fmap_cons, IH. cbn [fst].
    destruct (decide (k ∈ d.*1)) as [Hin|Hin].
    + rewrite bool_decide_eq_true_2 by done.
      by rewrite bool_decide_eq_true_2 by (by apply list_elem_of_further).
    + rewrite bool_decide_eq_false_2 by done.
      rewrite bool_decide_eq_false_2; [done|].
      rewrite elem_of_cons. intros [?|?]; [congruence|done].
Qed.

(** The loop of [_merge_configs]. *)
Lemma merge_configs_loop base override :
  _merge_configs base override
  = fold_left (fun result '(key, value) =>
                 dict_put key (merged_entry merge_value (dict_get key result) value) result)
      override base.
Proof.
  unfold _merge_configs. simpl. revert base.
  induction override as [|[key value] rest IH]; intros base; [done|].
  simpl. rewrite <- IH. done.
Qed.

Lemma merge_loop_get k override result :
  NoDup override.*1 →
  dict_get k (fold_left (fun result '(key, value) =>
                dict_put key (merged_entry merge_value (dict_get key result) value) result)
                override result)
  = match dict_get k override with
    | None => dict_get k result
    | Some v => Some (merged_entry merge_value (dict_get k result) v)
    end.
Proof.
  revert result. induction override as [|[k0 v0] rest IH]; intros result Hnd; [done|].
  simpl in Hnd. apply NoDup_cons in Hnd as [Hfresh Hnd].
  cbn [fold_left dict_get]. rewrite IH by done.
  destruct (decide (k0 = k)) as [->|Hk].
  - rewrite bool_decide_eq_true_2 by done.
    rewrite (proj2 (dict_get_None k rest) Hfresh), dict_get_put.
    by rewrite bool_decide_eq_true_2.
  - rewrite bool_decide_eq_false_2 by done. rewrite dict_get_put.
    by rewrite bool_decide_eq_false_2.
Qed.

Lemma merge_loop_keys override result :
  (fold_left (fun result '(key, value) =>
                dict_put key (merged_entry merge_value (dict_get key result) value) result)
     override result).*1
  = fold_left (fun keys key => if bool_decide (key ∈ keys) then keys else keys ++ [key])
      override.*1 result.*1.
Proof.
  revert result. induction override as [|[k0 v0] rest IH]; intros result; [done|].
  rewrite fmap_cons. cbn [fold_left]. rewrite IH, dict_put_keys. done.
Qed.

(** X25.  [_merge_configs], key by key.  A key that the override does not have
    keeps the value of the base; a key that it has takes its value, unless
    both values are dicts, which are merged in turn.  No key is lost, and
    the keys of the base keep their places.  So [get] on a path whose first
    key the override does not have answers as on the base. *)
Theorem merge_configs_key_by_key (base override : dict) (k : str) :
  NoDup override.*1 →
  dict_get k (_merge_configs base override)
  = match dict_get k override with
    | None => dict_get k base
    | Some v =>
        Some (match dict_get k base, v with
              | Some (VDict b), VDict o => VDict (_merge_configs b o)
              | _, _ => v
              end)
    end
  ∧ base.*1 `prefix_of` (_merge_configs base override).*1
  ∧ (∀ key, key ∈ (_merge_configs base override).*1 ↔ key ∈ base.*1 ∨ key ∈ override.*1)
  ∧ (dict_get k override = None →
     ∀ keys default,
       get_keys (k :: keys) (VDict (_merge_configs base override)) default
       = get_keys (k :: keys) (VDict base) default).
Proof.
  intros Hnd. rewrite merge_configs_loop.
  assert (Hget : dict_get k (fold_left (fun result '(key, value) =>
                   dict_put key (merged_entry merge_value (dict_get key result) value) result)
                   override base)
                 = match dict_get k override with
                   | None => dict_get k base
                   | Some v => Some (merged_entry merge_value (dict_get k base) v)
                   end) by (by apply merge_loop_get).
  split; [|split; [|split]].
  - rewrite Hget. destruct (dict_get k override) as [v|]; [|done].
    unfold merged_entry. destruct (dict_get k base) as [[]|]; try done. by destruct v.
  - rewrite merge_loop_keys. clear. generalize (base.*1). generalize (override.*1).
    intros ks. induction ks as [|key ks IH]; intros l; [done|]. simpl.
    destruct (bool_decide (key ∈ l)); [apply IH|].
    etrans; [|apply IH]. by apply prefix_app_r.
  - intros key. rewrite merge_loop_keys. clear. generalize (base.*1). generalize (override.*1).
    intros ks. induction ks as [|key0 ks IH]; intros l; simpl.
    + rewrite elem_of_nil. tauto.
    + rewrite IH, elem_of_cons. destruct (decide (key0 ∈ l)) as [Hin|Hin].
      * rewrite bool_decide_eq_true_2 by done. split; [tauto|].
        intros [?|[->|?]]; tauto.
      * rewrite bool_decide_eq_false_2 by done. rewrite elem_of_app, list_elem_of_singleton.
        tauto.
  - intros Hk keys default. simpl. by rewrite Hget, Hk.
Qed.

End ConfigFacts.

(** ** Examples of the further properties *)

Module MoreExamples.
Import Py Render Base Images Rules Assembler Invariants Shapes.

Ltac by_compute := apply (bool_decide_unpack _); vm_compute; exact I.

(** A control line with blanks before and a newline after it. *)
Lemma parse_line_ignores_padding_witness :
  let reg := registry example_assembler in
  let line := lit "[Dialog]" in
  Forall (fun x => isspace x = true) (lit "  ")
  ∧ Forall (fun x => isspace x = true) [10]
  ∧ Registry.parse_line_calls reg (lit "  " ++ line ++ [10]) fresh_context
    = Registry.parse_line_calls reg line fresh_context.
Proof.
  intros reg line.
  assert (Hpre : Forall (fun x => isspace x = true) (lit "  ")) by (by repeat constructor).
  assert (Hpost : Forall (fun x => isspace x = true) [10]) by (by repeat constructor).
  split; [exact Hpre|]. split; [exact Hpost|].
  exact (proj1 (DispatchMore.parse_line_ignores_padding reg (lit "  ") line [10]
                  fresh_context Hpre Hpost)).
Defined.

(** The narration rule after the control rule, disabled or taken out. *)
Lemma disable_is_unregister_for_dispatch_witness :
  let pre := [new_ControlParser true 5] in
  let p := new_NarrationParser true 60 in
  let line := script "`Hello`" in
  class p = NarrationParser
  ∧ Registry.parse_line_calls (Registry.disable_parser (pre ++ [p]) NarrationParser)
      line fresh_context
    = Registry.parse_line_calls (Registry.unregister (pre ++ [p]) NarrationParser)
        line fresh_context
  ∧ Registry.unregister (pre ++ [p]) NarrationParser = pre.
Proof.
  intros pre p line. split; [reflexivity|].
  assert (Hothers : ∀ q : rule context, q ∈ pre ++ [] → class q ≠ NarrationParser).
  { intros q Hq. apply list_elem_of_singleton in Hq. subst q. simpl. discriminate. }
  destruct (RegistryMore.disable_is_unregister_for_dispatch NarrationParser pre p []
              line fresh_context eq_refl Hothers) as [Hcalls Hreg].
  split; [exact Hcalls|]. rewrite app_nil_r in Hreg. exact Hreg.
Defined.

(** A section on an assembler that has one already: two blank paragraphs,
    the title with the name of the character, then the text. *)
Lemma parse_lines_only_appends_witness :
  let asm := AssemblerObject (registry example_assembler)
               (with_first_section false fresh_context) in
  Forall (standard example_fetch example_sha256) (registry asm)
  ∧ ∃ skipped asm' body,
      parse_lines asm [script "`Hello`"] (Some (lit "Two")) (Some (lit "Amiya")) None None
      = Some (skipped, asm')
      ∧ doc (ctx asm')
        = [Para Blank []; Para Blank []; Para Title [Text (lit "AmiyaTwo")]] ++ body.
Proof.
  intros asm.
  pose proof (AssemblerFacts.new_assembler_standard example_fetch example_sha256
                DEFAULT_CONFIG) as Hstd.
  split; [exact Hstd|].
  destruct (DocumentFacts.parse_lines_only_appends example_fetch example_sha256 asm
              [script "`Hello`"] (Some (lit "Two")) (Some (lit "Amiya")) None None Hstd)
    as (sk & asm' & body & Hrun & Hdoc & _).
  exists sk, asm', body. split; [exact Hrun|exact Hdoc].
Defined.

(** Two images of the same content: both placeholders show number 1. *)
Lemma references_show_final_numbers_witness :
  let images : gmap str str := {[ lit "a" := lit "u1"; lit "b" := lit "u2" ]} in
  let lines := [image_line; script "[Image(image=`b`)]"] in
  image_enabled (registry example_assembler)
  ∧ ∃ skipped asm' st,
      parse_lines example_assembler lines None None None (Some images) = Some (skipped, asm')
      ∧ ImageParser_state (ctx asm') = Some st
      ∧ image_reference_runs st = [(1%nat, 0%nat); (2%nat, 1%nat)]
      ∧ ∀ k h, (k, h) ∈ image_reference_runs st →
          ∃ f, final_of example_fetch example_sha256 st k = Some (S f)
               ∧ shows (doc (ctx asm')) h (S f).
Proof.
  intros images lines.
  assert (Hen : image_enabled (registry example_assembler)).
  { unfold image_enabled. by_compute. }
  split; [exact Hen|].
  destruct (DocumentFacts.references_show_final_numbers example_fetch example_sha256
              example_assembler lines None None None (Some images)
              (AssemblerFacts.new_assembler_standard _ _ _) Hen)
    as (sk & asm' & st & Hrun & Hst & _ & _ & _ & Hshows).
  exists sk, asm', st. split; [exact Hrun|]. split; [exact Hst|]. split.
  - assert (Hc : (fun r : list str * assembler =>
                    image_reference_runs <$> ImageParser_state (ctx r.2))
                 <$> parse_lines example_assembler lines None None None (Some images)
                 = Some (Some [(1%nat, 0%nat); (2%nat, 1%nat)])) by (vm_compute; reflexivity).
    rewrite Hrun in Hc. simpl in Hc. rewrite Hst in Hc. simpl in Hc. congruence.
  - intros k h Hin. destruct (Hshows k h Hin) as (f & e & Hf & Hsh & _).
    exists f. by split.
Defined.

(** One image that cannot be fetched, at the call and at [save], with another
    text of the failure then: the document has an image section after the
    call, and a second one after [save]. *)
Lemma save_repeats_the_image_section_witness :
  let images : gmap str str := {[ lit "a" := lit "gone" ]} in
  let later := fun _ : str => Failed (lit "timeout") in
  image_enabled (registry example_assembler)
  ∧ ∃ skipped asm' body body' section again,
      parse_lines example_assembler [image_line] None None None (Some images)
      = Some (skipped, asm')
      ∧ (3 <= length section)%nat ∧ (3 <= length again)%nat
      ∧ doc (ctx asm') = body ++ section
      ∧ doc (ctx (save later example_sha256 asm').2) = body' ++ section ++ again
      ∧ length body' = length body.
Proof.
  intros images later.
  assert (Hen : image_enabled (registry example_assembler)).
  { unfold image_enabled. by_compute. }
  split; [exact Hen|].
  destruct (DocumentFacts.save_repeats_the_image_section example_fetch later example_sha256
              example_assembler [image_line] None None None (Some images)
              (AssemblerFacts.new_assembler_standard _ _ _) Hen)
    as (sk & asm' & st & Hrun & Hst & Himages).
  assert (Hne : images_to_append st ≠ []).
  { assert (Hc : (fun r : list str * assembler =>
                    images_to_append <$> ImageParser_state (ctx r.2))
                 <$> parse_lines example_assembler [image_line] None None None (Some images)
                 = Some (Some [(1%nat, lit "gone")])) by (vm_compute; reflexivity).
    rewrite Hrun in Hc. simpl in Hc. rewrite Hst in Hc. simpl in Hc.
    intros Hnil. rewrite Hnil in Hc. discriminate. }
  destruct (Himages Hne) as (Hlen & Hlen' & body & body' & Hdoc & Hsave & Hbody & _).
  exists sk, asm', body, body',
    (image_section (fetch_all example_fetch example_sha256 (images_to_append st))),
    (image_section (fetch_all later example_sha256 (images_to_append st))).
  split; [exact Hrun|]. split; [exact Hlen|]. split; [exact Hlen'|].
  split; [exact Hdoc|]. split; [exact Hsave|exact Hbody].
Defined.

(** A control line, a line that no rule takes, a blank line and a narration
    line. *)
Lemma skipped_lines_are_exact_witness :
  let lines := [lit "#"; lit "no rule"; lit "  " ++ [10]; script "`Hello`"] in
  Forall (standard example_fetch example_sha256) (registry example_assembler)
  ∧ List.filter (skipped_by (registry example_assembler) (ctx example_assembler)) lines
    = [lit "#"; lit "no rule"; lit "  " ++ [10]]
  ∧ ∃ skipped asm',
      parse_lines example_assembler lines None None None None = Some (skipped, asm')
      ∧ skipped = [lit "#"; lit "no rule"; lit "  "].
Proof.
  intros lines.
  pose proof (AssemblerFacts.new_assembler_standard example_fetch example_sha256
                DEFAULT_CONFIG) as Hstd.
  split; [exact Hstd|].
  assert (Hf : List.filter (skipped_by (registry example_assembler) (ctx example_assembler))
                 lines = [lit "#"; lit "no rule"; lit "  " ++ [10]]) by (by vm_compute).
  split; [exact Hf|].
  destruct (DocumentFacts.skipped_lines_are_exact example_fetch example_sha256
              example_assembler lines None None None None Hstd)
    as (sk & asm' & Hrun & Hsk & _).
  exists sk, asm'. split; [exact Hrun|]. rewrite Hsk, Hf. reflexivity.
Defined.

(** A dialogue line with blanks around the utterance. *)
Lemma dialogue_line_is_rendered_witness :
  let name := lit "Amiya" in
  let text := lit " Doctor! " in
  name ≠ [] ∧ without [34] name ∧ without [10] text
  ∧ dialogue_parse (lit "[name=" ++ [34] ++ name ++ [34; 93] ++ text) fresh_context
    = Some (true, with_doc [Para Dialogue [Text (lit "Amiya:"); Text (lit "Doctor!")]]
                    fresh_context).
Proof.
  intros name text.
  assert (Hne : name ≠ []) by discriminate.
  assert (Hname : without [34] name) by (by repeat constructor).
  assert (Htext : without [10] text) by (by repeat constructor).
  split; [exact Hne|]. split; [exact Hname|]. split; [exact Htext|].
  exact (proj2 (ShapeFacts.dialogue_line_is_rendered name text fresh_context
                  Hne Hname Htext)).
Defined.

(** A scene line. *)
Lemma scene_line_is_rendered_witness :
  let title := lit "Rhodes Island " in
  let time := lit " 10:00" in
  title ≠ [] ∧ time ≠ [] ∧ without [60; 10] title ∧ without [60; 10] time
  ∧ scene_parse (lit "<p=1>" ++ title ++ lit "<p=2>" ++ time) fresh_context
    = Some (true, with_doc [Para SceneTitle [Text (lit "Rhodes Island")];
                            Para SceneTimestamp [Text (lit "10:00")]] fresh_context).
Proof.
  intros title time.
  assert (Hne1 : title ≠ []) by discriminate.
  assert (Hne2 : time ≠ []) by discriminate.
  assert (Htitle : without [60; 10] title) by (by repeat constructor).
  assert (Htime : without [60; 10] time) by (by repeat constructor).
  split; [exact Hne1|]. split; [exact Hne2|]. split; [exact Htitle|]. split; [exact Htime|].
  exact (proj2 (ShapeFacts.scene_line_is_rendered title time fresh_context
                  Hne1 Hne2 Htitle Htime)).
Defined.

(** An override that disables the image rule and says nothing of its
    priority. *)
Lemma merge_configs_key_by_key_witness :
  let image := [(lit "enabled", Config.VBool true); (lit "priority", Config.VInt 10)] in
  let base := [(lit "document", Config.VDict [(lit "spacer_lines", Config.VInt 2)]);
               (lit "parsers", Config.VDict [(lit "image", Config.VDict image)])] in
  let off := [(lit "image", Config.VDict [(lit "enabled", Config.VBool false)])] in
  let override := [(lit "parsers", Config.VDict off)] in
  let merged := Config._merge_configs base override in
  NoDup override.*1
  ∧ Config.dict_get (lit "parsers") merged
    = Some (Config.VDict (Config._merge_configs [(lit "image", Config.VDict image)] off))
  ∧ Config.get merged (lit "parsers.image.enabled") Config.VNone = Config.VBool false
  ∧ Config.get merged (lit "parsers.image.priority") Config.VNone = Config.VInt 10
  ∧ Config.get merged (lit "document.spacer_lines") Config.VNone = Config.VInt 2
  ∧ Config.get merged (lit "document.page_size") (Config.VStr (lit "A4"))
    = Config.VStr (lit "A4").
Proof.
  intros image base off override merged.
  assert (Hnd : NoDup override.*1) by (apply NoDup_singleton).
  split; [exact Hnd|]. split.
  - exact (proj1 (ConfigFacts.merge_configs_key_by_key base override (lit "parsers") Hnd)).
  - repeat split; reflexivity.
Defined.

End MoreExamples.
